(** * reddit-stock-crawler: ticker extraction, whitelist cleaning, aggregation

    A shallow embedding of the algorithmic core of the crawler:

    - [etl/reddit_crawler_stock.py]: [TICKER_RE], [AMBIGUOUS],
      [extract_mentions], [update_daily_stats], [update_trend_alerts],
      [load_ticker_white_list], [ensure_sample_tickers],
      [fetch_known_tickers], [upsert_subreddit], [queue_redditor],
      [insert_post], [insert_comment], [insert_mention], [enrich_authors]
      and the loop over the posts in [crawl];
    - [script/build_ticker_list.py]: [KEEP_SINGLE], [MANUAL_STOP], [retry],
      [clean], [verify_with_yf], [fetch_crypto], [write_csv], [main].

    Python [str] values are modelled as [string] over ASCII characters:
    [str.upper], [str.strip], [str.isalpha] and the regular expression classes
    [\b], [\w] and [[A-Z]] are given their meaning on code points below 128.
    Python [set[str]] values are [gset string]; a table with a primary key is
    a [gmap] from the key to the other columns. *)

From Stdlib Require Import ZArith Ascii String List Lia Bool.
From stdpp Require Import base decidable option list gmap sets strings pretty sorting.

Local Open Scope string_scope.
Local Open Scope list_scope.

(** ** Python string primitives (ASCII) *)

Module PyStr.

Definition code (c : ascii) : N := N_of_ascii c.

Definition in_range (lo hi c : ascii) : bool :=
  (code lo <=? code c)%N && (code c <=? code hi)%N.

(** [[A-Z]] *)
Definition is_AZ (c : ascii) : bool := in_range "A" "Z" c.
Definition is_az (c : ascii) : bool := in_range "a" "z" c.
Definition is_digit (c : ascii) : bool := in_range "0" "9" c.

(** [\w]: letters, digits and the underscore. *)
Definition is_word (c : ascii) : bool :=
  is_AZ c || is_az c || is_digit c || Ascii.eqb c "_".

(** [str.isspace] on one character: TAB, LF, VT, FF, CR, FS, GS, RS, US
    and the space. *)
Definition is_space (c : ascii) : bool :=
  ((9 <=? code c)%N && (code c <=? 13)%N)
  || ((28 <=? code c)%N && (code c <=? 32)%N).

Definition upper_char (c : ascii) : ascii :=
  if is_az c then ascii_of_N (code c - 32) else c.

(** [s.upper()] *)
Fixpoint upper (s : string) : string :=
  match s with
  | EmptyString => EmptyString
  | String c s' => String (upper_char c) (upper s')
  end.

(** [s.lstrip()] *)
Fixpoint lstrip (s : string) : string :=
  match s with
  | EmptyString => EmptyString
  | String c s' => if is_space c then lstrip s' else s
  end.

(** [s.rstrip()]: a character is dropped when it is white space and nothing
    but white space follows it. *)
Fixpoint rstrip (s : string) : string :=
  match s with
  | EmptyString => EmptyString
  | String c s' =>
      match rstrip s' with
      | EmptyString => if is_space c then EmptyString else String c EmptyString
      | r => String c r
      end
  end.

(** [s.strip()] *)
Definition strip (s : string) : string := rstrip (lstrip s).

(** [s.replace(a, b)] for one-character [a] and [b]. *)
Fixpoint replace (a b : ascii) (s : string) : string :=
  match s with
  | EmptyString => EmptyString
  | String c s' => String (if Ascii.eqb c a then b else c) (replace a b s')
  end.

(** [a in s] for a one-character [a]. *)
Fixpoint contains (a : ascii) (s : string) : bool :=
  match s with
  | EmptyString => false
  | String c s' => Ascii.eqb c a || contains a s'
  end.

(** Number of occurrences of the character [a] in [s] ([s.count(a)]). *)
Fixpoint count (a : ascii) (s : string) : nat :=
  match s with
  | EmptyString => 0
  | String c s' => (if Ascii.eqb c a then 1 else 0) + count a s'
  end.

(** [s.partition(a)] for a one-character separator: the part before the
    first separator, the separator itself (empty when absent) and the part
    after it. *)
Fixpoint partition (a : ascii) (s : string) : string * string * string :=
  match s with
  | EmptyString => (EmptyString, EmptyString, EmptyString)
  | String c s' =>
      if Ascii.eqb c a then (EmptyString, String a EmptyString, s')
      else let '(l, m, r) := partition a s' in (String c l, m, r)
  end.

Fixpoint all_chars (p : ascii -> bool) (s : string) : bool :=
  match s with
  | EmptyString => true
  | String c s' => p c && all_chars p s'
  end.

(** [s.isalpha()]: at least one character, all of them letters. *)
Definition isalpha (s : string) : bool :=
  match s with
  | EmptyString => false
  | _ => all_chars (fun c => is_AZ c || is_az c) s
  end.

(** [s.lower()] *)
Definition lower_char (c : ascii) : ascii :=
  if is_AZ c then ascii_of_N (code c + 32) else c.

Fixpoint lower (s : string) : string :=
  match s with
  | EmptyString => EmptyString
  | String c s' => String (lower_char c) (lower s')
  end.

(** [re.fullmatch("[A-Z]{lo,hi}", s)] succeeds. *)
Definition fullmatch_AZ (lo hi : nat) (s : string) : bool :=
  (lo <=? String.length s)%nat && (String.length s <=? hi)%nat
  && all_chars is_AZ s.

Definition first_char (s : string) : option ascii :=
  match s with
  | EmptyString => None
  | String c _ => Some c
  end.

Fixpoint last_char (s : string) : option ascii :=
  match s with
  | EmptyString => None
  | String c EmptyString => Some c
  | String _ s' => last_char s'
  end.

End PyStr.

(** ** The token-candidate pattern [TICKER_RE] and [re.findall] *)

Module TickerRe.
Import PyStr.

(** [\b] between the character before the current position and the one at
    it; the two ends of the text count as non-word characters. *)
Definition word_at (o : option ascii) : bool := from_option is_word false o.

Definition word_boundary (prev next : option ascii) : bool :=
  xorb (word_at prev) (word_at next).

(** Exactly [n] characters of [[A-Z]]: the characters and the rest. *)
Fixpoint take_AZ (n : nat) (s : string) : option (string * string) :=
  match n with
  | 0 => Some (EmptyString, s)
  | S n' =>
      match s with
      | String c s' =>
          if is_AZ c then
            match take_AZ n' s' with
            | Some (tok, rest) => Some (String c tok, rest)
            | None => None
            end
          else None
      | EmptyString => None
      end
  end.

(** [([A-Z]{1,k})\b]: the greedy quantifier tries [k] letters first and
    gives one back at a time until the closing [\b] holds. *)
Fixpoint group_then_b (k : nat) (s : string) : option string :=
  match k with
  | 0 => None
  | S k' =>
      match take_AZ k s with
      | Some (tok, rest) =>
          if word_boundary (last_char tok) (first_char rest) then Some tok
          else group_then_b k' s
      | None => group_then_b k' s
      end
  end.

(** One match attempt of [\b\$?([A-Z]{1,5})\b] at a position, given the
    character before it: group 1 and the length of the whole match.  The
    optional dollar is greedy: it is taken when present, and given back
    when the rest fails. *)
Definition match_at (prev : option ascii) (s : string) : option (string * nat) :=
  if word_boundary prev (first_char s) then
    let without_dollar :=
      match group_then_b 5 s with
      | Some tok => Some (tok, String.length tok)
      | None => None
      end in
    match s with
    | String "$" s' =>
        match group_then_b 5 s' with
        | Some tok => Some (tok, S (String.length tok))
        | None => without_dollar
        end
    | _ => without_dollar
    end
  else None.

(** [TICKER_RE.findall]: scan left to right; after a match the scan
    resumes behind it ([skip] counts the characters of the current match
    still to pass), after a failure at the next character. *)
Fixpoint findall_from (prev : option ascii) (skip : nat) (s : string) : list string :=
  match s with
  | EmptyString =>
      match skip, match_at prev s with
      | 0, Some (tok, _) => [tok]
      | _, _ => []
      end
  | String c s' =>
      match skip with
      | S k => findall_from (Some c) k s'
      | 0 =>
          match match_at prev s with
          | Some (tok, len) => tok :: findall_from (Some c) (len - 1) s'
          | None => findall_from (Some c) 0 s'
          end
      end
  end.

Definition findall (s : string) : list string := findall_from None 0 s.

(** The shape of group 1: [[A-Z]{1,5}]. *)
Definition matches_AZ_1_5 (tok : string) : bool := fullmatch_AZ 1 5 tok.

(** What the pattern means on a whole text is said with the words of the
    text, its maximal runs of [\w] characters. *)

(** The longest prefix of [\w] characters, and what follows it. *)
Fixpoint span_word (s : string) : string * string :=
  match s with
  | EmptyString => (EmptyString, EmptyString)
  | String c s' =>
      if is_word c then let '(w, rest) := span_word s' in (String c w, rest)
      else (EmptyString, s)
  end.

(** The words of a text, left to right. *)
Fixpoint words (s : string) : list string :=
  match s with
  | EmptyString => []
  | String c s' =>
      if is_word c then
        match first_char s', words s' with
        | Some c', w :: ws =>
            if is_word c' then String c w :: ws else String c EmptyString :: w :: ws
        | _, ws => String c EmptyString :: ws
        end
      else words s'
  end.

(** The last character of [u], or [d] when [u] is empty. *)
Definition last_or (d : option ascii) (u : string) : option ascii :=
  match last_char u with
  | Some c => Some c
  | None => d
  end.

End TickerRe.

(** ** Mention extractor *)

Module Extractor.

(** [AMBIGUOUS]: the stop-word list of the crawler. *)
Definition AMBIGUOUS : gset string := list_to_set
  [ "YOU"; "ON"; "T"; "BE"; "SO"; "UP"; "AS"; "OR"; "CAN"; "HAS"; "NOW";
    "HE"; "BY"; "AN"; "AND"; "AM"; "ANY"; "BEAT"; "AGO";
    "IS"; "WHERE"; "NOT"; "BRO"; "SAY"; "POST"; "PLAY"; "DAY"; "SEE";
    "NEXT"; "WELL"; "WWW"; "WAY"; "HOPE"; "BULL"; "CARE"; "CASH";
    "COOK"; "COST"; "LUCK"; "OP"; "MAN"; "MOVE"; "TOP"; "JOB"; "ELSE";
    "EVER"; "FLOW"; "LOW"; "LOT"; "REAL"; "PUMP"; "ROOT"; "HIT";
    "NICE"; "RUN"; "NEAR"; "BIT"; "TWO"; "ONE"; "ADD"; "BASE"; "HUT";
    "PAY"; "TRUE"; "WTF"; "GAIN"; "AREN"; "DEEP"; "CUZ"; "EAT"; "FACT";
    "LINE"; "APP"; "WOW"; "AIN"; "EDIT"; "EXP"; "FAT"; "PLUS"; "BILL";
    "DRUG"; "MAX"; "NET"; "AI"; "K"; "F"; "VS"; "LINK"; "FORM" ].

(** The token candidates of a text: [TICKER_RE.findall(text.upper())]. *)
Definition candidates (text : string) : list string :=
  TickerRe.findall (PyStr.upper text).

(** [extract_mentions(text, allowed)] *)
Definition extract_mentions (text : string) (allowed : gset string) : list string :=
  filter (fun m => m ∈ allowed ∧ m ∉ AMBIGUOUS) (candidates text).

(** How many times [sym] is an element of [l] ([l.count(sym)]). *)
Definition occurrences (sym : string) (l : list string) : nat :=
  length (filter (fun m => m = sym) l).

End Extractor.

(** ** Whitelist builder ([build_ticker_list.py]) *)

Module Whitelist.
Import PyStr.

Definition KEEP_SINGLE : gset string := list_to_set ["F"; "T"; "O"; "K"].

Definition MANUAL_STOP : gset string := list_to_set
  [ "ALL"; "ARE"; "BUY"; "CALL"; "CEO"; "CFO"; "MOON"; "OPEN"; "PLAN";
    "SELL"; "USA"; "NEW"; "GOOD"; "LOVE"; "YOLO"; "DD"; "BIG"; "DAY";
    "OUT" ].

(** *** [clean] *)

(** The two segments [left, _, right = sym.partition("/")]. *)
Definition left_segment (sym : string) : string := (partition "/" sym).1.1.
Definition right_segment (sym : string) : string := (partition "/" sym).2.

Section Clean.
(** [wordfreq.zipf_frequency(word, lang)] is a lookup in a third-party
    corpus; its value, a number with two decimals, is taken in hundredths,
    so that [> 4.0] reads [400 <]. *)
Variable zipf_frequency : string -> string -> Z.

Definition _looks_like_word (sym : string) : bool :=
  (400 <? zipf_frequency (lower sym) "en")%Z.

(** [symbol.strip().upper().replace(".", "/")] *)
Definition normalize (symbol : string) : string :=
  replace "." "/" (upper (strip symbol)).

(** The body of the loop of [clean] after normalisation: [true] when
    control reaches [out.add(sym)], [false] when it leaves through one of
    the [continue] statements. *)
Definition accepted (sym : string) : bool :=
  if (String.length sym =? 1)%nat then
    bool_decide (sym ∈ KEEP_SINGLE)
  else if
    (if contains "/" sym then
       let '(left_, _, right_) := partition "/" sym in
       negb ((1 <=? String.length left_)%nat && (String.length left_ <=? 4)%nat
             && (String.length right_ =? 1)%nat)
     else negb ((2 <=? String.length sym)%nat && (String.length sym <=? 5)%nat))
  then false
  else if negb (isalpha sym || contains "/" sym) then false
  else if bool_decide (sym ∈ MANUAL_STOP) || _looks_like_word sym then false
  else true.

Definition clean (raw : list string) : gset string :=
  foldl (fun out symbol =>
           let sym := normalize symbol in
           if accepted sym then out ∪ {[ sym ]} else out)
        ∅ raw.
End Clean.

(** *** [retry] *)

Section Retry.
(** The wrapped function runs in a world [W] (network, clock, log); a
    call either raises an exception [E] or returns an [A]. *)
Context {W A E : Type}.
(** Delays are values of [time]; [times pause att] is [pause * att]. *)
Context {time : Type}.
Variable times : time -> Z -> time.
Variable max_tries : Z.
Variable pause : time.
Variable fn : W -> (E + A) * W.

Inductive event : Type :=
| EvCall (att : Z)          (* the call of [fn] at attempt [att] *)
| EvWarning (att : Z)       (* logging.warning(..., att, max_tries) *)
| EvSleep (d : time).       (* time.sleep(d) *)

Inductive outcome : Type :=
| Returned (a : A)
| Raised (e : E)
| ReturnedNone.             (* the loop ended without a return *)

(** The [for att in range(1, max_tries + 1)] loop from attempt [att] on,
    with [n] iterations left. *)
Fixpoint attempts (n : nat) (att : Z) (w : W) : outcome * list event * W :=
  match n with
  | 0 => (ReturnedNone, [], w)
  | S n' =>
      match fn w with
      | (inr a, w') => (Returned a, [EvCall att], w')
      | (inl e, w') =>
          if (att =? max_tries)%Z then (Raised e, [EvCall att], w')
          else
            let '(o, tr, w'') := attempts n' (att + 1)%Z w' in
            (o, EvCall att :: EvWarning att :: EvSleep (times pause att) :: tr, w'')
      end
  end.

(** [retry(max_tries, pause)(fn)], the decorated function. *)
Definition wrapper (w : W) : outcome * list event * W :=
  attempts (Z.to_nat max_tries) 1%Z w.

(** The world after the first [k] calls of [fn], and the result of the
    call that follows them. *)
Fixpoint after_calls (k : nat) (w : W) : W :=
  match k with
  | 0 => w
  | S k' => after_calls k' (snd (fn w))
  end.

Definition call_result (k : nat) (w : W) : E + A := fst (fn (after_calls k w)).

Definition raises (r : E + A) : Prop := ∃ e, r = inl e.

(** What the wrapper does around the attempts [att .. att + k - 1] that
    fail and are followed by another attempt. *)
Fixpoint failed_attempts (k : nat) (att : Z) : list event :=
  match k with
  | 0 => []
  | S k' =>
      EvCall att :: EvWarning att :: EvSleep (times pause att)
        :: failed_attempts k' (att + 1)%Z
  end.

Definition calls (tr : list event) : list Z :=
  omap (fun ev => match ev with EvCall a => Some a | _ => None end) tr.

Definition sleeps (tr : list event) : list time :=
  omap (fun ev => match ev with EvSleep d => Some d | _ => None end) tr.
End Retry.

(** *** [verify_with_yf] *)

Section Verify.
(** [yf.Ticker(s).fast_info]: the lookup raises, or returns an object
    that is truthy or falsy. *)
Inductive lookup : Type :=
| LookupRaises
| LookupReturns (truthy : bool).

(** The module-level [yf]: [None] when [import yfinance] failed. *)
Variable yf : option (string -> lookup).

Definition _ok (fast_info : string -> lookup) (s : string) : bool :=
  match fast_info s with
  | LookupReturns b => b
  | LookupRaises => false
  end.

(** [ex.map(_ok, symbols)] yields the results in the order of its
    argument, whatever the order in which the workers finish. *)
Definition verify_with_yf (symbols : gset string) : gset string :=
  match yf with
  | None => symbols
  | Some fast_info =>
      let syms := elements symbols in
      foldl (fun good '(sym, ok) => if ok : bool then good ∪ {[ sym ]} else good)
            ∅ (zip syms (map (_ok fast_info) syms))
  end.
End Verify.

End Whitelist.

(** ** Aggregator: daily statistics and trend alerts *)

Module Aggregator.
Local Open Scope Z_scope.

(** A time stamp as SQLite keeps it (day, time of day): [DATE(t)] is its
    day.  [CURRENT_TIMESTAMP] and ['now'] are the current time stamp, an
    input of each operation. *)
Record timestamp : Type := { ts_date : string; ts_time : string }.

Definition DATE (t : timestamp) : string := ts_date t.

(** The columns of [mentions] the aggregation reads. *)
Record mention : Type := {
  m_symbol : string;
  m_post_id : option string;
  m_comment_id : option string;
  m_created_at : timestamp }.

(** The columns of [daily_stats] the aggregation writes, and the row id. *)
Record daily_stat : Type := {
  ds_id : Z;
  ds_symbol : string;
  ds_date : string;
  mention_count : Z;
  post_mentions : Z;
  comment_mentions : Z;
  unique_authors : Z }.

Record trend_alert : Type := {
  ta_id : Z;
  ta_symbol : string;
  alert_type : string;
  threshold : Z;
  current_value : Z;
  percent_change : option Z;
  window_minutes : Z;
  message : string;
  priority : string;
  active : Z;
  ta_created_at : timestamp;
  closed_at : option timestamp }.

(** The database: [posts] and [comments] map the primary key [id] to the
    nullable [author_id]; the other tables are lists of rows in row-id
    order.  Statements are taken to run to their end: foreign keys,
    [NOT NULL] and integer overflow are outside the model. *)
Record db : Type := {
  posts : gmap string (option string);
  comments : gmap string (option string);
  mentions : list mention;
  daily_stats : list daily_stat;
  trend_alerts : list trend_alert }.

#[global] Instance timestamp_eq_dec : EqDecision timestamp.
Proof. solve_decision. Defined.

(** *** [update_daily_stats] *)

(** [p.author_id] after [LEFT JOIN posts AS p ON p.id = m.post_id]. *)
Definition post_author (d : db) (m : mention) : option string :=
  id ← m_post_id m; mjoin (posts d !! id).

(** [c.author_id] after [LEFT JOIN comments AS c ON c.id = m.comment_id]. *)
Definition comment_author (d : db) (m : mention) : option string :=
  id ← m_comment_id m; mjoin (comments d !! id).

(** [COALESCE(p.author_id, c.author_id)] *)
Definition author (d : db) (m : mention) : option string :=
  match post_author d m with
  | Some a => Some a
  | None => comment_author d m
  end.

(** [WHERE DATE(m.created_at) = DATE('now')] *)
Definition mentions_today (now : timestamp) (d : db) : list mention :=
  filter (fun m => DATE (m_created_at m) = DATE now) (mentions d).

(** [SUM(x IS NOT NULL)] over the rows of a group. *)
Definition count_not_null {A} (col : mention -> option A) (g : list mention) : Z :=
  Z.of_nat (length (filter (fun m => is_Some (col m)) g)).

(** One row of the [SELECT ... GROUP BY m.symbol]: the values offered to
    the insert, [excluded] in the conflict clause. *)
Record excluded : Type := {
  ex_symbol : string;
  ex_date : string;
  ex_mention_count : Z;
  ex_post_mentions : Z;
  ex_comment_mentions : Z;
  ex_unique_authors : Z }.

Definition aggregate (today : string) (d : db) (ms : list mention) (sym : string) : excluded :=
  let g := filter (fun m => m_symbol m = sym) ms in
  {| ex_symbol := sym;
     ex_date := today;
     ex_mention_count := Z.of_nat (length g);
     ex_post_mentions := count_not_null m_post_id g;
     ex_comment_mentions := count_not_null m_comment_id g;
     ex_unique_authors := Z.of_nat (length (remove_dups (omap (author d) g))) |}.

(** The groups come in the order in which their symbols first occur. *)
Definition select_daily (today : string) (now : timestamp) (d : db) : list excluded :=
  let ms := mentions_today now d in
  aggregate today d ms <$> remove_dups (m_symbol <$> ms).

Definition ds_key (r : daily_stat) : string * string := (ds_symbol r, ds_date r).
Definition ex_key (x : excluded) : string * string := (ex_symbol x, ex_date x).

(** A fresh row id: one more than the largest in the table. *)
Definition next_ds_id (tbl : list daily_stat) : Z :=
  1 + foldr Z.max 0 (ds_id <$> tbl).

(** [DO UPDATE SET mention_count = excluded.mention_count, ...] *)
Definition do_update (x : excluded) (r : daily_stat) : daily_stat :=
  {| ds_id := ds_id r;
     ds_symbol := ds_symbol r;
     ds_date := ds_date r;
     mention_count := ex_mention_count x;
     post_mentions := ex_post_mentions x;
     comment_mentions := ex_comment_mentions x;
     unique_authors := ex_unique_authors x |}.

(** [INSERT INTO daily_stats ... ON CONFLICT(symbol,date) DO UPDATE] for
    one row. *)
Definition upsert (tbl : list daily_stat) (x : excluded) : list daily_stat :=
  if bool_decide (ex_key x ∈ ds_key <$> tbl) then
    (fun r => if bool_decide (ds_key r = ex_key x) then do_update x r else r) <$> tbl
  else
    tbl ++ [ {| ds_id := next_ds_id tbl;
                ds_symbol := ex_symbol x;
                ds_date := ex_date x;
                mention_count := ex_mention_count x;
                post_mentions := ex_post_mentions x;
                comment_mentions := ex_comment_mentions x;
                unique_authors := ex_unique_authors x |} ].

Definition set_daily_stats (d : db) (tbl : list daily_stat) : db :=
  {| posts := posts d; comments := comments d; mentions := mentions d;
     daily_stats := tbl; trend_alerts := trend_alerts d |}.

(** [update_daily_stats(conn)]: [today] is [datetime.utcnow().date()] as
    read by Python, [now] the clock as read by SQLite. *)
Definition update_daily_stats (today : string) (now : timestamp) (d : db) : db :=
  set_daily_stats d (foldl upsert (daily_stats d) (select_daily today now d)).

(** The table holds a row for the key of [x], and every row with that key
    carries the values of [x]. *)
Definition holds_values (tbl : list daily_stat) (x : excluded) : Prop :=
  ex_key x ∈ ds_key <$> tbl
  ∧ ∀ r, r ∈ tbl → ds_key r = ex_key x →
      mention_count r = ex_mention_count x
      ∧ post_mentions r = ex_post_mentions x
      ∧ comment_mentions r = ex_comment_mentions x
      ∧ unique_authors r = ex_unique_authors x.

(** *** [update_trend_alerts] *)

Section TrendAlerts.
(** [INSERT OR IGNORE] skips a row that conflicts with a row of the table.
    The constraints of [trend_alerts] are declared in [schema.sql], which is
    not among the sources: [unique_conflict r r'] says that the new row [r]
    and the row [r'] cannot both be in the table. *)
Variable unique_conflict : trend_alert -> trend_alert -> bool.

(** [SELECT symbol, mention_count FROM daily_stats
     WHERE date=DATE('now') AND mention_count>=?] *)
Definition select_spikes (now : timestamp) (th : Z) (d : db) : list (string * Z) :=
  (fun r => (ds_symbol r, mention_count r))
    <$> filter (fun r => ds_date r = DATE now ∧ (th <= mention_count r)%Z)
               (daily_stats d).

Definition next_ta_id (tbl : list trend_alert) : Z :=
  1 + foldr Z.max 0 (ta_id <$> tbl).

(** The row of the [VALUES] clause, with the defaults of the columns the
    statement leaves out. *)
Definition new_alert (now : timestamp) (th : Z) (tbl : list trend_alert)
    (symbol : string) (cnt : Z) : trend_alert :=
  {| ta_id := next_ta_id tbl;
     ta_symbol := symbol;
     alert_type := "mention_spike";
     threshold := th;
     current_value := cnt;
     percent_change := None;
     window_minutes := 1440;
     message := symbol ++ " wurde heute bereits " ++ pretty cnt ++ "× erwähnt.";
     priority := "medium";
     active := 1;
     ta_created_at := now;
     closed_at := None |}.

(** [INSERT OR IGNORE INTO trend_alerts ...] for one row. *)
Definition insert_or_ignore (now : timestamp) (th : Z)
    (tbl : list trend_alert) (sc : string * Z) : list trend_alert :=
  let r := new_alert now th tbl sc.1 sc.2 in
  if existsb (unique_conflict r) tbl then tbl else tbl ++ [r].

Definition set_trend_alerts (d : db) (tbl : list trend_alert) : db :=
  {| posts := posts d; comments := comments d; mentions := mentions d;
     daily_stats := daily_stats d; trend_alerts := tbl |}.

(** [update_trend_alerts(conn, threshold)] *)
Definition update_trend_alerts (now : timestamp) (th : Z) (d : db) : db :=
  set_trend_alerts d
    (foldl (insert_or_ignore now th) (trend_alerts d) (select_spikes now th d)).
End TrendAlerts.

(** A uniqueness constraint as the spec describes the table: one alert per
    symbol per day is kept.  No source declares it: [schema.sql] is not
    among the sources, and [expected_schema.py] lists for [trend_alerts] the
    primary key [id], no date column and no unique index. *)
Definition same_symbol_day (r r' : trend_alert) : bool :=
  bool_decide (ta_symbol r = ta_symbol r'
               ∧ DATE (ta_created_at r) = DATE (ta_created_at r')).

(** A table with no uniqueness constraint besides the row id. *)
Definition no_constraint (r r' : trend_alert) : bool := false.

(** The one constraint that [expected_schema.py] records for
    [trend_alerts]: the primary key [id]. *)
Definition primary_key_id (r r' : trend_alert) : bool :=
  bool_decide (ta_id r = ta_id r').

Definition ta_key (r : trend_alert) : string * string :=
  (ta_symbol r, DATE (ta_created_at r)).

End Aggregator.

(** ** More Python primitives *)

Module PyMore.
Import PyStr.

(** [s.split(a)] for a one-character separator: the pieces between the
    separators, at least one. *)
Fixpoint split (a : ascii) (s : string) : list string :=
  match s with
  | EmptyString => [EmptyString]
  | String c s' =>
      if Ascii.eqb c a then EmptyString :: split a s'
      else
        match split a s' with
        | p :: ps => String c p :: ps
        | [] => [String c EmptyString]
        end
  end.

(** [s[:n]] for a constant [n >= 0]. *)
Fixpoint str_take (n : nat) (s : string) : string :=
  match n, s with
  | S n', String c s' => String c (str_take n' s')
  | _, _ => EmptyString
  end.

(** [l[:n]] for any integer [n]: a negative [n] counts from the end. *)
Definition slice_to {A} (n : Z) (l : list A) : list A :=
  if (0 <=? n)%Z then take (Z.to_nat n) l
  else take (Z.to_nat (Z.of_nat (length l) + n)) l.

(** The code point is below 128: here [str.upper], [str.strip],
    [str.isalpha] and the classes of [re] are as [PyStr] has them. *)
Definition is_ascii_char (c : ascii) : bool := (code c <? 128)%N.

Definition is_ascii (s : string) : bool := all_chars is_ascii_char s.

(** No character of [s] is a small letter. *)
Definition no_lower (s : string) : bool := all_chars (fun c => negb (is_az c)) s.

(** Python's order on [str]: by code point, a proper prefix first. *)
Definition str_le (a b : string) : Prop := String.leb a b = true.

#[global] Instance str_le_dec a b : Decision (str_le a b).
Proof. unfold str_le. apply _. Defined.

(** [sorted(symbols)] for a set of strings. *)
Definition sorted (symbols : gset string) : list string :=
  merge_sort str_le (elements symbols).

End PyMore.

(** ** The build pipeline of the whitelist ([build_ticker_list.py]) *)

Module Build.
Import PyStr PyMore Whitelist.

(** The set comprehension of [fetch_crypto] over the ["symbol"] fields of
    the reply. *)
Definition crypto_symbols (data : list string) : gset string :=
  list_to_set
    (upper <$> filter (fun s => isalpha s = true
                                ∧ (2 ≤ String.length s ≤ 5)%nat) data).

(** [write_csv(symbols, path)]: the rows handed to the csv writer, the
    header first. *)
Definition write_csv (symbols : gset string) : list (list string) :=
  ["symbol"] :: ((fun s => [s]) <$> sorted symbols).

Section Main.
(** The exceptions that can end a run. *)
Context {E : Type}.
Variable zipf_frequency : string -> string -> Z.
Variable yf : option (string -> lookup).
(** The [AttributeError] of [symbol.strip()] on a value that is no [str]. *)
Variable attribute_error : E.
(** [write_csv(symbols, OUT_FILE)] on the file system: the [OSError] that
    making the directory, opening or writing raises, if one does. *)
Variable write_file : list (list string) -> option E.

(** What each source gives when it is asked: an exception or raw symbols.
    [fetch_sp500] takes its set from a column of a pandas table, where an
    empty cell is a NaN and stays one under [.str.upper()]: its result is
    the strings of the set and whether the set holds a NaN.  The other
    sources build their sets from [str] values only. *)
Record sources : Type := {
  fetch_nasdaq : E + gset string;
  fetch_sp500 : E + (gset string * bool);
  fetch_germany : E + gset string;
  fetch_china_adr : E + gset string;
  fetch_crypto : Z -> E + gset string }.

(** The parsed command line. *)
Record args : Type := {
  markets : string;
  top_crypto : Z;
  verify : bool }.

(** [{m.strip().lower() for m in args.markets.split(",")}] *)
Definition wanted (a : args) : gset string :=
  list_to_set ((fun m => lower (strip m)) <$> split "," (markets a)).

(** Sequencing under an exception. *)
Definition and_then {A B} (r : E + A) (k : A -> E + B) : E + B :=
  match r with
  | inl e => inl e
  | inr a => k a
  end.

(** [symbols |= fetch()] *)
Definition union_fetch (fetch : E + gset string) (symbols : gset string)
    : E + gset string :=
  and_then fetch (fun s => inr (symbols ∪ s)).

(** [main()]: the exception that ends it, or the rows written to the file.
    [clean] raises on the first value of the universe that is no [str]; the
    lookups of [verify_with_yf] catch their exceptions.  A run that is
    interrupted from outside ([KeyboardInterrupt]) is not modelled. *)
Definition main (src : sources) (a : args) : E + list (list string) :=
  let w := wanted a in
  and_then
    (if bool_decide ("us" ∈ w) then
       and_then (union_fetch (fetch_nasdaq src) ∅) (fun symbols =>
       and_then (fetch_sp500 src) (fun s => inr (symbols ∪ s.1, s.2)))
     else inr (∅, false)) (fun universe =>
  let nan := universe.2 in
  and_then
    (if bool_decide ("de" ∈ w) then union_fetch (fetch_germany src) universe.1
     else inr universe.1) (fun symbols =>
  and_then
    (if bool_decide ("cn" ∈ w) then union_fetch (fetch_china_adr src) symbols
     else inr symbols) (fun symbols =>
  and_then
    (if bool_decide ("crypto" ∈ w) then
       union_fetch (fetch_crypto src (top_crypto a)) symbols
     else inr symbols) (fun symbols =>
  and_then
    (if nan then inl attribute_error
     else inr (clean zipf_frequency (elements symbols))) (fun symbols =>
  let symbols := if verify a then verify_with_yf yf symbols else symbols in
  let rows := write_csv symbols in
  match write_file rows with
  | Some e => inl e
  | None => inr rows
  end))))).

(** The strings of what [fetch_sp500] gives. *)
Definition sp500_strings (r : E + (gset string * bool)) : E + gset string :=
  match r with
  | inl e => inl e
  | inr s => inr s.1
  end.

(** The fetches of the requested markets, in the order of their calls, and
    the union of the sets they return. *)
Definition requested (src : sources) (a : args) : list (E + gset string) :=
  (if bool_decide ("us" ∈ wanted a)
   then [fetch_nasdaq src; sp500_strings (fetch_sp500 src)] else [])
  ++ (if bool_decide ("de" ∈ wanted a) then [fetch_germany src] else [])
  ++ (if bool_decide ("cn" ∈ wanted a) then [fetch_china_adr src] else [])
  ++ (if bool_decide ("crypto" ∈ wanted a) then [fetch_crypto src (top_crypto a)] else []).

Definition answers (rs : list (E + gset string)) : gset string :=
  foldl (fun symbols s => symbols ∪ s) ∅
    (omap (fun r => match r with inr s => Some s | inl _ => None end) rs).

(** The exception of the first fetch that raises, if one does. *)
Fixpoint first_raised (rs : list (E + gset string)) : option E :=
  match rs with
  | [] => None
  | inl e :: _ => Some e
  | inr _ :: rs' => first_raised rs'
  end.

(** The S&P 500 table is requested and gives a NaN. *)
Definition holds_nan (src : sources) (a : args) : bool :=
  bool_decide ("us" ∈ wanted a)
  && match fetch_sp500 src with
     | inr s => s.2
     | inl _ => false
     end.
End Main.

End Build.

(** ** The crawler around the extractor ([reddit_crawler_stock.py]) *)

Module Crawler.
Import PyStr PyMore Aggregator.
Local Open Scope Z_scope.

(** *** [load_ticker_white_list] *)

(** One row of the file: the cell of the first column. *)
Definition load_row (cell : string) : option string :=
  let sym := upper (strip cell) in
  if (0 <? String.length sym)%nat && (String.length sym <=? 5)%nat && isalpha sym
  then Some sym else None.

(** The set that [load_ticker_white_list(path)] returns when it returns:
    [None] when the path does not exist, else the first-column cells of the
    rows the reader yields.  [load_ticker_file] below has the outcome in
    which the call raises. *)
Definition load_ticker_white_list (file : option (list string)) : gset string :=
  match file with
  | None => ∅
  | Some cells =>
      foldl (fun symbols cell =>
               match load_row cell with
               | Some sym => symbols ∪ {[ sym ]}
               | None => symbols
               end) ∅ cells
  end.

(** What reading the file at the path gives: no such path; a file on
    which the call raises ([csv.Error] from [csv.Sniffer().sniff] on an
    empty file or on one in which it finds no delimiter, as in a file of one
    column with LF line ends; an error of opening or decoding the file); or
    the cells of the first column of the rows that the reader yields. *)
Inductive ticker_file : Type :=
| NoSuchPath
| ReadRaises
| FirstColumn (cells : list string).

(** [load_ticker_white_list(path)] with its outcomes: [None] when the call
    ends with the exception. *)
Definition load_ticker_file (f : ticker_file) : option (gset string) :=
  match f with
  | NoSuchPath => Some (load_ticker_white_list None)
  | ReadRaises => None
  | FirstColumn cells => Some (load_ticker_white_list (Some cells))
  end.

(** *** Table [tickers] (primary key [symbol]) *)

Record ticker : Type := {
  unternehmensname : option string;
  sektor : option string;
  branche : option string;
  aktiv : option Z }.

(** [INSERT OR IGNORE INTO tickers(...) VALUES(?,?,?,?,1)] for one row. *)
Definition insert_ticker_or_ignore (tickers : gmap string ticker)
    (row : string * string * string * string) : gmap string ticker :=
  let '(symbol, name, sec, br) := row in
  match tickers !! symbol with
  | Some _ => tickers
  | None =>
      <[symbol := {| unternehmensname := Some name; sektor := Some sec;
                     branche := Some br; aktiv := Some 1 |}]> tickers
  end.

(** [ensure_sample_tickers(cur)] *)
Definition ensure_sample_tickers (tickers : gmap string ticker) : gmap string ticker :=
  foldl insert_ticker_or_ignore tickers
    [ ("AAPL", "Apple Inc.", "Technology", "Consumer Electronics");
      ("TSLA", "Tesla Inc.", "Automotive", "Auto Manufacturers") ].

(** [fetch_known_tickers(cur)]: [SELECT symbol FROM tickers WHERE aktiv=1] *)
Definition fetch_known_tickers (tickers : gmap string ticker) : gset string :=
  dom (filter (fun kv => aktiv kv.2 = Some 1) tickers).

(** The whitelist of one crawl run. *)
Definition crawl_whitelist (tickers : gmap string ticker)
    (file : option (list string)) : gset string :=
  fetch_known_tickers (ensure_sample_tickers tickers) ∪ load_ticker_white_list file.

(** *** Table [subreddits] (primary key [id]) *)

Record subreddit : Type := {
  title : option string;
  description : option string;
  subscriber : option Z;
  created_utc : Z;
  quarantaene : Z }.

(** [upsert_subreddit(cur, sr)]: [id] is [sr.display_name], [row] holds the
    other values of the statement. *)
Definition upsert_subreddit (id : string) (row : subreddit)
    (subreddits : gmap string subreddit) : gmap string subreddit :=
  match subreddits !! id with
  | None => <[id := row]> subreddits
  | Some old =>
      <[id := {| title := title row;
                 description := description row;
                 subscriber := subscriber row;
                 created_utc := created_utc old;
                 quarantaene := quarantaene row |}]> subreddits
  end.

(** *** Table [redditors] (primary key [id]) *)

Record redditor : Type := {
  link_karma : option Z;
  comment_karma : option Z;
  r_created_utc : option Z }.

(** [queue_redditor(cur, name)] *)
Definition queue_redditor (name : option string)
    (redditors : gmap string redditor) : gmap string redditor :=
  match name with
  | None => redditors
  | Some n =>
      if String.eqb n "" then redditors
      else
        match redditors !! n with
        | Some _ => redditors
        | None =>
            <[n := {| link_karma := None; comment_karma := None;
                      r_created_utc := None |}]> redditors
        end
  end.

(** *** [enrich_authors] *)

(** What [reddit.redditor(name)._fetch()] gives: the profile, or one of the
    exceptions the loop tells apart.  The [Retry-After] header of a
    rate-limit reply is absent ([None]), an integer, or text that [int]
    rejects ([Some None]). *)
Inductive fetched : Type :=
| Profile (link comment created : Z)
| NotFound
| TooManyRequests (retry_after : option (option Z))
| OtherError.

Inductive enrich_event : Type :=
| SleepPace                 (* time.sleep(60 / MAX_AUTHORS_PER_MIN) *)
| SleepRetry (secs : Z).    (* time.sleep(retry + 1) *)

Inductive enrich_end : Type :=
| BatchDone
| RateLimited
| ValueErrorRaised.

(** [SELECT id FROM redditors WHERE link_karma IS NULL ORDER BY id LIMIT ?];
    a negative limit is no limit. *)
Definition select_unenriched (batch : Z) (redditors : gmap string redditor)
    : list string :=
  let ids := sorted (dom (filter (fun kv => link_karma kv.2 = None) redditors)) in
  if batch <? 0 then ids else take (Z.to_nat batch) ids.

(** The loop over the selected names. *)
Fixpoint enrich_loop (reddit : string -> fetched) (rows : list string)
    (redditors : gmap string redditor)
    : gmap string redditor * list enrich_event * enrich_end :=
  match rows with
  | [] => (redditors, [], BatchDone)
  | name :: rows' =>
      match reddit name with
      | Profile lk ck created =>
          let '(rs, evs, e) :=
            enrich_loop reddit rows'
              (alter (fun _ => {| link_karma := Some lk; comment_karma := Some ck;
                                  r_created_utc := Some created |}) name redditors) in
          (rs, SleepPace :: evs, e)
      | NotFound =>
          enrich_loop reddit rows'
            (alter (fun r => {| link_karma := Some 0;
                                comment_karma := comment_karma r;
                                r_created_utc := r_created_utc r |}) name redditors)
      | TooManyRequests None => (redditors, [SleepRetry (60 + 1)], RateLimited)
      | TooManyRequests (Some (Some retry)) =>
          (redditors, [SleepRetry (retry + 1)], RateLimited)
      | TooManyRequests (Some None) => (redditors, [], ValueErrorRaised)
      | OtherError => enrich_loop reddit rows' redditors
      end
  end.

(** [enrich_authors(conn, reddit, batch)] *)
Definition enrich_authors (reddit : string -> fetched) (batch : Z)
    (redditors : gmap string redditor)
    : gmap string redditor * list enrich_event * enrich_end :=
  enrich_loop reddit (select_unenriched batch redditors) redditors.

(** *** The crawl of one post *)

(** What the crawl reads of a comment and of a post. *)
Record comment_in : Type := {
  c_id : string;
  c_author : option string;
  c_body : string;
  c_depth : Z;
  c_parent_id : option string }.

Record post_in : Type := {
  p_id : string;
  p_author : option string;
  p_title : string;
  p_selftext : string;
  p_comments : list comment_in }.

(** The [parent_id] that [insert_comment] stores. *)
Definition comment_parent_id (parent_id : option string) : option string :=
  match parent_id with
  | Some p =>
      if negb (String.eqb p "") && String.prefix "t3_" p
      then split "_" p !! 1%nat
      else None
  | None => None
  end.

(** [comments.sort(key=lambda c: c.depth)]: a stable sort. *)
Fixpoint insert_by_depth (c : comment_in) (l : list comment_in) : list comment_in :=
  match l with
  | [] => [c]
  | c' :: l' =>
      if c_depth c <=? c_depth c' then c :: c' :: l'
      else c' :: insert_by_depth c l'
  end.

Definition sort_by_depth (l : list comment_in) : list comment_in :=
  foldr insert_by_depth [] l.

(** The comments the crawl works on: [comments[: self.comment_limit]]. *)
Definition scanned_comments (comment_limit : Z) (post : post_in) : list comment_in :=
  slice_to comment_limit (sort_by_depth (p_comments post)).

(** The arguments of one call of [insert_mention]. *)
Record mention_call : Type := {
  mc_sym : string;
  mc_post_id : option string;
  mc_comment_id : option string;
  mc_source : string;
  mc_context : string;
  mc_pos : Z }.

Definition post_calls (whitelist : gset string) (post : post_in) : list mention_call :=
  (fun m => {| mc_sym := m; mc_post_id := Some (p_id post); mc_comment_id := None;
               mc_source := "post"; mc_context := str_take 250 (p_title post);
               mc_pos := 0 |})
    <$> Extractor.extract_mentions (p_title post +:+ " " +:+ p_selftext post) whitelist.

Definition comment_calls (whitelist : gset string) (cm : comment_in) : list mention_call :=
  (fun m => {| mc_sym := m; mc_post_id := None; mc_comment_id := Some (c_id cm);
               mc_source := "comment"; mc_context := str_take 250 (c_body cm);
               mc_pos := 0 |})
    <$> Extractor.extract_mentions (c_body cm) whitelist.

(** All calls of [insert_mention] for one post, in order. *)
Definition mention_calls (whitelist : gset string) (comment_limit : Z)
    (post : post_in) : list mention_call :=
  post_calls whitelist post
  ++ concat (comment_calls whitelist <$> scanned_comments comment_limit post).

(** The tables the crawl of a post writes. *)
Record store : Type := {
  st_redditors : gmap string redditor;
  st_db : db }.

Definition with_redditors (f : gmap string redditor -> gmap string redditor)
    (st : store) : store :=
  {| st_redditors := f (st_redditors st); st_db := st_db st |}.

(** [INSERT OR IGNORE INTO posts(...)]: the row keeps [author_id]. *)
Definition insert_post (post : post_in) (st : store) : store :=
  let d := st_db st in
  {| st_redditors := st_redditors st;
     st_db :=
       {| posts := match posts d !! p_id post with
                   | Some _ => posts d
                   | None => <[p_id post := p_author post]> (posts d)
                   end;
          comments := comments d; mentions := mentions d;
          daily_stats := daily_stats d; trend_alerts := trend_alerts d |} |}.

(** [INSERT OR IGNORE INTO comments(...)] *)
Definition insert_comment (cm : comment_in) (st : store) : store :=
  let d := st_db st in
  {| st_redditors := st_redditors st;
     st_db :=
       {| posts := posts d;
          comments := match comments d !! c_id cm with
                      | Some _ => comments d
                      | None => <[c_id cm := c_author cm]> (comments d)
                      end;
          mentions := mentions d;
          daily_stats := daily_stats d; trend_alerts := trend_alerts d |} |}.

(** The row of [mentions] that a call writes: the columns the aggregation
    reads, [created_at] being the time of the insert. *)
Definition mention_row (now : timestamp) (c : mention_call) : mention :=
  {| m_symbol := mc_sym c; m_post_id := mc_post_id c;
     m_comment_id := mc_comment_id c; m_created_at := now |}.

(** [insert_mention(cur, sym, post_id, comment_id, source, context, pos)]:
    the row gets the time of the insert, [clock n] for the row after [n]
    others. *)
Definition insert_mention (clock : nat -> timestamp) (st : store)
    (c : mention_call) : store :=
  let d := st_db st in
  {| st_redditors := st_redditors st;
     st_db :=
       {| posts := posts d; comments := comments d;
          mentions := mentions d ++ [mention_row (clock (length (mentions d))) c];
          daily_stats := daily_stats d; trend_alerts := trend_alerts d |} |}.

(** The body of the loop over the scanned comments. *)
Definition crawl_comment (whitelist : gset string) (clock : nat -> timestamp)
    (st : store) (cm : comment_in) : store :=
  let st := with_redditors (queue_redditor (c_author cm)) st in
  let st := insert_comment cm st in
  foldl (insert_mention clock) st (comment_calls whitelist cm).

(** The body of the loop over the posts in [crawl]. *)
Definition crawl_post (whitelist : gset string) (comment_limit : Z)
    (clock : nat -> timestamp) (st : store) (post : post_in) : store :=
  let st := with_redditors (queue_redditor (p_author post)) st in
  let st := insert_post post st in
  let st := foldl (insert_mention clock) st (post_calls whitelist post) in
  foldl (crawl_comment whitelist clock) st (scanned_comments comment_limit post).

(** Every mention points to a stored post or to a stored comment, to one of
    the two. *)
Definition mention_linked (d : db) (m : mention) : Prop :=
  match m_post_id m, m_comment_id m with
  | Some p, None => is_Some (posts d !! p)
  | None, Some c => is_Some (comments d !! c)
  | _, _ => False
  end.

(** The author of a stored post or comment has a row in [redditors],
    unless the author is missing or the name is empty. *)
Definition author_queued (redditors : gmap string redditor)
    (a : option string) : Prop :=
  match a with
  | Some n => n = "" ∨ is_Some (redditors !! n)
  | None => True
  end.

Definition authors_queued (st : store) : Prop :=
  map_Forall (fun _ a => author_queued (st_redditors st) a) (posts (st_db st))
  ∧ map_Forall (fun _ a => author_queued (st_redditors st) a) (comments (st_db st)).

End Crawler.

Example test_regex_extracts_prefixed_and_plain :
  Extractor.extract_mentions "Buy $AAPL or go all-in on TSLA!" {[ "AAPL"; "TSLA" ]}
  = ["AAPL"; "TSLA"].
Proof. vm_compute. reflexivity. Qed.

Example test_regex_ignores_words_longer_than_5 :
  TickerRe.findall "BANANAS" = [].
Proof. reflexivity. Qed.

(** * Properties *)

(** ** The pattern matches only one to five capital letters *)

Section TickerReFacts.
Import PyStr TickerRe.

Lemma take_AZ_some n s tok rest :
  take_AZ n s = Some (tok, rest) →
  String.length tok = n ∧ all_chars is_AZ tok = true.
Proof.
  revert s tok rest. induction n as [|n IH]; intros s tok rest; simpl.
  - intros [= <- <-]. done.
  - destruct s as [|c s']; [done|].
    destruct (is_AZ c) eqn:Hc; [|done].
    destruct (take_AZ n s') as [[t r]|] eqn:Ht; [|done].
    intros [= <- <-]. destruct (IH _ _ _ Ht) as [Hlen Hall].
    simpl. rewrite Hc, Hall, Hlen. done.
Qed.

Lemma group_then_b_some k s tok :
  group_then_b k s = Some tok →
  (1 ≤ String.length tok ≤ k)%nat ∧ all_chars is_AZ tok = true.
Proof.
  induction k as [|k IH]; [done|].
  cbn [group_then_b].
  destruct (take_AZ (S k) s) as [[t r]|] eqn:Ht.
  - destruct (word_boundary (last_char t) (first_char r)).
    + intros [= <-]. apply take_AZ_some in Ht as [Hlen Hall].
      split; [lia|done].
    + intros H. apply IH in H. split; [lia|tauto].
  - intros H. apply IH in H. split; [lia|tauto].
Qed.

Lemma group_then_b_matches s tok :
  group_then_b 5 s = Some tok → matches_AZ_1_5 tok = true.
Proof.
  intros H. apply group_then_b_some in H as [[H1 H5] Hall].
  unfold matches_AZ_1_5, fullmatch_AZ. rewrite Hall.
  apply Nat.leb_le in H1, H5. rewrite H1, H5. done.
Qed.

Lemma match_at_some prev s tok len :
  match_at prev s = Some (tok, len) → matches_AZ_1_5 tok = true.
Proof.
  unfold match_at. destruct (word_boundary prev (first_char s)); [|done].
  assert (Hwd : match group_then_b 5 s with
                | Some t => Some (t, String.length t)
                | None => None
                end = Some (tok, len) → matches_AZ_1_5 tok = true).
  { destruct (group_then_b 5 s) as [t|] eqn:Hg; [|done].
    intros [= <- _]. by apply group_then_b_matches in Hg. }
  destruct s as [|c s']; [exact Hwd|].
  destruct (decide (c = "$"%char)) as [->|Hne].
  - destruct (group_then_b 5 s') as [t|] eqn:Hg; [|exact Hwd].
    intros [= <- _]. by apply group_then_b_matches in Hg.
  - destruct c as [[] [] [] [] [] [] [] []]; try exact Hwd. done.
Qed.

Lemma findall_from_shape prev skip s :
  Forall (fun tok => matches_AZ_1_5 tok = true) (findall_from prev skip s).
Proof.
  revert prev skip. induction s as [|c s' IH]; intros prev skip.
  - cbn [findall_from]. destruct skip; [|constructor].
    destruct (match_at prev "") as [[tok len]|] eqn:Hm; [|constructor].
    constructor; [|constructor]. by apply match_at_some in Hm.
  - cbn [findall_from]. destruct skip as [|k]; [|apply IH].
    destruct (match_at prev (String c s')) as [[tok len]|] eqn:Hm; [|apply IH].
    constructor; [|apply IH]. by apply match_at_some in Hm.
Qed.

Lemma AZ_not_char (a c : ascii) :
  is_AZ a = false → is_AZ c = true → Ascii.eqb c a = false.
Proof.
  intros Ha Hc. destruct (Ascii.eqb_spec c a) as [->|]; [congruence|done].
Qed.

Lemma all_AZ_not_contains (a : ascii) (s : string) :
  is_AZ a = false → all_chars is_AZ s = true → contains a s = false.
Proof.
  intros Ha. induction s as [|c s' IH]; [done|]. simpl.
  intros [Hc Hs]%andb_true_iff. rewrite (AZ_not_char a c Ha Hc). by apply IH.
Qed.

Lemma matches_AZ_1_5_all tok :
  matches_AZ_1_5 tok = true → all_chars is_AZ tok = true.
Proof. unfold matches_AZ_1_5, fullmatch_AZ. by intros [_ H]%andb_true_iff. Qed.

End TickerReFacts.

(** ** The matches of the pattern are the words of one to five capitals *)

Section TickerReWords.
Import PyStr TickerRe.

Lemma words_span c s' :
  is_word c = true →
  words (String c s')
  = (span_word (String c s')).1 :: words (span_word (String c s')).2.
Proof.
  revert c. induction s' as [|c' s'' IH]; intros c Hc.
  - cbn. rewrite Hc. reflexivity.
  - cbn [words span_word first_char]. rewrite Hc.
    destruct (is_word c') eqn:Hc'.
    + specialize (IH c' Hc'). cbn [words span_word first_char] in IH.
      rewrite Hc' in IH. rewrite IH.
      destruct (span_word s'') as [w rest]. reflexivity.
    + cbn [fst snd]. cbn [words]. rewrite Hc'.
      destruct (words s''); reflexivity.
Qed.

Lemma append_cons c u r : String c u +:+ r = String c (u +:+ r).
Proof. reflexivity. Qed.

Lemma append_nil r : "" +:+ r = r.
Proof. reflexivity. Qed.

Lemma span_word_spec s :
  s = (span_word s).1 +:+ (span_word s).2
  ∧ all_chars is_word (span_word s).1 = true
  ∧ word_at (first_char (span_word s).2) = false.
Proof.
  induction s as [|c s IH]; [done|].
  cbn [span_word]. destruct (is_word c) eqn:Hc.
  - destruct (span_word s) as [w rest]. cbn [fst snd] in *.
    destruct IH as (Hs & Hw & Hr). split; [by rewrite append_cons, <- Hs|].
    split; [cbn; by rewrite Hc|done].
  - cbn. by rewrite Hc.
Qed.

Lemma last_char_cons c u : ∃ c', last_char (String c u) = Some c'.
Proof.
  revert c. induction u as [|a u IH]; intros c; [by exists c|].
  destruct (IH a) as [c' Hc']. exists c'. exact Hc'.
Qed.

Lemma last_or_cons d c u : last_or d (String c u) = last_or (Some c) u.
Proof.
  unfold last_or. destruct u as [|a u]; [done|].
  change (last_char (String c (String a u))) with (last_char (String a u)).
  by destruct (last_char_cons a u) as [c' ->].
Qed.

Lemma findall_from_skip u : ∀ prev rest,
  findall_from prev (String.length u) (u +:+ rest)
  = findall_from (last_or prev u) 0 rest.
Proof.
  induction u as [|c u IH]; intros prev rest; [done|].
  rewrite append_cons. cbn [String.length findall_from].
  rewrite IH. by rewrite last_or_cons.
Qed.

Lemma AZ_word c : is_AZ c = true → is_word c = true.
Proof. unfold is_word. by intros ->. Qed.

Lemma match_at_no_boundary prev s :
  word_boundary prev (first_char s) = false → match_at prev s = None.
Proof. unfold match_at. by intros ->. Qed.

Lemma findall_from_inword u : ∀ prev rest,
  word_at prev = true → all_chars is_word u = true →
  findall_from prev 0 (u +:+ rest) = findall_from (last_or prev u) 0 rest.
Proof.
  induction u as [|c u IH]; intros prev rest Hp Hu; [done|].
  cbn in Hu. apply andb_true_iff in Hu as [Hc Hu].
  rewrite append_cons. cbn [findall_from]. rewrite match_at_no_boundary.
  - rewrite IH by done. by rewrite last_or_cons.
  - unfold word_boundary. cbn. by rewrite Hp, Hc.
Qed.

Lemma take_AZ_app n : ∀ s tok rest,
  take_AZ n s = Some (tok, rest) → s = tok +:+ rest.
Proof.
  induction n as [|n IH]; intros s tok rest; cbn [take_AZ].
  - by intros [= <- <-].
  - destruct s as [|c s']; [done|]. destruct (is_AZ c); [|done].
    destruct (take_AZ n s') as [[t r]|] eqn:Ht; [|done].
    intros [= <- <-]. rewrite append_cons. f_equal. by apply IH.
Qed.

Lemma take_AZ_complete w rest :
  all_chars is_AZ w = true → take_AZ (String.length w) (w +:+ rest) = Some (w, rest).
Proof.
  induction w as [|c w IH]; [done|]. cbn [all_chars].
  intros [Hc Hw]%andb_true_iff. rewrite append_cons. cbn [String.length take_AZ].
  by rewrite Hc, IH.
Qed.

Lemma group_then_b_sound k s tok :
  group_then_b k s = Some tok →
  ∃ rest, s = tok +:+ rest
          ∧ word_boundary (last_char tok) (first_char rest) = true.
Proof.
  induction k as [|k IH]; [done|]. cbn [group_then_b].
  destruct (take_AZ (S k) s) as [[t r]|] eqn:Ht; [|exact IH].
  destruct (word_boundary (last_char t) (first_char r)) eqn:Hb; [|exact IH].
  intros [= <-]. exists r. split; [by apply take_AZ_app in Ht|done].
Qed.

Lemma group_then_b_complete k s j tok rest :
  (1 ≤ j ≤ k)%nat →
  take_AZ j s = Some (tok, rest) →
  word_boundary (last_char tok) (first_char rest) = true →
  is_Some (group_then_b k s).
Proof.
  induction k as [|k IH]; intros Hj Ht Hb; [lia|]. cbn [group_then_b].
  destruct (take_AZ (S k) s) as [[t r]|] eqn:Ht'.
  - destruct (word_boundary (last_char t) (first_char r)) eqn:Hb'; [done|].
    apply IH; [|done|done].
    destruct (decide (j = S k)) as [->|]; [|lia]. congruence.
  - apply IH; [|done|done].
    destruct (decide (j = S k)) as [->|]; [|lia]. congruence.
Qed.

Lemma all_AZ_all_word u : all_chars is_AZ u = true → all_chars is_word u = true.
Proof.
  induction u as [|c u IH]; [done|]. cbn [all_chars].
  intros [Hc Hu]%andb_true_iff. by rewrite (AZ_word c Hc), IH.
Qed.

Lemma all_word_last c u :
  all_chars is_word (String c u) = true → word_at (last_char (String c u)) = true.
Proof.
  revert c. induction u as [|a u IH]; intros c; cbn [all_chars].
  - by intros [Hc _]%andb_true_iff.
  - intros [_ Hu]%andb_true_iff. by apply IH.
Qed.

Lemma span_word_unique w : ∀ rest,
  all_chars is_word w = true → word_at (first_char rest) = false →
  span_word (w +:+ rest) = (w, rest).
Proof.
  induction w as [|c w IH]; intros rest Hw Hr.
  - rewrite append_nil. destruct rest as [|c r]; [done|].
    cbn in Hr |- *. by rewrite Hr.
  - cbn [all_chars] in Hw. apply andb_true_iff in Hw as [Hc Hw].
    rewrite append_cons. cbn [span_word]. by rewrite Hc, IH.
Qed.

(** A successful group is the word that starts at the position. *)
Lemma group_then_b_span s tok :
  group_then_b 5 s = Some tok →
  matches_AZ_1_5 tok = true
  ∧ ∃ rest, s = tok +:+ rest ∧ span_word s = (tok, rest)
            ∧ word_at (last_char tok) = true.
Proof.
  intros Hg. pose proof (group_then_b_matches s tok Hg) as Hm.
  split; [done|].
  destruct (group_then_b_sound 5 s tok Hg) as (rest & -> & Hb).
  pose proof (all_AZ_all_word tok (matches_AZ_1_5_all tok Hm)) as Hw.
  assert (Hlast : word_at (last_char tok) = true).
  { destruct tok as [|c u]; [done|]. by apply all_word_last. }
  exists rest. split; [done|]. split; [|done].
  apply span_word_unique; [done|].
  unfold word_boundary in Hb. rewrite Hlast in Hb.
  by destruct (word_at (first_char rest)).
Qed.

(** A word of one to five capital letters is matched at its start. *)
Lemma group_then_b_word c s' :
  is_word c = true →
  matches_AZ_1_5 (span_word (String c s')).1 = true →
  group_then_b 5 (String c s') = Some (span_word (String c s')).1.
Proof.
  intros Hc Hm.
  destruct (span_word_spec (String c s')) as (Hs & Hw & Hr).
  assert (Hne : ∃ a u, (span_word (String c s')).1 = String a u).
  { cbn [span_word]. rewrite Hc. destruct (span_word s'). by eexists _, _. }
  destruct (span_word (String c s')) as [w rest]. cbn [fst snd] in *.
  destruct Hne as (a & u & ->). rewrite Hs.
  assert (Hb : word_boundary (last_char (String a u)) (first_char rest) = true).
  { unfold word_boundary. by rewrite Hr, all_word_last. }
  assert (Hsome : is_Some (group_then_b 5 (String a u +:+ rest))).
  { apply (group_then_b_complete 5 _ (String.length (String a u)) (String a u) rest).
    - unfold matches_AZ_1_5, fullmatch_AZ in Hm.
      apply andb_true_iff in Hm as [[H1 H5]%andb_true_iff _].
      apply Nat.leb_le in H1, H5. lia.
    - apply take_AZ_complete. by apply matches_AZ_1_5_all.
    - exact Hb. }
  destruct Hsome as [tok Htok]. rewrite Htok. f_equal.
  apply group_then_b_span in Htok as (_ & rest' & _ & Hspan & _).
  rewrite span_word_unique in Hspan by done. congruence.
Qed.

Lemma group_then_b_not_AZ c s' :
  is_AZ c = false → group_then_b 5 (String c s') = None.
Proof. intros Hc. cbn. by rewrite Hc. Qed.

Lemma not_word_not_AZ c : is_word c = false → is_AZ c = false.
Proof. destruct (is_AZ c) eqn:H; [|done]. by rewrite (AZ_word c H). Qed.

Lemma length_append u r :
  String.length (u +:+ r) = (String.length u + String.length r)%nat.
Proof.
  induction u as [|c u IH]; [done|]. rewrite append_cons. cbn [String.length]. lia.
Qed.

Lemma match_at_nil prev : match_at prev "" = None.
Proof. unfold match_at. by destruct (word_boundary prev (first_char "")). Qed.

Lemma match_at_dollar prev s' :
  match_at prev (String "$" s')
  = if word_boundary prev (Some "$"%char) then
      match group_then_b 5 s' with
      | Some tok => Some (tok, S (String.length tok))
      | None => None
      end
    else None.
Proof.
  unfold match_at. cbn [first_char].
  destruct (word_boundary prev (Some "$"%char)); [|done].
  rewrite (group_then_b_not_AZ "$" s') by done.
  by destruct (group_then_b 5 s').
Qed.

Lemma match_at_other prev c s' :
  c ≠ "$"%char →
  match_at prev (String c s')
  = if word_boundary prev (Some c) then
      match group_then_b 5 (String c s') with
      | Some tok => Some (tok, String.length tok)
      | None => None
      end
    else None.
Proof.
  intros Hc. unfold match_at. cbn [first_char].
  destruct (word_boundary prev (Some c)); [|done].
  destruct c as [[] [] [] [] [] [] [] []]; done.
Qed.

Lemma last_or_word d u :
  word_at d = true → all_chars is_word u = true → word_at (last_or d u) = true.
Proof.
  intros Hd Hu. destruct u as [|c u]; [done|].
  pose proof (all_word_last c u Hu) as Hl. unfold last_or.
  by destruct (last_char (String c u)).
Qed.

Local Abbreviation F := (filter (fun w => matches_AZ_1_5 w = true)).

Lemma findall_from_words n : ∀ s,
  (String.length s ≤ n)%nat →
  (∀ prev, word_at prev = false → findall_from prev 0 s = F (words s))
  ∧ (∀ prev, word_at prev = true → word_at (first_char s) = false →
       findall_from prev 0 s = F (words s)).
Proof.
  induction n as [|n IH]; intros s Hlen.
  { destruct s; [|cbn in Hlen; lia].
    split; intros; cbn [findall_from]; by rewrite match_at_nil. }
  destruct s as [|c s'].
  { split; intros; cbn [findall_from]; by rewrite match_at_nil. }
  cbn [String.length] in Hlen.
  assert (HA : ∀ prev, word_at prev = false →
                findall_from prev 0 s' = F (words s'))
    by (apply IH; lia).
  split.
  - intros prev Hp. destruct (is_word c) eqn:Hc.
    + (* a word starts here *)
      assert (Hnd : c ≠ "$"%char) by (intros ->; done).
      rewrite (words_span c s' Hc).
      destruct (span_word_spec s') as (Hs' & Hw' & Hr').
      assert (Hsp : span_word (String c s')
                    = (String c (span_word s').1, (span_word s').2)).
      { cbn [span_word]. rewrite Hc. by destruct (span_word s'). }
      pose proof (group_then_b_word c s' Hc) as Hword.
      rewrite Hsp in Hword |- *. cbn [fst snd] in Hword |- *.
      destruct (span_word s') as [w' rest]. cbn [fst snd] in *.
      assert (HB : findall_from (last_or (Some c) w') 0 rest = F (words rest)).
      { apply IH.
        - rewrite Hs', length_append in Hlen. lia.
        - by apply last_or_word.
        - done. }
      cbn [findall_from]. rewrite match_at_other by done.
      replace (word_boundary prev (Some c)) with true
        by (unfold word_boundary; cbn; by rewrite Hp, Hc).
      rewrite filter_cons.
      destruct (decide (matches_AZ_1_5 (String c w') = true)) as [Hm|Hm].
      * rewrite Hword by done.
        replace (String.length (String c w') - 1)%nat with (String.length w')
          by (cbn [String.length]; lia).
        rewrite Hs' at 1. by rewrite findall_from_skip, HB.
      * destruct (group_then_b 5 (String c s')) as [tok|] eqn:Hg.
        { apply group_then_b_span in Hg as (Hm' & r & _ & Hspan & _).
          rewrite Hsp in Hspan. congruence. }
        rewrite Hs' at 1. by rewrite findall_from_inword, HB.
    + cbn [findall_from words]. rewrite Hc.
      rewrite match_at_no_boundary
        by (unfold word_boundary; cbn; by rewrite Hp, Hc).
      apply HA. cbn. exact Hc.
  - intros prev Hp Hc. cbn in Hc. cbn [words]. rewrite Hc.
    cbn [findall_from].
    destruct (decide (c = "$"%char)) as [->|Hnd].
    + rewrite match_at_dollar.
      replace (word_boundary prev (Some "$"%char)) with true
        by (unfold word_boundary; by rewrite Hp).
      destruct (group_then_b 5 s') as [tok|] eqn:Hg; [|by apply HA].
      apply group_then_b_span in Hg as (Hm & rest & Hs' & Hspan & Hlast).
      destruct (span_word_spec s') as (_ & Hw & Hr).
      rewrite Hspan in Hw, Hr. cbn [fst snd] in Hw, Hr.
      assert (HB : findall_from (last_or (Some "$"%char) tok) 0 rest
                   = F (words rest)).
      { apply IH.
        - rewrite Hs', length_append in Hlen. lia.
        - unfold last_or. by destruct (last_char tok).
        - done. }
      assert (Hwords : words s' = tok :: words rest).
      { destruct tok as [|a u]; [done|].
        rewrite Hs', append_cons in Hspan |- *.
        cbn [all_chars] in Hw. apply andb_true_iff in Hw as [Ha _].
        by rewrite (words_span a _ Ha), Hspan. }
      rewrite Hwords, filter_cons, decide_True by done.
      replace (S (String.length tok) - 1)%nat with (String.length tok) by lia.
      f_equal. rewrite Hs' at 1. by rewrite findall_from_skip, HB.
    + rewrite match_at_other by done.
      replace (word_boundary prev (Some c)) with true
        by (unfold word_boundary; cbn; by rewrite Hp, Hc).
      rewrite group_then_b_not_AZ by (by apply not_word_not_AZ).
      apply HA. cbn. exact Hc.
Qed.

(** [TICKER_RE.findall] returns, in text order, the words of the text that
    consist of one to five capital letters. *)
Lemma findall_words s : findall s = F (words s).
Proof.
  unfold findall.
  destruct (findall_from_words (String.length s) s) as [HA _]; [done|].
  by apply HA.
Qed.

End TickerReWords.

(** ** Mention extractor *)

Section ExtractorFacts.
Import PyStr TickerRe Extractor.

Lemma candidates_shape text :
  Forall (fun tok => matches_AZ_1_5 tok = true) (candidates text).
Proof. apply findall_from_shape. Qed.

Lemma extract_mentions_candidate text allowed tok :
  tok ∈ extract_mentions text allowed → tok ∈ candidates text.
Proof. unfold extract_mentions. rewrite list_elem_of_filter. tauto. Qed.

Lemma occurrences_filter_le (P : string → Prop) `{!∀ x, Decision (P x)} sym l :
  (occurrences sym (filter P l) ≤ occurrences sym l)%nat.
Proof.
  unfold occurrences. induction l as [|x l IH]; [done|].
  rewrite (filter_cons P). destruct (decide (P x)).
  - rewrite 2!filter_cons. destruct (decide (x = sym)); simpl; lia.
  - rewrite filter_cons. destruct (decide (x = sym)); simpl; lia.
Qed.

Lemma occurrences_filter_eq (P : string → Prop) `{!∀ x, Decision (P x)} sym l :
  P sym → occurrences sym (filter P l) = occurrences sym l.
Proof.
  intros HP. unfold occurrences. induction l as [|x l IH]; [done|].
  rewrite (filter_cons P). destruct (decide (P x)).
  - rewrite 2!filter_cons. destruct (decide (x = sym)); simpl; lia.
  - rewrite filter_cons. destruct (decide (x = sym)) as [->|]; [done|lia].
Qed.

Lemma occurrences_filter_none (P : string → Prop) `{!∀ x, Decision (P x)} sym l :
  ¬ P sym → occurrences sym (filter P l) = 0%nat.
Proof.
  intros HP. unfold occurrences. induction l as [|x l IH]; [done|].
  rewrite (filter_cons P). destruct (decide (P x)); [|done].
  rewrite filter_cons. destruct (decide (x = sym)) as [->|]; [done|exact IH].
Qed.

Lemma occurrences_NoDup sym l : NoDup l → (occurrences sym l ≤ 1)%nat.
Proof.
  unfold occurrences. induction 1 as [|x l Hni Hnd IH]; [cbn; lia|].
  rewrite filter_cons. destruct (decide (x = sym)) as [->|]; [|done].
  assert (filter (fun m => m = sym) l = []) as ->; [|cbn; lia].
  clear -Hni. induction l as [|y l IH]; [done|].
  apply not_elem_of_cons in Hni as [Hne Hni].
  rewrite filter_cons, decide_False by done. by apply IH.
Qed.

Lemma T_ambiguous : "T" ∈ AMBIGUOUS.
Proof. apply (bool_decide_unpack _). vm_compute. exact I. Qed.

Lemma F_ambiguous : "F" ∈ AMBIGUOUS.
Proof. apply (bool_decide_unpack _). vm_compute. exact I. Qed.

Lemma K_ambiguous : "K" ∈ AMBIGUOUS.
Proof. apply (bool_decide_unpack _). vm_compute. exact I. Qed.

Lemma ambiguous_not_returned text allowed sym :
  sym ∈ AMBIGUOUS → sym ∉ extract_mentions text allowed.
Proof.
  intros Hamb. unfold extract_mentions. rewrite list_elem_of_filter. tauto.
Qed.

Lemma KEEP_SINGLE_elems s :
  s ∈ Whitelist.KEEP_SINGLE → s = "F" ∨ s = "T" ∨ s = "O" ∨ s = "K".
Proof.
  unfold Whitelist.KEEP_SINGLE. rewrite elem_of_list_to_set.
  rewrite !elem_of_cons, elem_of_nil. tauto.
Qed.

(** C1: every element of the list returned by [extract_mentions] is in the
    whitelist and is not in [AMBIGUOUS]. *)
Theorem extract_mentions_whitelisted text allowed tok :
  tok ∈ extract_mentions text allowed → tok ∈ allowed ∧ tok ∉ AMBIGUOUS.
Proof. unfold extract_mentions. rewrite list_elem_of_filter. tauto. Qed.

Lemma extract_mentions_whitelisted_witness :
  "TSLA" ∈ ({[ "AAPL"; "TSLA"; "ON" ]} : gset string) ∧ "TSLA" ∉ AMBIGUOUS.
Proof.
  apply (extract_mentions_whitelisted "Buy $AAPL on TSLA!" _ "TSLA").
  vm_compute. right. left.
Defined.

(** The token candidates are the words of the upper-cased text that consist
    of one to five capital letters, in text order, one per occurrence. *)
Lemma candidates_words text :
  candidates text
  = filter (fun w => matches_AZ_1_5 w = true) (words (upper text)).
Proof. apply findall_words. Qed.

(** C3: [extract_mentions] returns one element per matching occurrence, in
    text order: the result is the list of token candidates of the text (its
    words of one to five capital letters, after upper-casing) with the
    elements outside the whitelist or in [AMBIGUOUS] left out, so that a
    whitelisted symbol outside [AMBIGUOUS] is returned once for each of its
    occurrences as a token candidate. *)
Theorem extract_mentions_per_occurrence text allowed :
  extract_mentions text allowed `sublist_of` candidates text
  ∧ (∀ sym, sym ∈ allowed → sym ∉ AMBIGUOUS →
       occurrences sym (extract_mentions text allowed)
       = occurrences sym (candidates text))
  ∧ extract_mentions text allowed
    = filter (fun m => m ∈ allowed ∧ m ∉ AMBIGUOUS)
        (filter (fun w => matches_AZ_1_5 w = true) (words (upper text))).
Proof.
  split; [|split].
  - apply sublist_filter.
  - intros sym Hin Hna. unfold extract_mentions.
    by apply (occurrences_filter_eq (λ m, m ∈ allowed ∧ m ∉ AMBIGUOUS)).
  - unfold extract_mentions. by rewrite candidates_words.
Qed.

Lemma extract_mentions_per_occurrence_witness :
  occurrences "GME" (extract_mentions "gme? $GME! on GME" {[ "GME"; "ON" ]}) = 3%nat.
Proof.
  destruct (extract_mentions_per_occurrence "gme? $GME! on GME" {[ "GME"; "ON" ]})
    as (_ & H & _).
  rewrite (H "GME").
  - vm_compute. reflexivity.
  - apply (bool_decide_unpack _). vm_compute. exact I.
  - apply (bool_decide_unpack _). vm_compute. exact I.
Defined.

(** C4, as stated, fails: a symbol that occurs twice in the text is
    returned twice. *)
Lemma extract_mentions_duplicates :
  extract_mentions "AAPL AAPL" {[ "AAPL" ]} = ["AAPL"; "AAPL"]
  ∧ ¬ NoDup (extract_mentions "AAPL AAPL" {[ "AAPL" ]}).
Proof.
  assert (H : extract_mentions "AAPL AAPL" {[ "AAPL" ]} = ["AAPL"; "AAPL"])
    by (vm_compute; reflexivity).
  split; [exact H|]. rewrite H. intros Hnd.
  apply NoDup_cons in Hnd as [Hni _]. apply Hni. left.
Qed.

(** C4, amended: a symbol that is whitelisted and not in [AMBIGUOUS] is
    returned exactly as many times as it occurs as a token candidate in
    the text, any other symbol not at all; so no symbol is returned more
    often than it is mentioned, and a symbol mentioned k times is returned
    k times: the list is not reduced to the distinct symbols. *)
Theorem extract_mentions_at_most_occurrences text allowed sym :
  (occurrences sym (extract_mentions text allowed)
   ≤ occurrences sym (candidates text))%nat
  ∧ occurrences sym (extract_mentions text allowed)
    = (if bool_decide (sym ∈ allowed ∧ sym ∉ AMBIGUOUS)
       then occurrences sym (candidates text) else 0%nat)
  ∧ (sym ∈ allowed → sym ∉ AMBIGUOUS →
     (2 ≤ occurrences sym (candidates text))%nat →
     ¬ NoDup (extract_mentions text allowed)).
Proof.
  split; [apply occurrences_filter_le|]. split.
  - unfold extract_mentions. case_bool_decide as Hsym.
    + by apply (occurrences_filter_eq (λ m, m ∈ allowed ∧ m ∉ AMBIGUOUS)).
    + by apply (occurrences_filter_none (λ m, m ∈ allowed ∧ m ∉ AMBIGUOUS)).
  - intros Hin Hna Htwice Hnd.
    pose proof (occurrences_NoDup sym _ Hnd) as Hle.
    unfold extract_mentions in Hle.
    rewrite (occurrences_filter_eq (λ m, m ∈ allowed ∧ m ∉ AMBIGUOUS)) in Hle
      by done.
    lia.
Qed.
(** C9: every returned token consists of one to five capital letters, so a
    whitelist entry with a slash is never returned. *)
Theorem extract_mentions_AZ_1_5 text allowed tok :
  tok ∈ extract_mentions text allowed →
  matches_AZ_1_5 tok = true
  ∧ contains "/" tok = false ∧ contains "$" tok = false
  ∧ ∀ entry, contains "/" entry = true → tok ≠ entry.
Proof.
  intros Hin%extract_mentions_candidate.
  pose proof (candidates_shape text) as Hall.
  rewrite Forall_forall in Hall. specialize (Hall tok Hin).
  pose proof (matches_AZ_1_5_all tok Hall) as HAZ.
  assert (Hslash : contains "/" tok = false)
    by (by apply all_AZ_not_contains).
  split; [done|]. split; [done|]. split; [by apply all_AZ_not_contains|].
  intros entry He ->. congruence.
Qed.

Lemma extract_mentions_AZ_1_5_witness :
  matches_AZ_1_5 "BRK" = true
  ∧ contains "/" "BRK" = false ∧ contains "$" "BRK" = false
  ∧ ∀ entry, contains "/" entry = true → "BRK" ≠ entry.
Proof.
  apply (extract_mentions_AZ_1_5 "long $BRK/B and BRK" {[ "BRK/B"; "BRK"; "B" ]}).
  vm_compute. left.
Defined.

(** C10: ["T"], ["F"] and ["K"] are never returned, whatever the whitelist;
    of the one-letter keep-list of the whitelist builder only ["O"] can be
    returned, and it is returned when whitelisted. *)
Theorem extract_mentions_single_letters text allowed :
  (("T" ∉ extract_mentions text allowed)
   ∧ ("F" ∉ extract_mentions text allowed)
   ∧ ("K" ∉ extract_mentions text allowed))
  ∧ (∀ s, s ∈ Whitelist.KEEP_SINGLE → s ∈ extract_mentions text allowed → s = "O")
  ∧ extract_mentions "T F O K" Whitelist.KEEP_SINGLE = ["O"].
Proof.
  pose proof T_ambiguous. pose proof F_ambiguous. pose proof K_ambiguous.
  split; [|split].
  - split; [|split]; by apply ambiguous_not_returned.
  - intros s Hs Hin.
    destruct (KEEP_SINGLE_elems s Hs) as [-> | [-> | [-> | ->]]];
      [by apply ambiguous_not_returned in Hin
      |by apply ambiguous_not_returned in Hin
      |done
      |by apply ambiguous_not_returned in Hin].
  - vm_compute. reflexivity.
Qed.

End ExtractorFacts.

(** ** Verification pass *)

Section VerifyFacts.
Import Whitelist.

Lemma verify_loop_elem (f : string → bool) (syms : list string) (good : gset string) s :
  s ∈ foldl (fun good '(sym, ok) => if ok : bool then good ∪ {[ sym ]} else good)
        good (zip syms (map f syms))
  ↔ s ∈ good ∨ (s ∈ syms ∧ f s = true).
Proof.
  revert good. induction syms as [|x syms IH]; intros good; simpl.
  - rewrite elem_of_nil. tauto.
  - rewrite IH, elem_of_cons. destruct (f x) eqn:Hx.
    + rewrite elem_of_union, elem_of_singleton. split.
      * intros [[?| ->]|[? ?]]; auto.
      * intros [?|[[-> | ?] ?]]; auto.
    + split.
      * intros [?|[? ?]]; auto.
      * intros [?|[[-> | ?] ?]]; auto. congruence.
Qed.

Lemma _ok_true fast_info s :
  _ok fast_info s = true ↔ fast_info s = LookupReturns true.
Proof.
  unfold _ok. destruct (fast_info s) as [|[]]; split; congruence.
Qed.

(** C8: without [yfinance] the input set is returned as it is; with it, the
    result holds exactly the input symbols whose lookup returns a truthy
    value, so a lookup that raises or returns a falsy value drops that symbol
    only; the result is always a subset of the input. *)
Theorem verify_with_yf_spec (symbols : gset string) :
  verify_with_yf None symbols = symbols
  ∧ (∀ fast_info s,
       s ∈ verify_with_yf (Some fast_info) symbols
       ↔ s ∈ symbols ∧ fast_info s = LookupReturns true)
  ∧ (∀ yf, verify_with_yf yf symbols ⊆ symbols).
Proof.
  assert (Hsome : ∀ fast_info s,
            s ∈ verify_with_yf (Some fast_info) symbols
            ↔ s ∈ symbols ∧ fast_info s = LookupReturns true).
  { intros fast_info s. unfold verify_with_yf.
    rewrite verify_loop_elem, elem_of_empty, elem_of_elements, _ok_true. tauto. }
  split; [done|]. split; [exact Hsome|].
  intros [fast_info|]; [|done].
  intros s Hs. by apply Hsome in Hs as [? _].
Qed.

Lemma verify_with_yf_spec_witness :
  let fast_info := fun s => if String.eqb s "AAPL" then LookupReturns true
                            else if String.eqb s "XXXX" then LookupRaises
                            else LookupReturns false in
  let symbols : gset string := {[ "AAPL"; "XXXX"; "ZZZZ" ]} in
  ("AAPL" ∈ verify_with_yf (Some fast_info) symbols)
  ∧ ("XXXX" ∉ verify_with_yf (Some fast_info) symbols)
  ∧ ("ZZZZ" ∉ verify_with_yf (Some fast_info) symbols).
Proof.
  intros fast_info symbols.
  destruct (verify_with_yf_spec symbols) as (_ & H & _).
  rewrite !H. split; [|split].
  - split; [|reflexivity]. apply (bool_decide_unpack _). vm_compute. exact I.
  - intros [_ Hx]. vm_compute in Hx. discriminate Hx.
  - intros [_ Hz]. vm_compute in Hz. discriminate Hz.
Defined.

End VerifyFacts.

(** ** Retry policy *)

Section RetryFacts.
Import Whitelist.
Context {W A E time : Type}.
Variable times : time → Z → time.
Variable max_tries : Z.
Variable pause : time.
Variable fn : W → (E + A) * W.

Local Abbreviation attempts := (attempts times max_tries pause fn).
Local Abbreviation wrapper := (wrapper times max_tries pause fn).
Local Abbreviation failed_attempts := (failed_attempts times pause).
Local Abbreviation call_result := (call_result fn).
Local Abbreviation after_calls := (after_calls fn).

Lemma call_result_S k w : call_result (S k) w = call_result k (snd (fn w)).
Proof. reflexivity. Qed.

Lemma attempts_S n att w :
  attempts (S n) att w
  = match fn w with
    | (inr a, w') => (Returned a, [EvCall att], w')
    | (inl e, w') =>
        if (att =? max_tries)%Z then (Raised e, [EvCall att], w')
        else
          let '(o, tr, w'') := attempts n (att + 1)%Z w' in
          (o, EvCall att :: EvWarning att :: EvSleep (times pause att) :: tr, w'')
    end.
Proof. reflexivity. Qed.

(** The loop with [n] iterations left at attempt [att], when the call of
    iteration [k] is the first to return. *)
Lemma attempts_first_success k : ∀ n att w a,
  (att + Z.of_nat n = max_tries + 1)%Z →
  (k < n)%nat →
  (∀ i, (i < k)%nat → raises (call_result i w)) →
  call_result k w = inr a →
  attempts n att w
  = (Returned a, failed_attempts k att ++ [EvCall (att + Z.of_nat k)],
     after_calls (S k) w).
Proof.
  induction k as [|k IH]; intros n att w a Hatt Hk Hfail Hok.
  - destruct n as [|n]; [lia|]. rewrite attempts_S.
    unfold Whitelist.call_result in Hok. cbn in Hok |- *.
    destruct (fn w) as [[e|a'] w']; cbn in Hok; [done|].
    injection Hok as ->. by rewrite Z.add_0_r.
  - destruct n as [|n]; [lia|]. rewrite attempts_S.
    destruct (Hfail 0%nat ltac:(lia)) as [e He].
    unfold Whitelist.call_result in He. cbn in He.
    rewrite call_result_S in Hok.
    assert (Hfail' : ∀ i, (i < k)%nat → raises (call_result i (snd (fn w)))).
    { intros i Hi. rewrite <- call_result_S. apply Hfail. lia. }
    cbn [Whitelist.after_calls].
    destruct (fn w) as [[e'|a'] w']; cbn [fst snd] in He, Hok, Hfail' |- *; [|done].
    destruct (Z.eqb_spec att max_tries) as [->|_]; [lia|].
    rewrite (IH n (att + 1)%Z w' a); [|lia|lia|done|done].
    replace (att + 1 + Z.of_nat k)%Z with (att + Z.of_nat (S k))%Z by lia.
    reflexivity.
Qed.

(** The loop when all its [n] calls raise. *)
Lemma attempts_all_fail n : ∀ att w e,
  (att + Z.of_nat (S n) = max_tries + 1)%Z →
  (∀ i, (i < n)%nat → raises (call_result i w)) →
  call_result n w = inl e →
  attempts (S n) att w
  = (Raised e, failed_attempts n att ++ [EvCall max_tries], after_calls (S n) w).
Proof.
  induction n as [|n IH]; intros att w e Hatt Hfail Hlast.
  - rewrite attempts_S. unfold Whitelist.call_result in Hlast.
    cbn in Hlast |- *.
    destruct (fn w) as [[e'|a'] w']; cbn in Hlast; [|done].
    injection Hlast as ->.
    destruct (Z.eqb_spec att max_tries) as [->|]; [done|lia].
  - rewrite attempts_S.
    destruct (Hfail 0%nat ltac:(lia)) as [e0 He].
    unfold Whitelist.call_result in He. cbn in He.
    rewrite call_result_S in Hlast.
    assert (Hfail' : ∀ i, (i < n)%nat → raises (call_result i (snd (fn w)))).
    { intros i Hi. rewrite <- call_result_S. apply Hfail. lia. }
    cbn [Whitelist.after_calls].
    destruct (fn w) as [[e'|a'] w']; cbn [fst snd] in He, Hlast, Hfail' |- *; [|done].
    destruct (Z.eqb_spec att max_tries) as [->|_]; [lia|].
    rewrite (IH (att + 1)%Z w' e); [done|lia|done|done].
Qed.

Lemma calls_failed_attempts k att tail :
  calls (failed_attempts k att ++ tail)
  = map (fun i => (att + Z.of_nat i)%Z) (seq 0 k) ++ calls tail.
Proof.
  revert att. induction k as [|k IH]; intros att; [done|].
  change (calls (failed_attempts (S k) att ++ tail))
    with (att :: calls (failed_attempts k (att + 1)%Z ++ tail)).
  rewrite IH. cbn [seq map app]. rewrite Z.add_0_r. f_equal. f_equal.
  rewrite <- seq_shift, map_map. apply map_ext. intros i. lia.
Qed.

Lemma sleeps_failed_attempts k att tail :
  sleeps (failed_attempts k att ++ tail)
  = map (fun i => times pause (att + Z.of_nat i)%Z) (seq 0 k) ++ sleeps tail.
Proof.
  revert att. induction k as [|k IH]; intros att; [done|].
  change (sleeps (failed_attempts (S k) att ++ tail))
    with (times pause att :: sleeps (failed_attempts k (att + 1)%Z ++ tail)).
  rewrite IH. cbn [seq map app]. rewrite Z.add_0_r. f_equal. f_equal.
  rewrite <- seq_shift, map_map. apply map_ext. intros i. f_equal. lia.
Qed.

(** With no attempt to make, the wrapper calls nothing and returns [None]. *)
Lemma wrapper_no_attempt w :
  (max_tries ≤ 0)%Z → wrapper w = (ReturnedNone, [], w).
Proof.
  intros H. unfold Whitelist.wrapper.
  replace (Z.to_nat max_tries) with 0%nat by lia. reflexivity.
Qed.

(** C7: with at least one attempt allowed, the wrapper returns the result of
    the first call that succeeds among the first [max_tries] and calls
    nothing after it; when all [max_tries] calls raise it raises the
    exception of the last one; between attempt [a] and attempt [a + 1] it
    sleeps [pause * a]. *)
Theorem retry_wrapper_spec (w : W) :
  (1 ≤ max_tries)%Z →
  let n := Z.to_nat max_tries in
  (∀ k a,
      (k < n)%nat →
      (∀ i, (i < k)%nat → raises (call_result i w)) →
      call_result k w = inr a →
      ∃ tr,
        wrapper w = (Returned a, tr, after_calls (S k) w)
        ∧ tr = failed_attempts k 1 ++ [EvCall (1 + Z.of_nat k)]
        ∧ calls tr = map Z.of_nat (seq 1 (S k))
        ∧ sleeps tr = map (fun a => times pause (Z.of_nat a)) (seq 1 k))
  ∧ ((∀ i, (i < n)%nat → raises (call_result i w)) →
      ∃ e tr,
        call_result (n - 1) w = inl e
        ∧ wrapper w = (Raised e, tr, after_calls n w)
        ∧ tr = failed_attempts (n - 1) 1 ++ [EvCall max_tries]
        ∧ calls tr = map Z.of_nat (seq 1 n)
        ∧ sleeps tr = map (fun a => times pause (Z.of_nat a)) (seq 1 (n - 1))).
Proof.
  intros Hmax n.
  assert (Hshift : ∀ m, map (fun i => (1 + Z.of_nat i)%Z) (seq 0 m)
                        = map Z.of_nat (seq 1 m)).
  { intros m. rewrite <- seq_shift, map_map. apply map_ext. intros i. lia. }
  assert (Hshift' : ∀ m, map (fun i => times pause (1 + Z.of_nat i)%Z) (seq 0 m)
                         = map (fun a => times pause (Z.of_nat a)) (seq 1 m)).
  { intros m. rewrite <- seq_shift, map_map. apply map_ext. intros i.
    f_equal. lia. }
  split.
  - intros k a Hk Hfail Hok. eexists. split; [|split; [reflexivity|split]].
    + unfold Whitelist.wrapper. apply attempts_first_success; try done.
      subst n. lia.
    + rewrite calls_failed_attempts, Hshift. cbn [Whitelist.calls omap list_omap].
      rewrite seq_S, map_app. cbn [map]. do 3 f_equal. lia.
    + rewrite sleeps_failed_attempts, Hshift'. cbn. by rewrite app_nil_r.
  - intros Hfail.
    destruct (Hfail (n - 1)%nat ltac:(subst n; lia)) as [e He].
    exists e. eexists. split; [exact He|]. split; [|split; [reflexivity|split]].
    + unfold Whitelist.wrapper. fold n.
      replace n with (S (n - 1)) at 1 3 by (subst n; lia).
      apply attempts_all_fail; [subst n; lia| |done].
      intros i Hi. apply Hfail. lia.
    + rewrite calls_failed_attempts, Hshift. cbn [Whitelist.calls omap list_omap].
      replace n with (S (n - 1)) at 2 by (subst n; lia).
      rewrite seq_S, map_app. cbn [map]. do 3 f_equal. subst n. lia.
    + rewrite sleeps_failed_attempts, Hshift'. cbn. by rewrite app_nil_r.
Qed.

End RetryFacts.

(** A fetch that fails twice and then answers, under [retry(3, 3)]. *)
Lemma retry_wrapper_spec_witness :
  let fn := fun c : nat => (if (c <? 2)%nat then inl c else inr (10 * c)%nat, S c) in
  (1 ≤ 3)%Z
  ∧ Whitelist.wrapper Z.mul 3 3%Z fn 0%nat
    = (Whitelist.Returned 20%nat,
       [ Whitelist.EvCall 1; Whitelist.EvWarning 1; Whitelist.EvSleep 3%Z;
         Whitelist.EvCall 2; Whitelist.EvWarning 2; Whitelist.EvSleep 6%Z;
         Whitelist.EvCall 3 ],
       3%nat).
Proof.
  intros fn. split; [lia|].
  destruct (retry_wrapper_spec Z.mul 3 3%Z fn 0%nat ltac:(lia)) as [Hfirst _].
  destruct (Hfirst 2%nat 20%nat) as (tr & Hw & -> & _).
  - vm_compute. lia.
  - intros i Hi. exists i. destruct i as [|[|i]]; [reflexivity|reflexivity|lia].
  - reflexivity.
  - exact Hw.
Defined.

(** ** Whitelist cleaner *)

Section CleanFacts.
Import PyStr Whitelist.
Variable zipf_frequency : string → string → Z.

Local Abbreviation accepted := (accepted zipf_frequency).
Local Abbreviation clean := (clean zipf_frequency).
Local Abbreviation _looks_like_word := (_looks_like_word zipf_frequency).

Lemma clean_loop_elem raw : ∀ (out : gset string) sym,
  sym ∈ foldl (fun out symbol =>
                 let sym := normalize symbol in
                 if accepted sym then out ∪ {[ sym ]} else out) out raw
  ↔ sym ∈ out ∨ ∃ symbol, symbol ∈ raw ∧ normalize symbol = sym ∧ accepted sym = true.
Proof.
  induction raw as [|x raw IH]; intros out sym; cbn [foldl].
  - split; [auto|]. intros [?|(? & []%elem_of_nil & _)]. done.
  - rewrite IH. destruct (accepted (normalize x)) eqn:Hx.
    + rewrite elem_of_union, elem_of_singleton. split.
      * intros [[?| ->]|(y & ? & ? & ?)]; [by left|right|right].
        -- exists x. split; [left|done].
        -- exists y. split; [by right|done].
      * intros [?|(y & [-> | ?]%elem_of_cons & Hn & ?)]; [by left; left| |].
        -- left; right. by symmetry.
        -- right. by exists y.
    + split.
      * intros [?|(y & ? & ? & ?)]; [by left|right].
        exists y. split; [by right|done].
      * intros [?|(y & [-> | ?]%elem_of_cons & Hn & Ha)]; [by left| |].
        -- rewrite <- Hn, Hx in Ha. done.
        -- right. by exists y.
Qed.

(** A symbol is in the output of [clean] when one of the raw symbols
    normalises to it and passes the checks. *)
Lemma elem_of_clean raw sym :
  sym ∈ clean raw
  ↔ ∃ symbol, symbol ∈ raw ∧ normalize symbol = sym ∧ accepted sym = true.
Proof.
  unfold Whitelist.clean. rewrite clean_loop_elem, elem_of_empty. tauto.
Qed.

Lemma count_contains a s : (0 < count a s)%nat → contains a s = true.
Proof.
  induction s as [|c s IH]; cbn; [lia|].
  destruct (Ascii.eqb c a); [done|]. intros H. apply IH. lia.
Qed.

Lemma MANUAL_STOP_no_slash s : s ∈ MANUAL_STOP → contains "/" s = false.
Proof.
  unfold MANUAL_STOP. rewrite elem_of_list_to_set, !elem_of_cons, elem_of_nil.
  intros H. repeat (destruct H as [->|H]; [reflexivity|]). done.
Qed.

(** What [accepted] computes on a symbol with a slash in it. *)
Lemma accepted_slash sym :
  (count "/" sym = 1)%nat →
  accepted sym
  = (1 <=? String.length (left_segment sym))%nat
    && (String.length (left_segment sym) <=? 4)%nat
    && (String.length (right_segment sym) =? 1)%nat
    && negb (_looks_like_word sym).
Proof.
  intros Hcount.
  assert (Hslash : contains "/" sym = true) by (apply count_contains; lia).
  assert (Hstop : bool_decide (sym ∈ MANUAL_STOP) = false).
  { apply bool_decide_eq_false. intros Hin%MANUAL_STOP_no_slash. congruence. }
  unfold Whitelist.accepted, left_segment, right_segment.
  destruct (String.length sym =? 1)%nat eqn:Hlen.
  - destruct sym as [|c [|c' s']]; [done| |done].
    cbn [count] in Hcount.
    destruct (Ascii.eqb_spec c "/") as [Hc|]; [|done].
    rewrite Hc. reflexivity.
  - rewrite Hslash, Hstop, orb_true_r. cbn [negb orb].
    destruct (partition "/" sym) as [[l m] r]. cbn [fst snd].
    destruct ((1 <=? String.length l)%nat && (String.length l <=? 4)%nat
              && (String.length r =? 1)%nat); cbn [negb andb]; [|done].
    by destruct (_looks_like_word sym).
Qed.

(** C2, as stated, fails in both directions: the frequency filter rejects a
    well-shaped slash symbol that reads like common words, and a slash
    symbol whose segments are not letters passes. *)
Lemma clean_slash_iff_fails :
  (let zipf := fun (w lang : string) => if String.eqb w "a/i" then 690%Z else 0%Z in
   let sym := normalize " a.i " in
   sym = "A/I" ∧ count "/" sym = 1%nat
   ∧ fullmatch_AZ 1 4 (left_segment sym) = true
   ∧ fullmatch_AZ 1 1 (right_segment sym) = true
   ∧ sym ∉ Whitelist.clean zipf [" a.i "])
  ∧ (let zipf := fun (w lang : string) => 0%Z in
     let sym := normalize "-/-" in
     count "/" sym = 1%nat
     ∧ sym ∈ Whitelist.clean zipf ["-/-"]
     ∧ fullmatch_AZ 1 4 (left_segment sym) = false
     ∧ fullmatch_AZ 1 1 (right_segment sym) = false).
Proof.
  split.
  - intros zipf sym.
    split; [reflexivity|]. split; [reflexivity|].
    split; [reflexivity|]. split; [reflexivity|].
    apply (bool_decide_unpack _). vm_compute. exact I.
  - intros zipf sym.
    split; [reflexivity|]. split; [|split; reflexivity].
    apply (bool_decide_unpack _). vm_compute. exact I.
Qed.

(** C2, amended: a raw symbol whose normal form has exactly one slash and
    only capital letters around it is in the output of [clean] exactly when
    the left segment has one to four letters, the right segment has one, and
    the frequency filter does not take the symbol for a common word. *)
Theorem clean_slash_letters raw symbol :
  let sym := normalize symbol in
  symbol ∈ raw →
  count "/" sym = 1%nat →
  all_chars is_AZ (left_segment sym) = true →
  all_chars is_AZ (right_segment sym) = true →
  sym ∈ clean raw
  ↔ fullmatch_AZ 1 4 (left_segment sym) = true
    ∧ fullmatch_AZ 1 1 (right_segment sym) = true
    ∧ _looks_like_word sym = false.
Proof.
  intros sym Hraw Hcount Hl Hr.
  assert (Hacc : accepted sym = true
                 ↔ fullmatch_AZ 1 4 (left_segment sym) = true
                   ∧ fullmatch_AZ 1 1 (right_segment sym) = true
                   ∧ _looks_like_word sym = false).
  { rewrite (accepted_slash sym Hcount). unfold fullmatch_AZ.
    rewrite Hl, Hr, !andb_true_r, !andb_true_iff, negb_true_iff.
    rewrite !Nat.leb_le, Nat.eqb_eq. split.
    - intros [[[? ?] ?] ?]. repeat split; (done || lia).
    - intros [[? ?] [[? ?] ?]]. repeat split; (done || lia). }
  rewrite elem_of_clean, <- Hacc. split.
  - by intros (? & _ & _ & ?).
  - intros Ha. by exists symbol.
Qed.

End CleanFacts.

Lemma clean_slash_letters_witness :
  "BRK/B" ∈ Whitelist.clean (fun w lang => 0%Z) ["aapl"; " brk.b "]
  ↔ PyStr.fullmatch_AZ 1 4 "BRK" = true
    ∧ PyStr.fullmatch_AZ 1 1 "B" = true
    ∧ Whitelist._looks_like_word (fun w lang => 0%Z) "BRK/B" = false.
Proof.
  apply (clean_slash_letters (fun w lang => 0%Z) ["aapl"; " brk.b "] " brk.b ").
  - right. left.
  - reflexivity.
  - reflexivity.
  - reflexivity.
Defined.

(** ** Daily statistics *)

Section DailyStatsFacts.
Import Aggregator.

Lemma fmap_fixed {X} (f : X → X) (l : list X) :
  (∀ r, r ∈ l → f r = r) → f <$> l = l.
Proof.
  induction l as [|r l IH]; intros H; [done|]. cbn. f_equal.
  - apply H. left.
  - apply IH. intros r' Hr'. apply H. by right.
Qed.

Lemma do_update_fixed x r :
  mention_count r = ex_mention_count x
  ∧ post_mentions r = ex_post_mentions x
  ∧ comment_mentions r = ex_comment_mentions x
  ∧ unique_authors r = ex_unique_authors x →
  do_update x r = r.
Proof.
  destruct r. cbn. intros (-> & -> & -> & ->). reflexivity.
Qed.

Lemma upsert_present tbl x :
  ex_key x ∈ ds_key <$> tbl →
  upsert tbl x
  = (fun r => if bool_decide (ds_key r = ex_key x) then do_update x r else r) <$> tbl.
Proof. intros H. unfold upsert. by rewrite bool_decide_eq_true_2. Qed.

Lemma upsert_absent tbl x :
  ex_key x ∉ ds_key <$> tbl →
  ∃ r, upsert tbl x = tbl ++ [r]
       ∧ ds_id r = next_ds_id tbl
       ∧ ds_key r = ex_key x
       ∧ mention_count r = ex_mention_count x
       ∧ post_mentions r = ex_post_mentions x
       ∧ comment_mentions r = ex_comment_mentions x
       ∧ unique_authors r = ex_unique_authors x.
Proof.
  intros H. unfold upsert. rewrite bool_decide_eq_false_2 by done.
  eexists. split; [reflexivity|]. repeat split.
Qed.

(** A row that already carries the offered values is left as it is. *)
Lemma upsert_holds tbl x : holds_values tbl x → upsert tbl x = tbl.
Proof.
  intros [Hin Hval]. rewrite upsert_present by done.
  apply fmap_fixed. intros r Hr. case_bool_decide as Hk; [|done].
  apply do_update_fixed. by apply Hval.
Qed.

Lemma upsert_keys tbl x :
  ds_key <$> upsert tbl x
  = if bool_decide (ex_key x ∈ ds_key <$> tbl) then ds_key <$> tbl
    else (ds_key <$> tbl) ++ [ex_key x].
Proof.
  unfold upsert. case_bool_decide.
  - rewrite <- list_fmap_compose. apply list_fmap_ext. intros i r _.
    cbn. by case_bool_decide.
  - by rewrite fmap_snoc.
Qed.

Lemma upsert_key_in tbl x k :
  k ∈ ds_key <$> upsert tbl x ↔ k ∈ ds_key <$> tbl ∨ k = ex_key x.
Proof.
  rewrite upsert_keys. case_bool_decide as Hin.
  - split; [auto|]. by intros [?| ->].
  - rewrite elem_of_app, list_elem_of_singleton. done.
Qed.

(** The uniqueness of [(symbol, date)] survives each upsert. *)
Lemma upsert_NoDup tbl x :
  NoDup (ds_key <$> tbl) → NoDup (ds_key <$> upsert tbl x).
Proof.
  intros Hnd. rewrite upsert_keys. case_bool_decide as Hin; [done|].
  apply NoDup_app. split; [done|]. split.
  - intros k Hk ->%list_elem_of_singleton. done.
  - apply NoDup_singleton.
Qed.

Lemma upsert_holds_same tbl x : holds_values (upsert tbl x) x.
Proof.
  split; [apply upsert_key_in; by right|].
  intros r Hr Hk.
  destruct (decide (ex_key x ∈ ds_key <$> tbl)) as [Hin|Hin].
  - rewrite upsert_present in Hr by done.
    apply list_elem_of_fmap in Hr as (r0 & -> & Hr0).
    case_bool_decide as Hk0; [done|].
    by destruct Hk0.
  - destruct (upsert_absent tbl x Hin) as (r' & Heq & _ & Hk' & Hvals).
    rewrite Heq in Hr. apply elem_of_app in Hr as [Hr| ->%list_elem_of_singleton].
    + destruct Hin. rewrite <- Hk. by apply list_elem_of_fmap_2.
    + exact Hvals.
Qed.

Lemma upsert_holds_other tbl x y :
  ex_key y ≠ ex_key x → holds_values tbl x → holds_values (upsert tbl y) x.
Proof.
  intros Hne [Hin Hval]. split; [apply upsert_key_in; by left|].
  intros r Hr Hk.
  destruct (decide (ex_key y ∈ ds_key <$> tbl)) as [Hy|Hy].
  - rewrite upsert_present in Hr by done.
    apply list_elem_of_fmap in Hr as (r0 & -> & Hr0).
    case_bool_decide as Hk0.
    + destruct Hne. by rewrite <- Hk0, <- Hk.
    + by apply Hval.
  - destruct (upsert_absent tbl y Hy) as (r' & Heq & _ & Hk' & _).
    rewrite Heq in Hr. apply elem_of_app in Hr as [Hr| ->%list_elem_of_singleton].
    + by apply Hval.
    + destruct Hne. by rewrite <- Hk', <- Hk.
Qed.

Lemma foldl_upsert_holds_other rows : ∀ tbl x,
  ex_key x ∉ ex_key <$> rows →
  holds_values tbl x → holds_values (foldl upsert tbl rows) x.
Proof.
  induction rows as [|y rows IH]; intros tbl x Hni Hh; [done|].
  cbn [foldl]. rewrite fmap_cons, not_elem_of_cons in Hni.
  destruct Hni as [Hne Hni]. apply IH; [done|].
  apply upsert_holds_other; [congruence|done].
Qed.

(** After the statement every selected row is in the table with its values. *)
Lemma foldl_upsert_holds rows : ∀ tbl,
  NoDup (ex_key <$> rows) →
  ∀ x, x ∈ rows → holds_values (foldl upsert tbl rows) x.
Proof.
  induction rows as [|y rows IH]; intros tbl Hnd x Hx.
  - by apply elem_of_nil in Hx.
  - rewrite fmap_cons in Hnd. apply NoDup_cons in Hnd as [Hni Hnd].
    cbn [foldl]. apply elem_of_cons in Hx as [->|Hx].
    + apply foldl_upsert_holds_other; [done|]. apply upsert_holds_same.
    + by apply IH.
Qed.

Lemma foldl_upsert_fixed rows : ∀ tbl,
  (∀ x, x ∈ rows → holds_values tbl x) → foldl upsert tbl rows = tbl.
Proof.
  induction rows as [|y rows IH]; intros tbl H; [done|].
  cbn [foldl]. rewrite upsert_holds by (apply H; left).
  apply IH. intros x Hx. apply H. by right.
Qed.

Lemma foldl_upsert_NoDup rows : ∀ tbl,
  NoDup (ds_key <$> tbl) → NoDup (ds_key <$> foldl upsert tbl rows).
Proof.
  induction rows as [|y rows IH]; intros tbl Hnd; [done|].
  cbn [foldl]. apply IH. by apply upsert_NoDup.
Qed.

(** [GROUP BY m.symbol] yields one row per symbol. *)
Lemma select_daily_NoDup today now d :
  NoDup (ex_key <$> select_daily today now d).
Proof.
  unfold select_daily. rewrite <- list_fmap_compose.
  apply NoDup_fmap_2_strong; [|apply NoDup_remove_dups].
  intros s1 s2 _ _ [=]. done.
Qed.

Lemma select_daily_set_daily_stats today now d tbl :
  select_daily today now (set_daily_stats d tbl) = select_daily today now d.
Proof. reflexivity. Qed.

(** The selection reads the clock only for its day. *)
Lemma select_daily_same_day today now now' d :
  DATE now' = DATE now → select_daily today now' d = select_daily today now d.
Proof. intros H. unfold select_daily, mentions_today. by rewrite H. Qed.

(** C5: a second run of [update_daily_stats] on the same day over the same
    mentions leaves the database as the first run left it; the table then
    holds, for each symbol mentioned today, the recomputed counts, and it
    still has one row per (symbol, date). *)
Theorem update_daily_stats_idempotent today now now' d :
  DATE now' = DATE now →
  let d1 := update_daily_stats today now d in
  update_daily_stats today now' d1 = d1
  ∧ (∀ x, x ∈ select_daily today now d → holds_values (daily_stats d1) x)
  ∧ (NoDup (ds_key <$> daily_stats d) → NoDup (ds_key <$> daily_stats d1)).
Proof.
  intros Hday d1. subst d1. unfold update_daily_stats.
  rewrite select_daily_set_daily_stats, (select_daily_same_day _ _ _ _ Hday).
  cbn [daily_stats set_daily_stats].
  pose proof (foldl_upsert_holds (select_daily today now d) (daily_stats d)
                (select_daily_NoDup today now d)) as Hholds.
  split; [|split].
  - unfold set_daily_stats. cbn. f_equal. by apply foldl_upsert_fixed.
  - exact Hholds.
  - apply foldl_upsert_NoDup.
Qed.

End DailyStatsFacts.

(** Today AAPL is mentioned in a post by alice and in a comment by bob, GME
    in a comment by bob; TSLA was mentioned yesterday; [daily_stats] has a
    stale row for AAPL.  The first run updates the row of AAPL and inserts
    one for GME, the second run, some minutes later, changes nothing. *)
Lemma update_daily_stats_idempotent_witness :
  let today := "2025-08-20" in
  let now := {| Aggregator.ts_date := "2025-08-20"; Aggregator.ts_time := "21:15:00" |} in
  let now' := {| Aggregator.ts_date := "2025-08-20"; Aggregator.ts_time := "21:45:00" |} in
  let morning := {| Aggregator.ts_date := "2025-08-20"; Aggregator.ts_time := "08:00:00" |} in
  let yesterday := {| Aggregator.ts_date := "2025-08-19"; Aggregator.ts_time := "08:00:00" |} in
  let d :=
    {| Aggregator.posts := {[ "p1" := Some "alice" ]};
       Aggregator.comments := {[ "c1" := Some "bob"; "c2" := Some "bob" ]};
       Aggregator.mentions :=
         [ Aggregator.Build_mention "AAPL" (Some "p1") None morning;
           Aggregator.Build_mention "TSLA" (Some "p1") None yesterday;
           Aggregator.Build_mention "AAPL" None (Some "c1") morning;
           Aggregator.Build_mention "GME" None (Some "c2") morning ];
       Aggregator.daily_stats := [ Aggregator.Build_daily_stat 7 "AAPL" "2025-08-20" 1 1 0 1 ];
       Aggregator.trend_alerts := [] |} in
  Aggregator.daily_stats
    (Aggregator.update_daily_stats today now' (Aggregator.update_daily_stats today now d))
  = [ Aggregator.Build_daily_stat 7 "AAPL" "2025-08-20" 2 1 1 2;
      Aggregator.Build_daily_stat 8 "GME" "2025-08-20" 1 0 1 1 ].
Proof.
  intros today now now' morning yesterday d.
  destruct (update_daily_stats_idempotent today now now' d) as (-> & _ & _).
  - reflexivity.
  - vm_compute. reflexivity.
Defined.

(** ** Trend alerts *)

Section TrendAlertFacts.
Import Aggregator.
Variable unique_conflict : trend_alert → trend_alert → bool.

(** The constraint lets no two rows share symbol and day. *)
Hypothesis per_symbol_day :
  ∀ r r', ta_key r = ta_key r' → unique_conflict r r' = true.

Local Abbreviation insert_or_ignore := (insert_or_ignore unique_conflict).
Local Abbreviation update_trend_alerts := (update_trend_alerts unique_conflict).

(** One [INSERT OR IGNORE] leaves the table as it is or appends a row whose
    (symbol, day) is new. *)
Lemma insert_or_ignore_cases now th tbl sc :
  insert_or_ignore now th tbl sc = tbl
  ∨ ∃ r, insert_or_ignore now th tbl sc = tbl ++ [r]
         ∧ ta_key r = (sc.1, DATE now)
         ∧ ta_key r ∉ ta_key <$> tbl.
Proof.
  unfold Aggregator.insert_or_ignore.
  destruct (existsb _ tbl) eqn:He; [by left|right].
  eexists. split; [reflexivity|]. split; [reflexivity|].
  intros (r' & Hk & Hr')%list_elem_of_fmap.
  assert (existsb (unique_conflict (new_alert now th tbl sc.1 sc.2)) tbl = true)
    as Ht; [|congruence].
  apply existsb_exists. exists r'. split; [by apply list_elem_of_In|].
  by apply per_symbol_day.
Qed.

Lemma insert_or_ignore_NoDup now th tbl sc :
  NoDup (ta_key <$> tbl) → NoDup (ta_key <$> insert_or_ignore now th tbl sc).
Proof.
  intros Hnd.
  destruct (insert_or_ignore_cases now th tbl sc) as [->|(r & -> & _ & Hni)];
    [done|].
  rewrite fmap_snoc. apply NoDup_app. split; [done|]. split.
  - by intros k Hk ->%list_elem_of_singleton.
  - apply NoDup_singleton.
Qed.

Lemma insert_or_ignore_prefix now th tbl sc :
  tbl `prefix_of` insert_or_ignore now th tbl sc.
Proof.
  destruct (insert_or_ignore_cases now th tbl sc) as [->|(r & -> & _)].
  - done.
  - by apply prefix_app_r.
Qed.

Lemma foldl_insert_or_ignore now th spikes : ∀ tbl,
  NoDup (ta_key <$> tbl) →
  NoDup (ta_key <$> foldl (insert_or_ignore now th) tbl spikes)
  ∧ tbl `prefix_of` foldl (insert_or_ignore now th) tbl spikes.
Proof.
  induction spikes as [|sc spikes IH]; intros tbl Hnd; [done|].
  cbn [foldl].
  destruct (IH (insert_or_ignore now th tbl sc)) as [Hnd' Hpre];
    [by apply insert_or_ignore_NoDup|].
  split; [done|].
  etrans; [apply insert_or_ignore_prefix|exact Hpre].
Qed.

Lemma filter_key_absent {X K} `{EqDecision K} (f : X → K) (l : list X) k :
  k ∉ f <$> l → filter (fun r' => f r' = k) l = [].
Proof.
  induction l as [|x l IH]; intros Hni; [done|].
  rewrite fmap_cons, not_elem_of_cons in Hni. destruct Hni as [Hne Hni].
  rewrite filter_cons, decide_False by congruence. by apply IH.
Qed.

Lemma filter_key_NoDup {X K} `{EqDecision K} (f : X → K) (l : list X) r :
  NoDup (f <$> l) → r ∈ l → filter (fun r' => f r' = f r) l = [r].
Proof.
  induction l as [|x l IH]; intros Hnd Hr; [by apply elem_of_nil in Hr|].
  rewrite fmap_cons in Hnd. apply NoDup_cons in Hnd as [Hni Hnd].
  rewrite filter_cons. apply elem_of_cons in Hr as [->|Hr].
  - rewrite decide_True by done. f_equal. by apply filter_key_absent.
  - rewrite decide_False; [by apply IH|].
    intros Hk. apply Hni. rewrite Hk. by apply list_elem_of_fmap_2.
Qed.

(** Under a uniqueness constraint that covers (symbol, day), which no
    source declares, a table with at most one row per (symbol, day) stays
    so under [update_trend_alerts]; the rows it had are kept as they were,
    and a symbol alerted today keeps that one row and gets no second one. *)
Theorem update_trend_alerts_one_per_day now th d :
  NoDup (ta_key <$> trend_alerts d) →
  let d' := update_trend_alerts now th d in
  NoDup (ta_key <$> trend_alerts d')
  ∧ trend_alerts d `prefix_of` trend_alerts d'
  ∧ ∀ symbol r,
      r ∈ trend_alerts d → ta_key r = (symbol, DATE now) →
      filter (fun r' => ta_key r' = (symbol, DATE now)) (trend_alerts d') = [r].
Proof.
  intros Hnd d'. subst d'. unfold Aggregator.update_trend_alerts.
  cbn [trend_alerts set_trend_alerts].
  destruct (foldl_insert_or_ignore now th (select_spikes now th d)
              (trend_alerts d) Hnd) as [Hnd' Hpre].
  split; [done|]. split; [done|].
  intros symbol r Hr Hk. rewrite <- Hk.
  apply filter_key_NoDup; [done|].
  destruct Hpre as [new ->]. apply elem_of_app. by left.
Qed.

End TrendAlertFacts.

Lemma same_symbol_day_covers r r' :
  Aggregator.ta_key r = Aggregator.ta_key r' → Aggregator.same_symbol_day r r' = true.
Proof.
  unfold Aggregator.ta_key, Aggregator.same_symbol_day. intros [= Hs Hd].
  by apply bool_decide_eq_true.
Qed.

(** AAPL was alerted this morning; in the evening AAPL and TSLA are above the
    threshold and GME is below it: TSLA gets its alert, AAPL keeps the
    morning's. *)
Lemma update_trend_alerts_one_per_day_witness :
  let now := {| Aggregator.ts_date := "2025-08-20"; Aggregator.ts_time := "21:15:00" |} in
  let morning := {| Aggregator.ts_date := "2025-08-20"; Aggregator.ts_time := "08:00:00" |} in
  let old :=
    Aggregator.new_alert morning 10 [] "AAPL" 10 in
  let d :=
    {| Aggregator.posts := ∅; Aggregator.comments := ∅; Aggregator.mentions := [];
       Aggregator.daily_stats :=
         [ Aggregator.Build_daily_stat 1 "AAPL" "2025-08-20" 12 7 5 4;
           Aggregator.Build_daily_stat 2 "GME" "2025-08-20" 3 3 0 1;
           Aggregator.Build_daily_stat 3 "TSLA" "2025-08-20" 15 5 10 9 ];
       Aggregator.trend_alerts := [old] |} in
  let d' := Aggregator.update_trend_alerts Aggregator.same_symbol_day now 10 d in
  Aggregator.trend_alerts d' = [old; Aggregator.new_alert now 10 [old] "TSLA" 15]
  ∧ filter (fun r' => Aggregator.ta_key r' = ("AAPL", "2025-08-20"))
           (Aggregator.trend_alerts d') = [old].
Proof.
  intros now morning old d d'. split; [vm_compute; reflexivity|].
  assert (Hnd : NoDup (Aggregator.ta_key <$> Aggregator.trend_alerts d)).
  { cbn. apply NoDup_singleton. }
  destruct (update_trend_alerts_one_per_day Aggregator.same_symbol_day
              same_symbol_day_covers now 10%Z d Hnd) as (_ & _ & H).
  apply (H "AAPL" old); [left|reflexivity].
Defined.

(** Without a uniqueness constraint on [trend_alerts] nothing is ignored:
    each run adds a row for every symbol above the threshold. *)
Lemma update_trend_alerts_unconstrained :
  let now := {| Aggregator.ts_date := "2025-08-20"; Aggregator.ts_time := "21:15:00" |} in
  let d :=
    {| Aggregator.posts := ∅; Aggregator.comments := ∅; Aggregator.mentions := [];
       Aggregator.daily_stats := [ Aggregator.Build_daily_stat 1 "AAPL" "2025-08-20" 12 7 5 4 ];
       Aggregator.trend_alerts := [] |} in
  let run := Aggregator.update_trend_alerts Aggregator.no_constraint now 10 in
  Aggregator.ta_key <$> Aggregator.trend_alerts (run (run d))
  = [("AAPL", "2025-08-20"); ("AAPL", "2025-08-20")].
Proof. vm_compute. reflexivity. Qed.

Section TrendAlertPrimaryKey.
Import Aggregator.
Local Open Scope Z_scope.

Lemma next_ta_id_fresh tbl r : r ∈ tbl → ta_id r < next_ta_id tbl.
Proof.
  unfold next_ta_id. induction tbl as [|x tbl IH]; [by intros ?%elem_of_nil|].
  rewrite fmap_cons. cbn [foldr].
  intros [->|Hr]%elem_of_cons; [lia|]. specialize (IH Hr). lia.
Qed.

(** The primary key never rejects the new row: its id is fresh. *)
Lemma insert_or_ignore_primary_key now th tbl sc :
  insert_or_ignore primary_key_id now th tbl sc
  = tbl ++ [new_alert now th tbl sc.1 sc.2].
Proof.
  unfold insert_or_ignore.
  destruct (existsb _ tbl) eqn:He; [|done].
  apply existsb_exists in He as (r & Hr & Hc).
  apply list_elem_of_In in Hr. apply next_ta_id_fresh in Hr.
  unfold primary_key_id in Hc. apply bool_decide_eq_true in Hc.
  cbn [new_alert ta_id] in Hc. lia.
Qed.

(** With the primary key as the only constraint every run appends an alert
    for every symbol above the threshold. *)
Lemma update_trend_alerts_appends now th (d : db) :
  ta_key <$> trend_alerts (update_trend_alerts primary_key_id now th d)
  = (ta_key <$> trend_alerts d)
    ++ ((fun sc => (sc.1, DATE now)) <$> select_spikes now th d).
Proof.
  unfold update_trend_alerts. cbn [set_trend_alerts trend_alerts].
  generalize (trend_alerts d).
  induction (select_spikes now th d) as [|sc spikes IH]; intros tbl.
  - by rewrite app_nil_r.
  - cbn [foldl]. rewrite IH, insert_or_ignore_primary_key.
    rewrite fmap_app, <- app_assoc. done.
Qed.

End TrendAlertPrimaryKey.


(** ** The extractor on whole texts *)

Section ExtractorTexts.
Import PyStr PyMore TickerRe Extractor.

Lemma upper_char_upper c : upper_char (upper_char c) = upper_char c.
Proof. destruct c as [[] [] [] [] [] [] [] []]; reflexivity. Qed.

Lemma upper_char_lower c : upper_char (lower_char c) = upper_char c.
Proof. destruct c as [[] [] [] [] [] [] [] []]; reflexivity. Qed.

Lemma upper_upper s : upper (upper s) = upper s.
Proof.
  induction s as [|c s IH]; [done|]. cbn [upper]. by rewrite upper_char_upper, IH.
Qed.

Lemma upper_lower s : upper (lower s) = upper s.
Proof.
  induction s as [|c s IH]; [done|]. cbn [upper lower].
  by rewrite upper_char_lower, IH.
Qed.

Lemma upper_append a b : upper (a +:+ b) = upper a +:+ upper b.
Proof.
  induction a as [|c a IH]; [done|].
  rewrite append_cons. cbn [upper]. by rewrite IH, append_cons.
Qed.

Lemma upper_char_AZ c : is_AZ c = true → upper_char c = c.
Proof. destruct c as [[] [] [] [] [] [] [] []]; done. Qed.

Lemma upper_AZ s : all_chars is_AZ s = true → upper s = s.
Proof.
  induction s as [|c s IH]; [done|]. cbn [all_chars upper].
  intros [Hc Hs]%andb_true_iff. by rewrite (upper_char_AZ c Hc), IH.
Qed.

Lemma upper_char_not_word c : is_word c = false → upper_char c = c.
Proof. destruct c as [[] [] [] [] [] [] [] []]; done. Qed.

Lemma words_nil_first c s : words (String c s) = [] → is_word c = false.
Proof.
  cbn [words]. destruct (is_word c); [|done].
  destruct (first_char s), (words s); try done. by destruct (is_word a).
Qed.

(** A character outside [\w] ends the words before it. *)
Lemma words_sep a : ∀ c b,
  is_word c = false → words (a +:+ String c b) = words a ++ words b.
Proof.
  induction a as [|x a IH]; intros c b Hc.
  - rewrite append_nil. cbn [words]. by rewrite Hc.
  - rewrite append_cons. cbn [words]. destruct (is_word x) eqn:Hx; [|by apply IH].
    rewrite (IH c b Hc). destruct a as [|y a].
    + rewrite append_nil. cbn [first_char words app]. rewrite Hc.
      by destruct (words b).
    + rewrite append_cons. cbn [first_char].
      destruct (words (String y a)) as [|w ws] eqn:Hw.
      * apply words_nil_first in Hw. rewrite Hw. cbn [app].
        by destruct (words b).
      * cbn [app]. by destruct (is_word y).
Qed.

Lemma candidates_sep a c b :
  is_word c = false →
  candidates (a +:+ String c b) = candidates a ++ candidates b.
Proof.
  intros Hc. rewrite !candidates_words, upper_append. cbn [upper].
  rewrite (upper_char_not_word c Hc), words_sep by done.
  by rewrite filter_app.
Qed.

(** The words of a text that is one word. *)
Lemma words_one c s :
  all_chars is_word (String c s) = true → words (String c s) = [String c s].
Proof.
  intros Hw. pose proof Hw as Hw'. cbn [all_chars] in Hw'.
  apply andb_true_iff in Hw' as [Hc _].
  rewrite (words_span c s Hc).
  replace (String c s) with (String c s +:+ "") at 1 2
    by (clear; induction (String c s) as [|x u IH]; [done|];
        by rewrite append_cons, IH).
  by rewrite span_word_unique.
Qed.

Lemma candidates_symbol sym :
  matches_AZ_1_5 sym = true → candidates sym = [sym].
Proof.
  intros Hm. pose proof (matches_AZ_1_5_all sym Hm) as HAZ.
  rewrite candidates_words, (upper_AZ sym HAZ).
  destruct sym as [|c s]; [done|].
  rewrite words_one by (by apply all_AZ_all_word).
  by rewrite filter_cons, decide_True.
Qed.

Lemma candidates_dollar_symbol sym :
  matches_AZ_1_5 sym = true → candidates (String "$" sym) = [sym].
Proof.
  intros Hm.
  change (String "$" sym) with ("" +:+ String "$" sym).
  rewrite candidates_sep by reflexivity. rewrite (candidates_symbol sym Hm).
  reflexivity.
Qed.

Lemma extract_mentions_sep a c b allowed :
  is_word c = false →
  extract_mentions (a +:+ String c b) allowed
  = extract_mentions a allowed ++ extract_mentions b allowed.
Proof.
  intros Hc. unfold extract_mentions. by rewrite candidates_sep, filter_app.
Qed.

(** X1: [extract_mentions] does not look at the letter case of the text:
    the text, its upper-case form and its lower-case form give the same
    mentions. *)
Theorem extract_mentions_case text allowed :
  extract_mentions (upper text) allowed = extract_mentions text allowed
  ∧ extract_mentions (lower text) allowed = extract_mentions text allowed.
Proof.
  unfold extract_mentions, candidates. by rewrite upper_upper, upper_lower.
Qed.

(** X2: the mentions of two texts joined by an ASCII character outside
    [\w] (a space, a line break, ASCII punctuation) are the mentions of the
    first followed by the mentions of the second. *)
Theorem extract_mentions_joined a c b allowed :
  is_ascii_char c = true →
  is_word c = false →
  extract_mentions (a +:+ String c b) allowed
  = extract_mentions a allowed ++ extract_mentions b allowed.
Proof.
  intros _. apply extract_mentions_sep.
Qed.

Lemma extract_mentions_joined_witness :
  extract_mentions ("Buy $AAPL" +:+ String "," "or TSLA!") {[ "AAPL"; "TSLA" ]}
  = extract_mentions "Buy $AAPL" {[ "AAPL"; "TSLA" ]}
    ++ extract_mentions "or TSLA!" {[ "AAPL"; "TSLA" ]}.
Proof. apply extract_mentions_joined; reflexivity. Defined.

(** X3: a whitelisted symbol of one to five capital letters that is not in
    [AMBIGUOUS] is reported where it stands between blanks, with or without
    a leading dollar sign and in any letter case. *)
Theorem extract_mentions_finds sym pre post allowed :
  matches_AZ_1_5 sym = true → sym ∈ allowed → sym ∉ AMBIGUOUS →
  extract_mentions (pre +:+ " " +:+ sym +:+ " " +:+ post) allowed
  = extract_mentions pre allowed ++ sym :: extract_mentions post allowed
  ∧ extract_mentions (pre +:+ " $" +:+ sym +:+ " " +:+ post) allowed
    = extract_mentions pre allowed ++ sym :: extract_mentions post allowed
  ∧ extract_mentions (pre +:+ " " +:+ lower sym +:+ " " +:+ post) allowed
    = extract_mentions pre allowed ++ sym :: extract_mentions post allowed.
Proof.
  intros Hm Hin Hna.
  assert (Hone : ∀ t, candidates t = [sym] → extract_mentions t allowed = [sym]).
  { intros t Ht. unfold extract_mentions. rewrite Ht.
    by rewrite filter_cons, decide_True. }
  assert (Hmid : ∀ t, candidates t = [sym] →
            extract_mentions (pre +:+ " " +:+ t +:+ " " +:+ post) allowed
            = extract_mentions pre allowed ++ sym :: extract_mentions post allowed).
  { intros t Ht.
    change (pre +:+ " " +:+ t +:+ " " +:+ post)
      with (pre +:+ String " " (t +:+ String " " post)).
    rewrite !extract_mentions_sep by reflexivity.
    by rewrite (Hone t Ht). }
  split; [|split].
  - apply Hmid. by apply candidates_symbol.
  - change (pre +:+ " $" +:+ sym +:+ " " +:+ post)
      with (pre +:+ " " +:+ String "$" sym +:+ " " +:+ post).
    apply Hmid. by apply candidates_dollar_symbol.
  - apply Hmid. unfold candidates. rewrite upper_lower.
    by apply candidates_symbol.
Qed.
End ExtractorTexts.

Section ExtractorTextsExamples.
Import PyStr TickerRe Extractor.

Lemma extract_mentions_finds_witness :
  extract_mentions ("buy" +:+ " " +:+ "GME" +:+ " " +:+ "now") {[ "GME"; "NOW" ]}
  = extract_mentions "buy" {[ "GME"; "NOW" ]}
    ++ "GME" :: extract_mentions "now" {[ "GME"; "NOW" ]}
  ∧ extract_mentions ("buy" +:+ " $" +:+ "GME" +:+ " " +:+ "now") {[ "GME"; "NOW" ]}
    = extract_mentions "buy" {[ "GME"; "NOW" ]}
      ++ "GME" :: extract_mentions "now" {[ "GME"; "NOW" ]}
  ∧ extract_mentions ("buy" +:+ " " +:+ lower "GME" +:+ " " +:+ "now") {[ "GME"; "NOW" ]}
    = extract_mentions "buy" {[ "GME"; "NOW" ]}
      ++ "GME" :: extract_mentions "now" {[ "GME"; "NOW" ]}.
Proof.
  apply (extract_mentions_finds "GME" "buy" "now" {[ "GME"; "NOW" ]}).
  - reflexivity.
  - apply (bool_decide_unpack _). vm_compute. exact I.
  - apply (bool_decide_unpack _). vm_compute. exact I.
Defined.

End ExtractorTextsExamples.

(** ** Normal forms of symbols *)

Section NormalForms.
Import PyStr PyMore Whitelist.

Lemma length_upper s : String.length (upper s) = String.length s.
Proof. induction s as [|c s IH]; [done|]. cbn. by rewrite IH. Qed.

Lemma is_space_upper_char c : is_space (upper_char c) = is_space c.
Proof. destruct c as [[] [] [] [] [] [] [] []]; reflexivity. Qed.

Lemma is_space_slash_for_dot c :
  is_space (if Ascii.eqb c "." then "/"%char else c) = is_space c.
Proof. destruct c as [[] [] [] [] [] [] [] []]; reflexivity. Qed.

Lemma lstrip_upper s : lstrip (upper s) = upper (lstrip s).
Proof.
  induction s as [|c s IH]; [done|]. cbn [upper lstrip].
  rewrite is_space_upper_char. by destruct (is_space c).
Qed.

Lemma lstrip_replace s : lstrip (replace "." "/" s) = replace "." "/" (lstrip s).
Proof.
  induction s as [|c s IH]; [done|]. cbn [replace lstrip].
  rewrite is_space_slash_for_dot. by destruct (is_space c).
Qed.

Lemma rstrip_upper s : rstrip (upper s) = upper (rstrip s).
Proof.
  induction s as [|c s IH]; [done|]. cbn [upper rstrip].
  rewrite IH, is_space_upper_char.
  destruct (rstrip s); cbn [upper]; [by destruct (is_space c)|done].
Qed.

Lemma rstrip_replace s : rstrip (replace "." "/" s) = replace "." "/" (rstrip s).
Proof.
  induction s as [|c s IH]; [done|]. cbn [replace rstrip].
  rewrite IH, is_space_slash_for_dot.
  destruct (rstrip s); cbn [replace]; [by destruct (is_space c)|done].
Qed.

Lemma rstrip_rstrip s : rstrip (rstrip s) = rstrip s.
Proof.
  induction s as [|c s IH]; [done|]. cbn [rstrip].
  destruct (rstrip s) as [|x r] eqn:Hr.
  - destruct (is_space c) eqn:Hc; [done|]. cbn [rstrip]. by rewrite Hc.
  - change (rstrip (String c (String x r)))
      with (match rstrip (String x r) with
            | EmptyString => if is_space c then EmptyString else String c EmptyString
            | r0 => String c r0
            end).
    by rewrite IH.
Qed.

(** Stripping on the right keeps a first character that is not blank. *)
Lemma lstrip_rstrip_lstrip s : lstrip (rstrip (lstrip s)) = rstrip (lstrip s).
Proof.
  induction s as [|c s IH]; [done|]. cbn [lstrip].
  destruct (is_space c) eqn:Hc; [exact IH|].
  cbn [rstrip]. destruct (rstrip s); rewrite ?Hc; cbn [lstrip]; by rewrite Hc.
Qed.

Lemma strip_strip s : strip (strip s) = strip s.
Proof. unfold strip. by rewrite lstrip_rstrip_lstrip, rstrip_rstrip. Qed.

Lemma strip_upper s : strip (upper s) = upper (strip s).
Proof. unfold strip. by rewrite lstrip_upper, rstrip_upper. Qed.

Lemma strip_replace s : strip (replace "." "/" s) = replace "." "/" (strip s).
Proof. unfold strip. by rewrite lstrip_replace, rstrip_replace. Qed.

Lemma upper_slash_for_dot c :
  (let r := fun c => if Ascii.eqb c "." then "/"%char else c in
   r (upper_char (r (upper_char c))) = r (upper_char c)).
Proof. destruct c as [[] [] [] [] [] [] [] []]; reflexivity. Qed.

Lemma replace_upper_twice s :
  replace "." "/" (upper (replace "." "/" (upper s))) = replace "." "/" (upper s).
Proof.
  induction s as [|c s IH]; [done|]. cbn [upper replace].
  rewrite IH. f_equal. apply upper_slash_for_dot.
Qed.

(** A normalised symbol is its own normal form. *)
Lemma normalize_normalize s : normalize (normalize s) = normalize s.
Proof.
  unfold normalize.
  by rewrite strip_replace, strip_upper, strip_strip, replace_upper_twice.
Qed.

Lemma upper_char_not_az c : is_az (upper_char c) = false.
Proof. destruct c as [[] [] [] [] [] [] [] []]; reflexivity. Qed.

Lemma normalize_no_lower s : no_lower (normalize s) = true.
Proof.
  unfold normalize, no_lower. induction (strip s) as [|c u IH]; [done|].
  cbn [upper replace all_chars]. rewrite IH, andb_true_r.
  pose proof (upper_char_not_az c) as Hc.
  destruct (Ascii.eqb (upper_char c) "."); [done|]. by rewrite Hc.
Qed.

Lemma normalize_no_dot s : contains "." (normalize s) = false.
Proof.
  unfold normalize. induction (upper (strip s)) as [|c u IH]; [done|].
  cbn [replace contains]. rewrite IH, orb_false_r.
  destruct (Ascii.eqb_spec c "."); [done|]. by apply Ascii.eqb_neq.
Qed.

Lemma isalpha_no_lower_AZ s :
  isalpha s = true → no_lower s = true → all_chars is_AZ s = true.
Proof.
  unfold isalpha, no_lower. destruct s as [|c0 s0]; [done|].
  generalize (String c0 s0). clear. intros s.
  induction s as [|c s IH]; [done|]. cbn [all_chars].
  intros [Hc Hs]%andb_true_iff [Hn Hns]%andb_true_iff.
  rewrite IH by done. destruct (is_AZ c); [done|].
  cbn in Hc. rewrite Hc in Hn. done.
Qed.

Lemma AZ_isalpha c s : all_chars is_AZ (String c s) = true → isalpha (String c s) = true.
Proof.
  unfold isalpha. generalize (String c s). clear. intros s.
  induction s as [|c s IH]; [done|]. cbn [all_chars].
  intros [Hc Hs]%andb_true_iff. by rewrite Hc, IH.
Qed.

Lemma AZ_not_space c : is_AZ c = true → is_space c = false.
Proof. destruct c as [[] [] [] [] [] [] [] []]; done. Qed.

Lemma rstrip_AZ s : all_chars is_AZ s = true → rstrip s = s.
Proof.
  induction s as [|c s IH]; [done|]. cbn [all_chars rstrip].
  intros [Hc Hs]%andb_true_iff. rewrite IH by done.
  destruct s; [|done]. by rewrite (AZ_not_space c Hc).
Qed.

Lemma strip_AZ s : all_chars is_AZ s = true → strip s = s.
Proof.
  intros Hs. unfold strip. destruct s as [|c s]; [done|].
  pose proof Hs as Hs'. cbn [all_chars] in Hs'.
  apply andb_true_iff in Hs' as [Hc _].
  cbn [lstrip]. rewrite (AZ_not_space c Hc). by apply rstrip_AZ.
Qed.

Lemma upper_char_fix_AZ c : is_AZ c = true → upper_char c = c.
Proof. destruct c as [[] [] [] [] [] [] [] []]; done. Qed.

Lemma upper_fix_AZ s : all_chars is_AZ s = true → upper s = s.
Proof.
  induction s as [|c s IH]; [done|]. cbn [all_chars upper].
  intros [Hc Hs]%andb_true_iff. by rewrite (upper_char_fix_AZ c Hc), IH.
Qed.

Lemma replace_AZ s : all_chars is_AZ s = true → replace "." "/" s = s.
Proof.
  induction s as [|c s IH]; [done|]. cbn [all_chars replace].
  intros [Hc Hs]%andb_true_iff. rewrite IH by done.
  by rewrite (AZ_not_char "." c).
Qed.

Lemma normalize_AZ s : all_chars is_AZ s = true → normalize s = s.
Proof.
  intros Hs. unfold normalize. by rewrite strip_AZ, upper_fix_AZ, replace_AZ.
Qed.

Lemma upper_char_letter c :
  is_AZ c || is_az c = true → is_AZ (upper_char c) = true.
Proof. destruct c as [[] [] [] [] [] [] [] []]; done. Qed.

Lemma upper_letters s :
  all_chars (fun c => is_AZ c || is_az c) s = true → all_chars is_AZ (upper s) = true.
Proof.
  induction s as [|c s IH]; [done|]. cbn [all_chars upper].
  intros [Hc Hs]%andb_true_iff. by rewrite (upper_char_letter c Hc), IH.
Qed.

Lemma upper_isalpha s :
  isalpha s = true → all_chars is_AZ (upper s) = true.
Proof. unfold isalpha. destruct s; [done|]. apply upper_letters. Qed.

Lemma fullmatch_AZ_spec lo hi s :
  fullmatch_AZ lo hi s = true
  ↔ (lo ≤ String.length s ≤ hi)%nat ∧ all_chars is_AZ s = true.
Proof.
  unfold fullmatch_AZ. rewrite !andb_true_iff, !Nat.leb_le. tauto.
Qed.

End NormalForms.

(** ** What [clean] lets through *)

Section CleanOutput.
Import PyStr PyMore Whitelist.
Variable zipf_frequency : string → string → Z.

Local Abbreviation accepted := (accepted zipf_frequency).
Local Abbreviation clean := (clean zipf_frequency).
Local Abbreviation _looks_like_word := (_looks_like_word zipf_frequency).

Lemma partition_spec a s :
  contains a s = true →
  s = (partition a s).1.1 +:+ String a (partition a s).2.
Proof.
  induction s as [|c s IH]; [done|]. cbn [contains partition].
  destruct (Ascii.eqb_spec c a) as [->|Hne]; [done|].
  cbn [orb]. intros H. specialize (IH H).
  destruct (partition a s) as [[l m] r]. cbn [fst snd] in *.
  by rewrite append_cons, <- IH.
Qed.

Lemma MANUAL_STOP_shape s :
  s ∈ MANUAL_STOP → (2 ≤ String.length s)%nat.
Proof.
  unfold MANUAL_STOP. rewrite elem_of_list_to_set, !elem_of_cons, elem_of_nil.
  intros H. repeat (destruct H as [->|H]; [cbn; lia|]). destruct H.
Qed.

Lemma KEEP_SINGLE_AZ s : s ∈ KEEP_SINGLE → fullmatch_AZ 1 1 s = true.
Proof.
  intros [-> | [-> | [-> | ->]]]%KEEP_SINGLE_elems; reflexivity.
Qed.

(** What [accepted] computes on a symbol without a slash. *)
Lemma accepted_plain sym :
  contains "/" sym = false →
  accepted sym
  = if (String.length sym =? 1)%nat then bool_decide (sym ∈ KEEP_SINGLE)
    else (2 <=? String.length sym)%nat && (String.length sym <=? 5)%nat
         && isalpha sym
         && negb (bool_decide (sym ∈ MANUAL_STOP) || _looks_like_word sym).
Proof.
  intros Hs. unfold Whitelist.accepted. rewrite Hs, orb_false_r.
  destruct (String.length sym =? 1)%nat; [done|].
  destruct ((2 <=? String.length sym)%nat && (String.length sym <=? 5)%nat);
    cbn [negb andb]; [|done].
  destruct (isalpha sym); cbn [negb andb]; [|done].
  by destruct (bool_decide (sym ∈ MANUAL_STOP) || _looks_like_word sym).
Qed.

Lemma length_one_count a s :
  String.length s = 1%nat → contains a s = true → count a s = 1%nat.
Proof.
  destruct s as [|c [|c' s]]; try done. cbn.
  by destruct (Ascii.eqb c a).
Qed.

Lemma accepted_not_stop sym : accepted sym = true → sym ∉ MANUAL_STOP.
Proof.
  intros Ha Hin. pose proof (MANUAL_STOP_shape sym Hin) as Hlen.
  pose proof (MANUAL_STOP_no_slash sym Hin) as Hs.
  rewrite (accepted_plain sym Hs) in Ha.
  destruct (Nat.eqb_spec (String.length sym) 1); [lia|].
  rewrite (bool_decide_eq_true_2 _ Hin), orb_true_l, andb_false_r in Ha. done.
Qed.

Lemma accepted_length sym :
  accepted sym = true → (1 ≤ String.length sym ≤ 6)%nat.
Proof.
  intros Ha. destruct (contains "/" sym) eqn:Hs.
  - unfold Whitelist.accepted in Ha. rewrite Hs in Ha.
    destruct (Nat.eqb_spec (String.length sym) 1); [lia|].
    pose proof (partition_spec "/" sym Hs) as Hp.
    destruct (partition "/" sym) as [[l m] r]. cbn [fst snd] in Hp.
    destruct ((1 <=? String.length l)%nat && (String.length l <=? 4)%nat
              && (String.length r =? 1)%nat) eqn:Hlen; [|done].
    apply andb_true_iff in Hlen as [[H1 H4]%andb_true_iff Hr].
    apply Nat.leb_le in H1, H4. apply Nat.eqb_eq in Hr.
    rewrite Hp, length_append. cbn [String.length]. lia.
  - rewrite (accepted_plain sym Hs) in Ha.
    destruct (Nat.eqb_spec (String.length sym) 1); [lia|].
    apply andb_true_iff in Ha as [[[H2 H5]%andb_true_iff _]%andb_true_iff _].
    apply Nat.leb_le in H2, H5. lia.
Qed.

Lemma accepted_plain_AZ sym :
  accepted sym = true → contains "/" sym = false → no_lower sym = true →
  fullmatch_AZ 1 5 sym = true.
Proof.
  intros Ha Hs Hnl. rewrite (accepted_plain sym Hs) in Ha.
  destruct (Nat.eqb_spec (String.length sym) 1) as [Hone|Hne].
  - apply bool_decide_eq_true in Ha. apply KEEP_SINGLE_AZ in Ha.
    apply fullmatch_AZ_spec in Ha as [Hl HAZ]. apply fullmatch_AZ_spec.
    split; [lia|done].
  - apply andb_true_iff in Ha as [[[H2 H5]%andb_true_iff Hal]%andb_true_iff _].
    apply Nat.leb_le in H2, H5. apply fullmatch_AZ_spec.
    split; [lia|]. by apply isalpha_no_lower_AZ.
Qed.

Lemma accepted_long_not_word sym :
  accepted sym = true → (2 ≤ String.length sym)%nat →
  _looks_like_word sym = false.
Proof.
  intros Ha Hlen. unfold Whitelist.accepted in Ha.
  destruct (Nat.eqb_spec (String.length sym) 1); [lia|].
  destruct (if contains "/" sym then _ else _); [done|].
  destruct (negb (isalpha sym || contains "/" sym)); [done|].
  destruct (bool_decide (sym ∈ MANUAL_STOP) || _looks_like_word sym) eqn:Hw;
    [done|].
  by apply orb_false_iff in Hw as [_ ?].
Qed.

(** X4: a raw symbol whose normal form is one character long is in the
    output of [clean] exactly when that character is one of F, T, O, K. *)
Theorem clean_single_letter raw symbol :
  symbol ∈ raw →
  String.length (normalize symbol) = 1%nat →
  (normalize symbol ∈ clean raw) ↔ (normalize symbol ∈ KEEP_SINGLE).
Proof.
  intros Hraw Hlen. rewrite elem_of_clean.
  assert (Hacc : accepted (normalize symbol)
                 = bool_decide (normalize symbol ∈ KEEP_SINGLE)).
  { unfold Whitelist.accepted. by rewrite Hlen. }
  rewrite Hacc. split.
  - intros (_ & _ & _ & H). by apply bool_decide_eq_true in H.
  - intros H. exists symbol. split; [done|]. split; [done|].
    by apply bool_decide_eq_true.
Qed.

(** X5: a raw symbol whose normal form has no slash and is not one
    character long is in the output of [clean] exactly when it has two to
    five characters, all letters, is not in [MANUAL_STOP] and is not rated a
    common word. *)
Theorem clean_plain_symbol raw symbol :
  symbol ∈ raw →
  contains "/" (normalize symbol) = false →
  String.length (normalize symbol) ≠ 1%nat →
  (normalize symbol ∈ clean raw)
  ↔ (2 ≤ String.length (normalize symbol) ≤ 5)%nat
    ∧ isalpha (normalize symbol) = true
    ∧ (normalize symbol ∉ MANUAL_STOP)
    ∧ _looks_like_word (normalize symbol) = false.
Proof.
  intros Hraw Hs Hlen. rewrite elem_of_clean.
  assert (Hacc : accepted (normalize symbol) = true
                 ↔ (2 ≤ String.length (normalize symbol) ≤ 5)%nat
                   ∧ isalpha (normalize symbol) = true
                   ∧ (normalize symbol ∉ MANUAL_STOP)
                   ∧ _looks_like_word (normalize symbol) = false).
  { rewrite (accepted_plain _ Hs).
    destruct (Nat.eqb_spec (String.length (normalize symbol)) 1); [done|].
    rewrite !andb_true_iff, negb_true_iff, orb_false_iff, !Nat.leb_le.
    rewrite bool_decide_eq_false. tauto. }
  rewrite <- Hacc. split.
  - by intros (_ & _ & _ & H).
  - intros H. by exists symbol.
Qed.

(** X6: for raw symbols in ASCII, every symbol in the output of [clean]
    has one to six characters, no small letter and no dot, is not in
    [MANUAL_STOP], is not rated a common word unless it is a single letter,
    and consists of one to five capital letters unless it has a slash. *)
Theorem clean_output_shape raw sym :
  Forall (fun symbol => is_ascii symbol = true) raw →
  sym ∈ clean raw →
  (1 ≤ String.length sym ≤ 6)%nat
  ∧ no_lower sym = true
  ∧ contains "." sym = false
  ∧ (sym ∉ MANUAL_STOP)
  ∧ ((2 ≤ String.length sym)%nat → _looks_like_word sym = false)
  ∧ (contains "/" sym = false → fullmatch_AZ 1 5 sym = true).
Proof.
  intros _. rewrite elem_of_clean. intros (symbol & _ & <- & Ha).
  split; [by apply accepted_length|].
  split; [apply normalize_no_lower|].
  split; [apply normalize_no_dot|].
  split; [by apply accepted_not_stop|].
  split; [by apply accepted_long_not_word|].
  intros Hs. apply accepted_plain_AZ; [done|done|apply normalize_no_lower].
Qed.

Lemma clean_app raw1 raw2 : clean (raw1 ++ raw2) = clean raw1 ∪ clean raw2.
Proof.
  apply set_eq. intros x. rewrite elem_of_union, !elem_of_clean. split.
  - intros (s & [?|?]%elem_of_app & ? & ?); [left|right]; by exists s.
  - intros [(s & ? & ? & ?)|(s & ? & ? & ?)]; exists s;
      (split; [apply elem_of_app; auto|done]).
Qed.

Lemma clean_fixed raw sym : sym ∈ clean raw → normalize sym = sym.
Proof.
  rewrite elem_of_clean. intros (symbol & _ & <- & _).
  apply normalize_normalize.
Qed.

Lemma clean_elements (syms : gset string) x :
  (x ∈ clean (elements syms))
  ↔ ∃ symbol, symbol ∈ syms ∧ normalize symbol = x ∧ accepted x = true.
Proof.
  rewrite elem_of_clean. by setoid_rewrite elem_of_elements.
Qed.

(** X7: cleaning a merged list of raw symbols gives the union of what
    cleaning each part gives; the output depends on the raw symbols as a
    set, so the order of the sources does not matter. *)
Theorem clean_merge raw1 raw2 :
  clean (raw1 ++ raw2) = clean raw1 ∪ clean raw2
  ∧ clean (raw2 ++ raw1) = clean (raw1 ++ raw2).
Proof.
  split; [apply clean_app|]. rewrite !clean_app. apply set_eq. intros x.
  rewrite !elem_of_union. tauto.
Qed.

(** X8: [clean] changes nothing when it is run on its own output. *)
Theorem clean_idempotent raw :
  clean (elements (clean raw)) = clean raw.
Proof.
  apply set_eq. intros x. rewrite clean_elements. split.
  - intros (symbol & Hin & <- & _). by rewrite (clean_fixed raw symbol Hin).
  - intros Hx. exists x. split; [done|]. split; [by apply (clean_fixed raw)|].
    apply elem_of_clean in Hx as (? & _ & _ & ?). done.
Qed.

End CleanOutput.

(** ** The crypto source and the file loader *)

Section CryptoAndLoader.
Import PyStr PyMore Whitelist Build Crawler.
Variable zipf_frequency : string → string → Z.

Lemma elem_of_crypto_symbols data x :
  (x ∈ crypto_symbols data)
  ↔ ∃ s, s ∈ data ∧ x = upper s ∧ isalpha s = true
         ∧ (2 ≤ String.length s ≤ 5)%nat.
Proof.
  unfold crypto_symbols. rewrite elem_of_list_to_set, list_elem_of_fmap.
  setoid_rewrite list_elem_of_filter. split.
  - intros (s & -> & [? ?] & ?). by exists s.
  - intros (s & ? & -> & ? & ?). by exists s.
Qed.

Lemma crypto_symbols_AZ data x :
  x ∈ crypto_symbols data → fullmatch_AZ 2 5 x = true.
Proof.
  intros (s & _ & -> & Hal & Hlen)%elem_of_crypto_symbols.
  apply fullmatch_AZ_spec. rewrite length_upper. split; [done|].
  by apply upper_isalpha.
Qed.

Lemma accepted_AZ_2_5 x :
  fullmatch_AZ 2 5 x = true →
  accepted zipf_frequency x
  = negb (bool_decide (x ∈ MANUAL_STOP) || _looks_like_word zipf_frequency x).
Proof.
  intros [Hlen HAZ]%fullmatch_AZ_spec.
  rewrite accepted_plain by (by apply all_AZ_not_contains).
  destruct (Nat.eqb_spec (String.length x) 1); [lia|].
  destruct x as [|c s]; [cbn in Hlen; lia|].
  rewrite (AZ_isalpha c s HAZ).
  destruct Hlen as [H2 H5]. apply Nat.leb_le in H2, H5. by rewrite H2, H5.
Qed.

(** X9: for coin symbols in ASCII, [fetch_crypto] keeps only the symbols
    of two to five letters and returns them as capital letters; of these
    [clean] drops exactly the ones in [MANUAL_STOP] and the ones rated a
    common word. *)
Theorem crypto_symbols_cleaned data x :
  Forall (fun symbol => is_ascii symbol = true) data →
  (x ∈ crypto_symbols data → fullmatch_AZ 2 5 x = true)
  ∧ ((x ∈ clean zipf_frequency (elements (crypto_symbols data)))
     ↔ (x ∈ crypto_symbols data) ∧ (x ∉ MANUAL_STOP)
       ∧ _looks_like_word zipf_frequency x = false).
Proof.
  intros _. split; [apply crypto_symbols_AZ|].
  rewrite clean_elements. split.
  - intros (s & Hs & <- & Ha).
    pose proof (crypto_symbols_AZ data s Hs) as Hm.
    pose proof Hm as [_ HAZ]%fullmatch_AZ_spec.
    rewrite (normalize_AZ s HAZ) in Ha |- *.
    rewrite (accepted_AZ_2_5 s Hm), negb_true_iff, orb_false_iff in Ha.
    destruct Ha as [Hst Hw]. apply bool_decide_eq_false in Hst. done.
  - intros (Hx & Hst & Hw).
    pose proof (crypto_symbols_AZ data x Hx) as Hm.
    pose proof Hm as [_ HAZ]%fullmatch_AZ_spec.
    exists x. split; [done|]. split; [by apply normalize_AZ|].
    rewrite (accepted_AZ_2_5 x Hm), negb_true_iff, orb_false_iff.
    split; [by apply bool_decide_eq_false|done].
Qed.

Lemma load_row_Some cell sym :
  load_row cell = Some sym
  ↔ upper (strip cell) = sym ∧ fullmatch_AZ 1 5 sym = true.
Proof.
  unfold load_row.
  assert (Hnl : no_lower (upper (strip cell)) = true).
  { unfold no_lower. induction (strip cell) as [|c u IH]; [done|].
    cbn [upper all_chars]. by rewrite upper_char_not_az, IH. }
  destruct ((0 <? String.length (upper (strip cell)))%nat
            && (String.length (upper (strip cell)) <=? 5)%nat
            && isalpha (upper (strip cell))) eqn:Hc.
  - apply andb_true_iff in Hc as [[H0 H5]%andb_true_iff Hal].
    apply Nat.ltb_lt in H0. apply Nat.leb_le in H5. split.
    + intros [= <-]. split; [done|]. apply fullmatch_AZ_spec.
      split; [lia|]. by apply isalpha_no_lower_AZ.
    + by intros [-> _].
  - split; [done|]. intros [<- [Hlen HAZ]%fullmatch_AZ_spec].
    destruct (upper (strip cell)) as [|c s] eqn:Hu; [cbn in Hlen; lia|].
    rewrite (AZ_isalpha c s HAZ), andb_true_r in Hc.
    apply andb_false_iff in Hc as [Hc|Hc].
    + apply Nat.ltb_ge in Hc. lia.
    + apply Nat.leb_gt in Hc. lia.
Qed.

Lemma elem_of_load cells : ∀ (symbols : gset string) sym,
  (sym ∈ foldl (fun symbols cell =>
                  match load_row cell with
                  | Some sym => symbols ∪ {[ sym ]}
                  | None => symbols
                  end) symbols cells)
  ↔ (sym ∈ symbols) ∨ ∃ cell, cell ∈ cells ∧ load_row cell = Some sym.
Proof.
  induction cells as [|x cells IH]; intros symbols sym; cbn [foldl].
  - split; [auto|]. intros [?|(? & []%elem_of_nil & _)]. done.
  - rewrite IH. destruct (load_row x) as [y|] eqn:Hx.
    + rewrite elem_of_union, elem_of_singleton. split.
      * intros [[?| ->]|(c & ? & ?)]; [by left|right|right].
        -- exists x. split; [left|done].
        -- exists c. split; [by right|done].
      * intros [?|(c & [-> | ?]%elem_of_cons & Hc)]; [by left; left| |].
        -- left; right. congruence.
        -- right. by exists c.
    + split.
      * intros [?|(c & ? & ?)]; [by left|right]. exists c. split; [by right|done].
      * intros [?|(c & [-> | ?]%elem_of_cons & Hc)]; [by left|congruence|].
        right. by exists c.
Qed.

(** X10: the outcomes of [load_ticker_white_list]: a missing file gives
    the empty set; a file on which the sniffer or the reader raises ends
    the call with that exception; and when the reader yields
    cells in ASCII, the loader returns the cells that, trimmed and
    upper-cased, consist of one to five capital letters, so every loaded
    symbol has the shape of a token candidate. *)
Theorem load_ticker_white_list_spec :
  load_ticker_file NoSuchPath = Some ∅
  ∧ load_ticker_file ReadRaises = None
  ∧ ∀ cells,
      Forall (fun cell => is_ascii cell = true) cells →
      ∃ symbols,
        load_ticker_file (FirstColumn cells) = Some symbols
        ∧ ∀ sym, (sym ∈ symbols)
                 ↔ ∃ cell, cell ∈ cells ∧ upper (strip cell) = sym
                           ∧ TickerRe.matches_AZ_1_5 sym = true.
Proof.
  split; [done|]. split; [done|]. intros cells _.
  exists (load_ticker_white_list (Some cells)). split; [done|]. intros sym.
  unfold load_ticker_white_list.
  rewrite elem_of_load, elem_of_empty. setoid_rewrite load_row_Some.
  unfold TickerRe.matches_AZ_1_5. split.
  - intros [[]|(c & ? & ? & ?)]. by exists c.
  - intros (c & ? & ? & ?). right. by exists c.
Qed.

Lemma contains_slash_upper u : contains "/" (upper u) = contains "/" u.
Proof.
  induction u as [|c u IH]; [done|]. cbn [upper contains]. rewrite IH.
  f_equal. clear. by destruct c as [[] [] [] [] [] [] [] []].
Qed.

Lemma contains_slash_rstrip u :
  contains "/" u = true → contains "/" (rstrip u) = true.
Proof.
  induction u as [|c u IH]; [done|]. cbn [contains rstrip].
  destruct (Ascii.eqb_spec c "/") as [->|Hne].
  - intros _. by destruct (rstrip u).
  - cbn [orb]. intros Hu. specialize (IH Hu).
    destruct (rstrip u) as [|x r]; [done|].
    change (contains "/" (String c (String x r)))
      with (Ascii.eqb c "/" || contains "/" (String x r)).
    by rewrite IH, orb_true_r.
Qed.

Lemma contains_slash_lstrip u :
  contains "/" u = true → contains "/" (lstrip u) = true.
Proof.
  induction u as [|c u IH]; [done|]. cbn [contains lstrip].
  destruct (is_space c) eqn:Hc; [|done].
  destruct (Ascii.eqb_spec c "/") as [->|Hne]; [done|]. exact IH.
Qed.

(** What the loader does with a symbol that [clean] let through. *)
Lemma load_row_clean raw sym :
  sym ∈ clean zipf_frequency raw →
  load_row sym = if contains "/" sym then None else Some sym.
Proof.
  intros Hin.
  assert (Hplain : contains "/" sym = false → fullmatch_AZ 1 5 sym = true).
  { apply (elem_of_clean zipf_frequency) in Hin as (symbol & _ & <- & Ha).
    intros Hs.
    apply (accepted_plain_AZ zipf_frequency); [done|done|apply normalize_no_lower]. }
  destruct (contains "/" sym) eqn:Hs.
  - destruct (load_row sym) as [y|] eqn:Hl; [|done].
    apply load_row_Some in Hl as [<- Hm].
    apply fullmatch_AZ_spec in Hm as [_ HAZ].
    apply (all_AZ_not_contains "/") in HAZ; [|done].
    rewrite contains_slash_upper in HAZ. unfold strip in HAZ.
    rewrite (contains_slash_rstrip _ (contains_slash_lstrip _ Hs)) in HAZ. done.
  - specialize (Hplain eq_refl). apply load_row_Some. split; [|done].
    apply fullmatch_AZ_spec in Hplain as [_ HAZ].
    by rewrite strip_AZ, upper_fix_AZ.
Qed.

(** X11: of the symbols that [clean] puts out, the loader of the crawler
    keeps those without a slash, each as it is, and drops those with a
    slash. *)
Theorem load_cleaned_symbols raw (cells : list string) :
  (∀ x, x ∈ cells ↔ x ∈ clean zipf_frequency raw) →
  load_ticker_white_list (Some cells)
  = filter (fun s => contains "/" s = false) (clean zipf_frequency raw).
Proof.
  intros Hcells. apply set_eq. intros x.
  unfold load_ticker_white_list.
  rewrite elem_of_load, elem_of_empty, elem_of_filter. split.
  - intros [[]|(c & Hc & Hl)]. apply Hcells in Hc.
    rewrite (load_row_clean raw c Hc) in Hl.
    destruct (contains "/" c) eqn:Hs; [done|]. injection Hl as <-. done.
  - intros [Hs Hx]. right. exists x. split; [by apply Hcells|].
    by rewrite (load_row_clean raw x Hx), Hs.
Qed.

End CryptoAndLoader.

Section CleanOutputExamples.
Import PyStr PyMore Whitelist Build Crawler.

Lemma clean_single_letter_witness :
  (normalize " f " ∈ clean (fun w lang => 0%Z) [" f "; "x"])
  ↔ (normalize " f " ∈ KEEP_SINGLE).
Proof.
  apply (clean_single_letter (fun w lang => 0%Z) [" f "; "x"] " f ").
  - left.
  - reflexivity.
Defined.

(** With the rating of ["buy"] above 4.0, ["aapl"] is kept. *)
Lemma clean_plain_symbol_witness :
  let zipf := fun (w lang : string) => if String.eqb w "buy" then 5%Z else 0%Z in
  (normalize "aapl" ∈ clean zipf ["buy"; "aapl"])
  ↔ (2 ≤ String.length (normalize "aapl") ≤ 5)%nat
    ∧ isalpha (normalize "aapl") = true
    ∧ (normalize "aapl" ∉ MANUAL_STOP)
    ∧ _looks_like_word zipf (normalize "aapl") = false.
Proof.
  intros zipf. apply (clean_plain_symbol zipf ["buy"; "aapl"] "aapl").
  - right. left.
  - reflexivity.
  - vm_compute. discriminate.
Defined.

Lemma clean_output_shape_witness :
  (1 ≤ String.length "BRK/B" ≤ 6)%nat
  ∧ no_lower "BRK/B" = true
  ∧ contains "." "BRK/B" = false
  ∧ ("BRK/B" ∉ MANUAL_STOP)
  ∧ ((2 ≤ String.length "BRK/B")%nat
     → _looks_like_word (fun w lang => 0%Z) "BRK/B" = false)
  ∧ (contains "/" "BRK/B" = false → fullmatch_AZ 1 5 "BRK/B" = true).
Proof.
  apply (clean_output_shape (fun w lang => 0%Z) ["aapl"; " brk.b "] "BRK/B").
  - apply (bool_decide_unpack _). vm_compute. exact I.
  - apply (bool_decide_unpack _). vm_compute. exact I.
Defined.

(** Of five coins BTC and USDT pass; LOVE is a stop word, X and 1INCH are
    dropped by the source. *)
Lemma crypto_symbols_cleaned_witness :
  ("BTC" ∈ crypto_symbols ["btc"; "usdt"; "x"; "love"; "1inch"]
   → fullmatch_AZ 2 5 "BTC" = true)
  ∧ (("BTC" ∈ clean (fun w lang => 0%Z)
                (elements (crypto_symbols ["btc"; "usdt"; "x"; "love"; "1inch"])))
     ↔ ("BTC" ∈ crypto_symbols ["btc"; "usdt"; "x"; "love"; "1inch"])
       ∧ ("BTC" ∉ MANUAL_STOP)
       ∧ _looks_like_word (fun w lang => 0%Z) "BTC" = false).
Proof.
  apply (crypto_symbols_cleaned (fun w lang => 0%Z)
           ["btc"; "usdt"; "x"; "love"; "1inch"] "BTC").
  apply (bool_decide_unpack _). vm_compute. exact I.
Defined.

(** The file written from ["aapl"] and ["brk.b"] gives the crawler AAPL
    only. *)
Lemma load_cleaned_symbols_witness :
  load_ticker_white_list (Some ["AAPL"; "BRK/B"])
  = filter (fun s => contains "/" s = false)
           (clean (fun w lang => 0%Z) ["aapl"; "brk.b"]).
Proof.
  apply (load_cleaned_symbols (fun w lang => 0%Z) ["aapl"; "brk.b"] ["AAPL"; "BRK/B"]).
  intros x.
  assert (clean (fun w lang => 0%Z) ["aapl"; "brk.b"] = {[ "AAPL"; "BRK/B" ]}) as ->.
  { apply (bool_decide_unpack _). vm_compute. exact I. }
  rewrite !elem_of_cons, elem_of_nil, elem_of_union, !elem_of_singleton. tauto.
Defined.

End CleanOutputExamples.

(** ** The whitelist file and the build *)

Section BuildFacts.
Import PyStr PyMore Whitelist Build.

#[local] Instance str_le_total : Total str_le.
Proof. intros a b. apply String.leb_total. Qed.

Lemma sorted_spec (symbols : gset string) :
  Sorted str_le (sorted symbols)
  ∧ NoDup (sorted symbols)
  ∧ (∀ s, s ∈ sorted symbols ↔ s ∈ symbols)
  ∧ length (sorted symbols) = size symbols.
Proof.
  unfold sorted.
  pose proof (merge_sort_Permutation str_le (elements symbols)) as Hp.
  split; [apply (Sorted_merge_sort str_le)|].
  split; [rewrite Hp; apply NoDup_elements|].
  split; [intros s; by rewrite Hp, elem_of_elements|].
  by rewrite Hp.
Qed.

(** X12: [write_csv] writes the header row and then one row per symbol, in
    ascending order and without a repetition. *)
Theorem write_csv_rows (symbols : gset string) :
  ∃ l, write_csv symbols = ["symbol"] :: ((fun s => [s]) <$> l)
       ∧ Sorted str_le l ∧ NoDup l
       ∧ (∀ s, s ∈ l ↔ s ∈ symbols)
       ∧ length (write_csv symbols) = S (size symbols).
Proof.
  destruct (sorted_spec symbols) as (Hs & Hnd & Hin & Hlen).
  exists (sorted symbols). split; [done|]. split; [done|]. split; [done|].
  split; [done|]. unfold write_csv. cbn [length]. by rewrite length_fmap, Hlen.
Qed.

Context {E : Type}.
Variable zipf_frequency : string → string → Z.
Variable yf : option (string → lookup).
Variable attribute_error : E.
Variable write_file : list (list string) → option E.

Local Abbreviation main := (@main E zipf_frequency yf attribute_error write_file).

(** X13: the build and its fetches.  When a fetch of a requested market
    raises, the build ends with the exception of the first one that does,
    whatever the later sources would give.  When every requested fetch
    returns, the build ends with the [AttributeError] of [clean] if the S&P
    500 table gave a NaN; else it hands the cleaned (and, when asked,
    verified) union of the returned sets to [write_csv] and ends with the
    error of the file system, if there is one.  So rows are written only
    when every requested fetch returned, and they are these rows. *)
Theorem main_all_or_nothing (src : sources) (a : args) :
  let rows :=
    write_csv
      (let symbols := clean zipf_frequency (elements (answers (requested src a))) in
       if verify a then verify_with_yf yf symbols else symbols) in
  (∀ e, first_raised (requested src a) = Some e → main src a = inl e)
  ∧ (first_raised (requested src a) = None →
     main src a
     = if holds_nan src a then inl attribute_error
       else match write_file rows with
            | Some e => inl e
            | None => inr rows
            end)
  ∧ (∀ written, main src a = inr written →
       written = rows
       ∧ first_raised (requested src a) = None
       ∧ holds_nan src a = false
       ∧ write_file rows = None).
Proof.
  cbn zeta. unfold Build.main, requested, answers, holds_nan.
  destruct src as [n s g c cr]. cbn [fetch_nasdaq fetch_sp500 fetch_germany
    fetch_china_adr fetch_crypto].
  destruct (bool_decide ("us" ∈ wanted a)),
           (bool_decide ("de" ∈ wanted a)),
           (bool_decide ("cn" ∈ wanted a)),
           (bool_decide ("crypto" ∈ wanted a)),
           n as [en|sn], s as [es|[ss [|]]], g as [eg|sg], c as [ec|sc],
           (cr (top_crypto a)) as [ecr|scr];
    cbn;
    (split; [|split]);
    try (intros e [= <-]; reflexivity);
    try (intros [=]);
    try reflexivity;
    try (intros written Hw;
         first [discriminate Hw
               |match type of Hw with
                | context [write_file ?r] =>
                    destruct (write_file r) eqn:Hwf;
                    [discriminate Hw|injection Hw as <-; done]
                end]).
Qed.

End BuildFacts.

(** ** The tables around the crawl *)

Section TableFacts.
Import PyStr PyMore Aggregator Crawler.

Lemma elem_of_fetch_known_tickers (tickers : gmap string ticker) k :
  k ∈ fetch_known_tickers tickers
  ↔ ∃ r, tickers !! k = Some r ∧ aktiv r = Some 1%Z.
Proof.
  unfold fetch_known_tickers. rewrite elem_of_dom. split.
  - intros [r [Hr Ha]%map_lookup_filter_Some]. by exists r.
  - intros (r & Hr & Ha). exists r. by apply map_lookup_filter_Some.
Qed.

Lemma insert_ticker_or_ignore_lookup tickers row k :
  insert_ticker_or_ignore tickers row !! k
  = match tickers !! k with
    | Some r => Some r
    | None =>
        if decide (row.1.1.1 = k) then
          Some {| unternehmensname := Some row.1.1.2; sektor := Some row.1.2;
                  branche := Some row.2; aktiv := Some 1%Z |}
        else None
    end.
Proof.
  destruct row as [[[symbol name] sec] br]. cbn [fst snd].
  unfold insert_ticker_or_ignore.
  destruct (tickers !! symbol) as [r0|] eqn:Hs.
  - destruct (tickers !! k) eqn:Hk; [done|].
    destruct (decide (symbol = k)) as [->|]; [congruence|done].
  - rewrite lookup_insert. destruct (decide (symbol = k)) as [->|].
    + by rewrite Hs.
    + by destruct (tickers !! k).
Qed.

Lemma ensure_sample_tickers_lookup tickers k :
  ensure_sample_tickers tickers !! k
  = match tickers !! k with
    | Some r => Some r
    | None =>
        if decide ("AAPL" = k) then
          Some {| unternehmensname := Some "Apple Inc."; sektor := Some "Technology";
                  branche := Some "Consumer Electronics"; aktiv := Some 1%Z |}
        else if decide ("TSLA" = k) then
          Some {| unternehmensname := Some "Tesla Inc."; sektor := Some "Automotive";
                  branche := Some "Auto Manufacturers"; aktiv := Some 1%Z |}
        else None
    end.
Proof.
  unfold ensure_sample_tickers. cbn [foldl].
  rewrite !insert_ticker_or_ignore_lookup. cbn [fst snd].
  destruct (tickers !! k); [done|].
  by destruct (decide ("AAPL" = k)), (decide ("TSLA" = k)).
Qed.

(** X14: [ensure_sample_tickers] leaves every row of [tickers] as it is and
    adds AAPL and TSLA when they are missing, so running it again changes
    nothing; afterwards each of the two is a known ticker unless its row was
    there before with [aktiv] other than 1. *)
Theorem ensure_sample_tickers_spec (tickers : gmap string ticker) :
  (∀ k r, tickers !! k = Some r → ensure_sample_tickers tickers !! k = Some r)
  ∧ ensure_sample_tickers (ensure_sample_tickers tickers)
    = ensure_sample_tickers tickers
  ∧ fetch_known_tickers tickers ⊆ fetch_known_tickers (ensure_sample_tickers tickers)
  ∧ (∀ sym, sym = "AAPL" ∨ sym = "TSLA" →
       sym ∈ fetch_known_tickers (ensure_sample_tickers tickers)
       ↔ tickers !! sym = None
         ∨ ∃ r, tickers !! sym = Some r ∧ aktiv r = Some 1%Z).
Proof.
  assert (Hkeep : ∀ k r, tickers !! k = Some r →
                         ensure_sample_tickers tickers !! k = Some r).
  { intros k r Hk. by rewrite ensure_sample_tickers_lookup, Hk. }
  split; [exact Hkeep|]. split; [|split].
  - apply map_eq. intros k. rewrite (ensure_sample_tickers_lookup (ensure_sample_tickers _)).
    destruct (ensure_sample_tickers tickers !! k) eqn:Hk; [done|].
    rewrite ensure_sample_tickers_lookup in Hk.
    destruct (tickers !! k); [done|].
    by destruct (decide ("AAPL" = k)), (decide ("TSLA" = k)).
  - intros k (r & Hr & Ha)%elem_of_fetch_known_tickers.
    apply elem_of_fetch_known_tickers. exists r. split; [by apply Hkeep|done].
  - intros sym Hsym. rewrite elem_of_fetch_known_tickers.
    rewrite ensure_sample_tickers_lookup.
    destruct (tickers !! sym) as [r|] eqn:Hr.
    + split.
      * intros (r' & [= <-] & Ha). right. by exists r.
      * intros [?|(r' & [= <-] & Ha)]; [done|]. by exists r.
    + split; [by left|]. intros _.
      destruct Hsym as [-> | ->]; cbn; by eexists.
Qed.

(** X15: the whitelist of a crawl holds the active tickers of the database
    and the symbols of the file; without a file it is the set of active
    tickers after the sample tickers were added; it is empty (the case the
    crawl warns about) only when AAPL and TSLA are both in the table and
    neither is active. *)
Theorem crawl_whitelist_spec (tickers : gmap string ticker) file :
  fetch_known_tickers tickers ∪ load_ticker_white_list file
    ⊆ crawl_whitelist tickers file
  ∧ crawl_whitelist tickers None
    = fetch_known_tickers (ensure_sample_tickers tickers)
  ∧ (crawl_whitelist tickers file = ∅ →
     ∃ a t, tickers !! "AAPL" = Some a ∧ aktiv a ≠ Some 1%Z
            ∧ tickers !! "TSLA" = Some t ∧ aktiv t ≠ Some 1%Z).
Proof.
  unfold crawl_whitelist. split; [|split].
  - intros k [Hk|Hk]%elem_of_union; apply elem_of_union; [left|by right].
    apply elem_of_fetch_known_tickers in Hk as (r & Hr & Ha).
    apply elem_of_fetch_known_tickers. exists r.
    by rewrite ensure_sample_tickers_lookup, Hr.
  - cbn [load_ticker_white_list]. apply set_eq. intros k.
    rewrite elem_of_union, elem_of_empty. tauto.
  - intros Hempty.
    assert (Hnot : ∀ k, ¬ ∃ r, ensure_sample_tickers tickers !! k = Some r
                               ∧ aktiv r = Some 1%Z).
    { intros k Hk. apply elem_of_fetch_known_tickers in Hk.
      apply (elem_of_empty (C := gset string) k). rewrite <- Hempty.
      apply elem_of_union. by left. }
    pose proof (Hnot "AAPL") as Ha. pose proof (Hnot "TSLA") as Ht.
    rewrite ensure_sample_tickers_lookup in Ha, Ht.
    destruct (tickers !! "AAPL") as [a|]; [|destruct Ha; cbn; by eexists].
    destruct (tickers !! "TSLA") as [t|]; [|destruct Ht; cbn; by eexists].
    exists a, t. split; [done|]. split; [|split; [done|]].
    + intros Hact. apply Ha. by exists a.
    + intros Hact. apply Ht. by exists t.
Qed.

(** X16: [queue_redditor] does nothing for a missing or empty name and
    never changes a stored redditor; a new name gets a row without karma,
    and queueing the same name again changes nothing. *)
Theorem queue_redditor_spec name (redditors : gmap string redditor) :
  queue_redditor None redditors = redditors
  ∧ queue_redditor (Some "") redditors = redditors
  ∧ (∀ k r, redditors !! k = Some r → queue_redditor name redditors !! k = Some r)
  ∧ queue_redditor name (queue_redditor name redditors)
    = queue_redditor name redditors
  ∧ (∀ n, name = Some n → n ≠ "" →
       redditors !! n = None →
       queue_redditor name redditors !! n
       = Some {| link_karma := None; comment_karma := None; r_created_utc := None |}).
Proof.
  split; [done|]. split; [done|]. split; [|split].
  - intros k r Hk. unfold queue_redditor. destruct name as [n|]; [|done].
    destruct (String.eqb n ""); [done|].
    destruct (redditors !! n) eqn:Hn; [done|].
    rewrite lookup_insert_ne; [done|]. intros ->. congruence.
  - unfold queue_redditor. destruct name as [n|]; [|done].
    destruct (String.eqb n "") eqn:He; [done|].
    destruct (redditors !! n) eqn:Hn.
    + by rewrite Hn.
    + by rewrite lookup_insert_eq.
  - intros n -> Hne Hn. unfold queue_redditor.
    destruct (String.eqb_spec n ""); [done|].
    by rewrite Hn, lookup_insert_eq.
Qed.

(** X17: [upsert_subreddit] stores the new title, description, subscriber
    count and quarantine flag, keeps the [created_utc] of a row that is
    already there, leaves the other subreddits alone, and changes nothing
    when it is run a second time with the same values. *)
Theorem upsert_subreddit_spec id row (subreddits : gmap string subreddit) :
  (∃ r, upsert_subreddit id row subreddits !! id = Some r
        ∧ title r = title row ∧ description r = description row
        ∧ subscriber r = subscriber row ∧ quarantaene r = quarantaene row
        ∧ created_utc r = match subreddits !! id with
                          | Some old => created_utc old
                          | None => created_utc row
                          end)
  ∧ (∀ k, k ≠ id → upsert_subreddit id row subreddits !! k = subreddits !! k)
  ∧ upsert_subreddit id row (upsert_subreddit id row subreddits)
    = upsert_subreddit id row subreddits.
Proof.
  unfold upsert_subreddit. destruct (subreddits !! id) as [old|] eqn:Hid.
  - split; [|split].
    + eexists. rewrite lookup_insert_eq. split; [reflexivity|]. done.
    + intros k Hk. by rewrite lookup_insert_ne.
    + rewrite lookup_insert_eq. cbn. by rewrite insert_insert_eq.
  - split; [|split].
    + exists row. by rewrite lookup_insert_eq.
    + intros k Hk. by rewrite lookup_insert_ne.
    + rewrite lookup_insert_eq. rewrite insert_insert_eq. by destruct row.
Qed.

Lemma split_no_sep a s : contains a s = false → split a s = [s].
Proof.
  induction s as [|c s IH]; [done|]. cbn [contains split].
  destruct (Ascii.eqb c a); [done|]. cbn [orb]. intros H. by rewrite IH.
Qed.

(** X18: the parent that [insert_comment] stores is the id of the post for
    a top-level comment (parent ["t3_<post id>"]), and nothing for a reply
    to a comment or for a missing parent. *)
Theorem comment_parent_id_spec :
  (∀ pid, contains "_" pid = false →
     comment_parent_id (Some ("t3_" +:+ pid)) = Some pid)
  ∧ (∀ p, String.prefix "t3_" p = false → comment_parent_id (Some p) = None)
  ∧ (∀ cid, comment_parent_id (Some ("t1_" +:+ cid)) = None)
  ∧ comment_parent_id None = None.
Proof.
  split; [|split; [|split]]; [| | |done].
  - intros pid Hpid. unfold comment_parent_id.
    rewrite !append_cons, append_nil. cbn [String.eqb negb andb String.prefix].
    cbn. rewrite (split_no_sep "_" pid Hpid). by destruct pid.
  - intros p Hp. unfold comment_parent_id. by rewrite Hp, andb_false_r.
  - intros cid. reflexivity.
Qed.

End TableFacts.

(** ** The enrichment of the authors *)

Section EnrichFacts.
Import PyStr PyMore Aggregator Crawler.
Local Open Scope Z_scope.

Variable reddit : string → fetched.

Lemma elem_of_select_unenriched batch (redditors : gmap string redditor) k :
  k ∈ select_unenriched batch redditors →
  ∃ r, redditors !! k = Some r ∧ link_karma r = None.
Proof.
  unfold select_unenriched, sorted. intros Hk.
  assert (k ∈ merge_sort str_le
                (elements (dom (filter (fun kv => link_karma kv.2 = None) redditors))))
    as Hk'.
  { destruct (batch <? 0); [done|].
    by eapply subseteq_take. }
  rewrite merge_sort_Permutation, elem_of_elements, elem_of_dom in Hk'.
  destruct Hk' as [r [Hr Hn]%map_lookup_filter_Some]. by exists r.
Qed.

Lemma select_unenriched_NoDup batch (redditors : gmap string redditor) :
  NoDup (select_unenriched batch redditors).
Proof.
  unfold select_unenriched, sorted.
  assert (NoDup (merge_sort str_le
            (elements (dom (filter (fun kv => link_karma kv.2 = None) redditors)))))
    as Hnd.
  { rewrite merge_sort_Permutation. apply NoDup_elements. }
  destruct (batch <? 0); [done|].
  eapply sublist_NoDup; [exact Hnd|apply sublist_take].
Qed.

(** The loop writes only to the rows it is given, and adds or drops none. *)
Lemma enrich_loop_frame rows : ∀ redditors,
  dom (enrich_loop reddit rows redditors).1.1 = dom redditors
  ∧ ∀ k, k ∉ rows → (enrich_loop reddit rows redditors).1.1 !! k = redditors !! k.
Proof.
  induction rows as [|name rows IH]; intros redditors; [done|].
  cbn [enrich_loop].
  destruct (reddit name) as [lk ck cr| |[[retry|]|]|].
  - destruct (enrich_loop reddit rows (alter _ name redditors))
      as [[rs evs] e] eqn:Hl.
    pose proof (IH (alter (fun _ => {| link_karma := Some lk; comment_karma := Some ck;
                                       r_created_utc := Some cr |}) name redditors))
      as [Hd Hf].
    rewrite Hl in Hd, Hf. cbn [fst] in *. split.
    + by rewrite Hd, dom_alter_L.
    + intros k [Hne Hk]%not_elem_of_cons. rewrite Hf by done.
      by rewrite lookup_alter_ne.
  - destruct (IH (alter (fun r => {| link_karma := Some 0;
                                     comment_karma := comment_karma r;
                                     r_created_utc := r_created_utc r |})
                        name redditors)) as [Hd Hf].
    split.
    + by rewrite Hd, dom_alter_L.
    + intros k [Hne Hk]%not_elem_of_cons. rewrite Hf by done.
      by rewrite lookup_alter_ne.
  - done.
  - done.
  - done.
  - destruct (IH redditors) as [Hd Hf]. split; [done|].
    intros k [Hne Hk]%not_elem_of_cons. by apply Hf.
Qed.

(** X19: [enrich_authors] adds and removes no redditor, and an author
    whose [link_karma] is known keeps the row as it is, whatever Reddit
    answers. *)
Theorem enrich_authors_keeps_known batch (redditors : gmap string redditor) :
  dom (enrich_authors reddit batch redditors).1.1 = dom redditors
  ∧ ∀ k r, redditors !! k = Some r → link_karma r ≠ None →
           (enrich_authors reddit batch redditors).1.1 !! k = Some r.
Proof.
  unfold enrich_authors.
  destruct (enrich_loop_frame (select_unenriched batch redditors) redditors)
    as [Hd Hf].
  split; [done|]. intros k r Hk Hn. rewrite Hf; [done|].
  intros (r' & Hr' & Hn')%elem_of_select_unenriched. congruence.
Qed.

Lemma enrich_loop_stops pre : ∀ name post redditors x,
  Forall (fun n => ∀ y, reddit n ≠ TooManyRequests y) pre →
  reddit name = TooManyRequests x →
  ∃ rs evs,
    enrich_loop reddit pre redditors = (rs, evs, BatchDone)
    ∧ enrich_loop reddit (pre ++ name :: post) redditors
      = match x with
        | None => (rs, evs ++ [SleepRetry 61], RateLimited)
        | Some (Some retry) => (rs, evs ++ [SleepRetry (retry + 1)], RateLimited)
        | Some None => (rs, evs, ValueErrorRaised)
        end.
Proof.
  induction pre as [|n pre IH]; intros name post redditors x Hpre Hname.
  - exists redditors, []. split; [done|]. cbn [app enrich_loop]. rewrite Hname.
    by destruct x as [[retry|]|].
  - apply Forall_cons in Hpre as [Hn Hpre].
    cbn [app enrich_loop].
    destruct (reddit n) as [lk ck cr| |y|] eqn:Hrn.
    + destruct (IH name post
                  (alter (fun _ => {| link_karma := Some lk; comment_karma := Some ck;
                                      r_created_utc := Some cr |}) n redditors)
                  x Hpre Hname) as (rs & evs & -> & ->).
      exists rs, (SleepPace :: evs). split; [done|].
      by destruct x as [[retry|]|].
    + destruct (IH name post
                  (alter (fun r => {| link_karma := Some 0;
                                      comment_karma := comment_karma r;
                                      r_created_utc := r_created_utc r |}) n redditors)
                  x Hpre Hname) as (rs & evs & -> & ->).
      by exists rs, evs.
    + by destruct (Hn y).
    + destruct (IH name post redditors x Hpre Hname) as (rs & evs & -> & ->).
      by exists rs, evs.
Qed.

(** X20: the first rate-limit answer ends the batch: the authors before it
    are handled as in a batch of their own, the authors after it are not
    asked for, and the run sleeps one second more than the [Retry-After]
    header says (61 seconds without the header); a header that is no
    number ends the run with the [ValueError], without a sleep. *)
Theorem enrich_authors_rate_limit batch (redditors : gmap string redditor)
    pre name post x :
  select_unenriched batch redditors = pre ++ name :: post →
  Forall (fun n => ∀ y, reddit n ≠ TooManyRequests y) pre →
  reddit name = TooManyRequests x →
  ∃ rs evs,
    enrich_loop reddit pre redditors = (rs, evs, BatchDone)
    ∧ enrich_authors reddit batch redditors
      = match x with
        | None => (rs, evs ++ [SleepRetry 61], RateLimited)
        | Some (Some retry) => (rs, evs ++ [SleepRetry (retry + 1)], RateLimited)
        | Some None => (rs, evs, ValueErrorRaised)
        end.
Proof.
  intros Hsel Hpre Hname. unfold enrich_authors. rewrite Hsel.
  by apply enrich_loop_stops.
Qed.

Lemma enrich_loop_done rows : ∀ redditors rs evs,
  NoDup rows →
  enrich_loop reddit rows redditors = (rs, evs, BatchDone) →
  ∀ k, k ∈ rows →
    match reddit k with
    | Profile lk ck cr =>
        rs !! k = (fun _ => {| link_karma := Some lk; comment_karma := Some ck;
                               r_created_utc := Some cr |}) <$> redditors !! k
    | NotFound =>
        rs !! k = (fun r => {| link_karma := Some 0;
                               comment_karma := comment_karma r;
                               r_created_utc := r_created_utc r |}) <$> redditors !! k
    | TooManyRequests _ => False
    | OtherError => rs !! k = redditors !! k
    end.
Proof.
  induction rows as [|name rows IH]; intros redditors rs evs Hnd Hl k Hk.
  - by apply elem_of_nil in Hk.
  - apply NoDup_cons in Hnd as [Hni Hnd]. cbn [enrich_loop] in Hl.
    destruct (decide (k = name)) as [->|Hne].
    + destruct (reddit name) as [lk ck cr| |[[retry|]|]|] eqn:Hrn; try done.
      * pose proof (enrich_loop_frame rows
                      (alter (fun _ => {| link_karma := Some lk;
                                          comment_karma := Some ck;
                                          r_created_utc := Some cr |}) name redditors))
          as [_ Hf].
        destruct (enrich_loop reddit rows (alter _ name redditors))
          as [[rs' evs'] e'] eqn:Hl'.
        injection Hl as Hrs _ _. subst rs'. cbn [fst] in Hf.
        rewrite (Hf name Hni). by rewrite lookup_alter_eq.
      * pose proof (enrich_loop_frame rows
                      (alter (fun r => {| link_karma := Some 0;
                                          comment_karma := comment_karma r;
                                          r_created_utc := r_created_utc r |})
                             name redditors)) as [_ Hf].
        rewrite Hl in Hf. cbn [fst] in Hf.
        rewrite (Hf name Hni). by rewrite lookup_alter_eq.
      * pose proof (enrich_loop_frame rows redditors) as [_ Hf].
        rewrite Hl in Hf. cbn [fst] in Hf. exact (Hf name Hni).
    + apply elem_of_cons in Hk as [?|Hk]; [done|].
      destruct (reddit name) as [lk ck cr| |[[retry|]|]|] eqn:Hrn; try done.
      * destruct (enrich_loop reddit rows (alter _ name redditors))
          as [[rs' evs'] e'] eqn:Hl'.
        injection Hl as Hrs _ He. subst rs' e'.
        pose proof (IH _ _ _ Hnd Hl' k Hk) as H.
        by rewrite lookup_alter_ne in H.
      * pose proof (IH _ _ _ Hnd Hl k Hk) as H.
        by rewrite lookup_alter_ne in H.
      * exact (IH _ _ _ Hnd Hl k Hk).
Qed.

(** X21: when the batch runs to its end, no selected author got a
    rate-limit answer; an author with a profile has its karma and creation
    time stored, an author that Reddit does not know gets [link_karma] 0 and
    keeps the other columns, and an author whose fetch failed otherwise
    keeps the row, so that the next batch selects the author again. *)
Theorem enrich_authors_done batch (redditors : gmap string redditor) rs evs :
  enrich_authors reddit batch redditors = (rs, evs, BatchDone) →
  ∀ k, k ∈ select_unenriched batch redditors →
    match reddit k with
    | Profile lk ck cr =>
        rs !! k = Some {| link_karma := Some lk; comment_karma := Some ck;
                          r_created_utc := Some cr |}
    | NotFound =>
        ∃ r, redditors !! k = Some r
             ∧ rs !! k = Some {| link_karma := Some 0;
                                 comment_karma := comment_karma r;
                                 r_created_utc := r_created_utc r |}
    | TooManyRequests _ => False
    | OtherError =>
        ∃ r, rs !! k = Some r ∧ link_karma r = None
    end.
Proof.
  unfold enrich_authors. intros Hl k Hk.
  pose proof (enrich_loop_done _ _ _ _ (select_unenriched_NoDup batch redditors)
                Hl k Hk) as H.
  destruct (elem_of_select_unenriched _ _ _ Hk) as (r & Hr & Hn).
  rewrite Hr in H.
  destruct (reddit k) as [lk ck cr| |y|]; [done| |done|].
  - by exists r.
  - by exists r.
Qed.

End EnrichFacts.

Section EnrichExamples.
Import Aggregator Crawler.
Local Open Scope Z_scope.

(** Of three queued authors the first has a profile and the second is
    answered with a rate limit of 30 seconds: the third is not asked for. *)
Lemma enrich_authors_rate_limit_witness :
  let reddit := fun n => if String.eqb n "alice" then Profile 10 20 1600000000
                         else if String.eqb n "bob"
                              then TooManyRequests (Some (Some 30))
                              else NotFound in
  let queued := {| link_karma := None; comment_karma := None; r_created_utc := None |} in
  let redditors : gmap string redditor :=
    {[ "carol" := queued; "alice" := queued; "bob" := queued ]} in
  ∃ rs evs,
    enrich_loop reddit ["alice"] redditors = (rs, evs, BatchDone)
    ∧ enrich_authors reddit 50 redditors
      = (rs, evs ++ [SleepRetry (30 + 1)], RateLimited).
Proof.
  intros reddit queued redditors.
  apply (enrich_authors_rate_limit reddit 50 redditors
           ["alice"] "bob" ["carol"] (Some (Some 30))).
  - vm_compute. reflexivity.
  - apply Forall_cons. split; [|by apply Forall_nil].
    intros y Hy. vm_compute in Hy. discriminate Hy.
  - reflexivity.
Defined.

(** A batch that runs to its end stores the profile of alice. *)
Lemma enrich_authors_done_witness :
  let reddit := fun n => if String.eqb n "alice" then Profile 10 20 1600000000
                         else if String.eqb n "bob" then OtherError
                              else NotFound in
  let queued := {| link_karma := None; comment_karma := None; r_created_utc := None |} in
  let redditors : gmap string redditor :=
    {[ "carol" := queued; "alice" := queued; "bob" := queued ]} in
  (enrich_authors reddit 50 redditors).1.1 !! "alice"
  = Some {| link_karma := Some 10; comment_karma := Some 20;
            r_created_utc := Some 1600000000 |}.
Proof.
  intros reddit queued redditors.
  apply (enrich_authors_done reddit 50 redditors
           (enrich_authors reddit 50 redditors).1.1
           (enrich_authors reddit 50 redditors).1.2
           ltac:(vm_compute; reflexivity) "alice").
  apply (bool_decide_unpack _). vm_compute. exact I.
Defined.

End EnrichExamples.

(** ** The crawl of one post *)

Section CrawlFacts.
Import PyStr PyMore Extractor Aggregator Crawler.

Lemma length_str_take n : ∀ s, (String.length (str_take n s) ≤ n)%nat.
Proof.
  induction n as [|n IH]; intros [|c s]; cbn; try lia.
  specialize (IH s). lia.
Qed.

(** X22: the mentions of a post are the mentions of its title followed by
    the mentions of its text: joining the two with a blank neither makes nor
    loses a mention. *)
Theorem post_calls_title_then_selftext (whitelist : gset string) (post : post_in) :
  mc_sym <$> post_calls whitelist post
  = extract_mentions (p_title post) whitelist
    ++ extract_mentions (p_selftext post) whitelist.
Proof.
  unfold post_calls. rewrite <- list_fmap_compose.
  rewrite (list_fmap_ext _ id (extract_mentions
             (p_title post +:+ " " +:+ p_selftext post) whitelist))
    by done.
  rewrite list_fmap_id, append_cons, append_nil.
  by apply extract_mentions_sep.
Qed.

Lemma elem_of_concat {A} (x : A) (ls : list (list A)) :
  x ∈ concat ls → ∃ l, x ∈ l ∧ l ∈ ls.
Proof.
  induction ls as [|l ls IH]; cbn [concat].
  - by intros ?%elem_of_nil.
  - intros [Hx|Hx]%elem_of_app.
    + exists l. split; [done|left].
    + destruct (IH Hx) as (l' & Hl' & Hin). exists l'. split; [done|by right].
Qed.

(** X23: every call of [insert_mention] carries a symbol of the whitelist
    that is no ambiguous word, position 0 and at most 250 characters of
    context; a mention of a post carries the id of the post, no comment id
    and the start of the title (also when the symbol stands in the text),
    a mention of a comment carries the id of a scanned comment and no post
    id.  With an empty whitelist there is no call. *)
Theorem mention_calls_shape (whitelist : gset string) comment_limit (post : post_in) :
  Forall (fun c =>
            (mc_sym c ∈ whitelist) ∧ (mc_sym c ∉ AMBIGUOUS)
            ∧ mc_pos c = 0%Z
            ∧ (String.length (mc_context c) ≤ 250)%nat
            ∧ ((mc_source c = "post" ∧ mc_post_id c = Some (p_id post)
                ∧ mc_comment_id c = None
                ∧ mc_context c = str_take 250 (p_title post))
               ∨ (∃ cm, cm ∈ scanned_comments comment_limit post
                        ∧ mc_source c = "comment" ∧ mc_post_id c = None
                        ∧ mc_comment_id c = Some (c_id cm)
                        ∧ mc_context c = str_take 250 (c_body cm))))
         (mention_calls whitelist comment_limit post)
  ∧ mention_calls ∅ comment_limit post = [].
Proof.
  split.
  - apply Forall_forall. intros c Hc. unfold mention_calls in Hc.
    apply elem_of_app in Hc as [Hc|Hc].
    + apply list_elem_of_fmap in Hc as (m & -> & Hm).
      apply list_elem_of_filter in Hm as [[Hw Ha] _].
      cbn [mc_sym mc_pos mc_context mc_source mc_post_id mc_comment_id].
      repeat split; [done|done|apply length_str_take|by left].
    + apply elem_of_concat in Hc as (calls & Hc & Hcalls).
      apply list_elem_of_fmap in Hcalls as (cm & -> & Hcm).
      apply list_elem_of_fmap in Hc as (m & -> & Hm).
      apply list_elem_of_filter in Hm as [[Hw Ha] _].
      cbn [mc_sym mc_pos mc_context mc_source mc_post_id mc_comment_id].
      repeat split; [done|done|apply length_str_take|right]. by exists cm.
  - assert (Hnone : ∀ text, extract_mentions text ∅ = []).
    { intros text. unfold extract_mentions.
      induction (candidates text) as [|m l IH]; [done|].
      rewrite filter_cons, decide_False; [done|].
      intros [Hm _]. by apply elem_of_empty in Hm. }
    unfold mention_calls, post_calls. rewrite Hnone. cbn [fmap list_fmap app].
    induction (scanned_comments comment_limit post) as [|cm l IH]; [done|].
    rewrite fmap_cons. cbn [concat]. rewrite IH. unfold comment_calls.
    by rewrite Hnone.
Qed.

Lemma insert_by_depth_Permutation c l : insert_by_depth c l ≡ₚ c :: l.
Proof.
  induction l as [|c' l IH]; [done|]. cbn [insert_by_depth].
  destruct (c_depth c <=? c_depth c')%Z; [done|].
  rewrite IH. apply Permutation_swap.
Qed.

Lemma sort_by_depth_Permutation l : sort_by_depth l ≡ₚ l.
Proof.
  induction l as [|c l IH]; [done|]. unfold sort_by_depth in *. cbn [foldr].
  by rewrite insert_by_depth_Permutation, IH.
Qed.

Lemma insert_by_depth_sorted c l :
  StronglySorted (fun a b => (c_depth a ≤ c_depth b)%Z) l →
  StronglySorted (fun a b => (c_depth a ≤ c_depth b)%Z) (insert_by_depth c l).
Proof.
  induction 1 as [|c' l Hs IH Hall]; cbn [insert_by_depth].
  - repeat constructor.
  - destruct (Z.leb_spec (c_depth c) (c_depth c')) as [Hle|Hgt].
    + constructor; [by constructor|]. constructor; [done|].
      eapply Forall_impl; [exact Hall|]. cbn. intros x Hx. lia.
    + constructor; [done|]. rewrite insert_by_depth_Permutation.
      constructor; [lia|done].
Qed.

Lemma sort_by_depth_sorted l :
  StronglySorted (fun a b => (c_depth a ≤ c_depth b)%Z) (sort_by_depth l).
Proof.
  induction l as [|c l IH]; [constructor|]. by apply insert_by_depth_sorted.
Qed.

Lemma insert_by_depth_stable k c l :
  filter (fun x => c_depth x = k) (insert_by_depth c l)
  = filter (fun x => c_depth x = k) (c :: l).
Proof.
  induction l as [|c' l IH]; [done|]. cbn [insert_by_depth].
  destruct (Z.leb_spec (c_depth c) (c_depth c')) as [Hle|Hgt]; [done|].
  rewrite filter_cons, IH, !filter_cons.
  destruct (decide (c_depth c' = k)), (decide (c_depth c = k)); try done. lia.
Qed.

Lemma sort_by_depth_stable k l :
  filter (fun x => c_depth x = k) (sort_by_depth l)
  = filter (fun x => c_depth x = k) l.
Proof.
  induction l as [|c l IH]; [done|]. unfold sort_by_depth in *. cbn [foldr].
  by rewrite insert_by_depth_stable, !filter_cons, IH.
Qed.

(** X24: the comments of a post are scanned from the shallowest on: the
    scanned comments are a first part of the comments in ascending depth,
    comments of the same depth staying in the order in which Reddit gave
    them, so no comment that is left out is shallower than a scanned one;
    with a limit of at least 0 as many are scanned as the limit allows. *)
Theorem scanned_comments_shallowest comment_limit (post : post_in) :
  ∃ rest,
    scanned_comments comment_limit post ++ rest ≡ₚ p_comments post
    ∧ StronglySorted (fun a b => (c_depth a ≤ c_depth b)%Z)
        (scanned_comments comment_limit post ++ rest)
    ∧ (∀ k, filter (fun x => c_depth x = k)
              (scanned_comments comment_limit post ++ rest)
            = filter (fun x => c_depth x = k) (p_comments post))
    ∧ (∀ c c', c ∈ scanned_comments comment_limit post → c' ∈ rest →
               (c_depth c ≤ c_depth c')%Z)
    ∧ ((0 ≤ comment_limit)%Z →
       length (scanned_comments comment_limit post)
       = Z.to_nat comment_limit `min` length (p_comments post)).
Proof.
  unfold scanned_comments, slice_to.
  set (sorted_l := sort_by_depth (p_comments post)).
  set (n := if (0 <=? comment_limit)%Z then Z.to_nat comment_limit
            else Z.to_nat (Z.of_nat (length sorted_l) + comment_limit)).
  assert (Hn : (if (0 <=? comment_limit)%Z then take (Z.to_nat comment_limit) sorted_l
                else take (Z.to_nat (Z.of_nat (length sorted_l) + comment_limit)) sorted_l)
               = take n sorted_l).
  { subst n. by destruct (0 <=? comment_limit)%Z. }
  rewrite Hn. exists (drop n sorted_l). rewrite take_drop.
  pose proof (sort_by_depth_sorted (p_comments post)) as Hs. fold sorted_l in Hs.
  split; [apply sort_by_depth_Permutation|]. split; [done|].
  split; [intros k; apply sort_by_depth_stable|]. split.
  - intros c c' Hc Hc'. rewrite <- (take_drop n sorted_l) in Hs.
    by eapply (StronglySorted_app_1_elem_of _ _ _ c c' Hs).
  - intros Hlim. subst n. rewrite (proj2 (Z.leb_le 0 comment_limit) Hlim).
    rewrite length_take. subst sorted_l.
    by rewrite (Permutation_length (sort_by_depth_Permutation (p_comments post))).
Qed.

Lemma foldl_insert_mention clock calls : ∀ st,
  foldl (insert_mention clock) st calls
  = {| st_redditors := st_redditors st;
       st_db :=
         {| posts := posts (st_db st); comments := comments (st_db st);
            mentions :=
              mentions (st_db st)
              ++ imap (fun i => mention_row (clock (length (mentions (st_db st)) + i)%nat))
                      calls;
            daily_stats := daily_stats (st_db st);
            trend_alerts := trend_alerts (st_db st) |} |}.
Proof.
  induction calls as [|c calls IH]; intros st.
  - cbn [foldl imap]. rewrite app_nil_r. by destruct st as [rs []].
  - cbn [foldl]. rewrite IH. unfold insert_mention.
    cbn [st_redditors st_db posts comments mentions daily_stats trend_alerts].
    rewrite imap_cons, <- app_assoc. cbn [app]. rewrite Nat.add_0_r.
    do 4 f_equal. apply imap_ext. intros i x _. cbn.
    rewrite length_app. cbn [length]. do 2 f_equal. lia.
Qed.

Lemma foldl_crawl_comment whitelist clock cms : ∀ st,
  let st' := foldl (crawl_comment whitelist clock) st cms in
  mentions (st_db st')
  = mentions (st_db st)
    ++ imap (fun i => mention_row (clock (length (mentions (st_db st)) + i)%nat))
            (concat (comment_calls whitelist <$> cms))
  ∧ posts (st_db st') = posts (st_db st)
  ∧ daily_stats (st_db st') = daily_stats (st_db st)
  ∧ trend_alerts (st_db st') = trend_alerts (st_db st)
  ∧ comments (st_db st) ⊆ comments (st_db st')
  ∧ st_redditors st ⊆ st_redditors st'
  ∧ ∀ cm, cm ∈ cms → is_Some (comments (st_db st') !! c_id cm).
Proof.
  induction cms as [|cm cms IH]; intros st.
  - cbn. rewrite app_nil_r. repeat split; try done.
    intros cm Hcm. by apply elem_of_nil in Hcm.
  - cbn zeta in *. cbn [foldl].
    destruct (IH (crawl_comment whitelist clock st cm))
      as (Hm & Hp & Hd & Ht & Hc & Hr & Hin).
    assert (Hstep : comments (st_db st)
                    ⊆ comments (st_db (crawl_comment whitelist clock st cm))
                    ∧ is_Some (comments (st_db (crawl_comment whitelist clock st cm))
                               !! c_id cm)
                    ∧ st_redditors st
                      ⊆ st_redditors (crawl_comment whitelist clock st cm)).
    { unfold crawl_comment. rewrite foldl_insert_mention.
      cbn [st_db st_redditors comments insert_comment with_redditors].
      split; [|split].
      - destruct (comments (st_db st) !! c_id cm) eqn:Hl; [done|].
        by apply insert_subseteq.
      - destruct (comments (st_db st) !! c_id cm) eqn:Hl; [by rewrite Hl|].
        by rewrite lookup_insert_eq.
      - unfold queue_redditor. destruct (c_author cm) as [n|]; [|done].
        destruct (String.eqb n ""); [done|].
        destruct (st_redditors st !! n) eqn:Hl; [done|].
        by apply insert_subseteq. }
    destruct Hstep as (Hc1 & Hin1 & Hr1).
    rewrite Hm, Hp, Hd, Ht. unfold crawl_comment at 1 2 3 4 5.
    rewrite foldl_insert_mention.
    cbn [st_db st_redditors posts comments mentions daily_stats trend_alerts
         insert_comment with_redditors].
    split; [|repeat split; try done].
    + rewrite fmap_cons. cbn [concat]. rewrite imap_app, <- app_assoc.
      do 2 f_equal. apply imap_ext. intros i x _. cbn.
      rewrite length_app, length_imap. do 2 f_equal. lia.
    + by etrans.
    + by etrans.
    + intros cm' [->|Hcm']%elem_of_cons; [|by apply Hin].
      destruct Hin1 as [a Ha]. exists a.
      by eapply (lookup_weaken _ _ _ _ Ha).
Qed.

(** X25: the crawl of a post appends one row to [mentions] for each call
    of [insert_mention], in the order of the calls and with the time of
    its insert; it stores the post unless its id is there already, keeps
    every stored comment and redditor as it is, stores every scanned
    comment, and leaves [daily_stats] and [trend_alerts] alone. *)
Theorem crawl_post_effect whitelist comment_limit clock (st : store) (post : post_in) :
  let st' := crawl_post whitelist comment_limit clock st post in
  mentions (st_db st')
  = mentions (st_db st)
    ++ imap (fun i => mention_row (clock (length (mentions (st_db st)) + i)%nat))
            (mention_calls whitelist comment_limit post)
  ∧ posts (st_db st')
    = match posts (st_db st) !! p_id post with
      | Some _ => posts (st_db st)
      | None => <[p_id post := p_author post]> (posts (st_db st))
      end
  ∧ comments (st_db st) ⊆ comments (st_db st')
  ∧ (∀ cm, cm ∈ scanned_comments comment_limit post →
           is_Some (comments (st_db st') !! c_id cm))
  ∧ st_redditors st ⊆ st_redditors st'
  ∧ daily_stats (st_db st') = daily_stats (st_db st)
  ∧ trend_alerts (st_db st') = trend_alerts (st_db st).
Proof.
  cbn zeta. unfold crawl_post. rewrite foldl_insert_mention.
  cbn [st_db st_redditors posts comments mentions daily_stats trend_alerts
       insert_post with_redditors].
  match goal with
  | |- context [foldl (crawl_comment _ _) ?s _] =>
      destruct (foldl_crawl_comment whitelist clock
                  (scanned_comments comment_limit post) s)
        as (Hm & Hp & Hd & Ht & Hc & Hr & Hin)
  end.
  cbn [st_db st_redditors posts comments mentions daily_stats trend_alerts]
    in Hm, Hp, Hd, Ht, Hc, Hr.
  rewrite Hm, Hp, Hd, Ht. repeat split; try done.
  - unfold mention_calls. rewrite imap_app, <- app_assoc. do 2 f_equal.
    apply imap_ext. intros i x _. cbn.
    rewrite length_app, length_imap. do 2 f_equal. lia.
  - etrans; [|exact Hr]. unfold queue_redditor.
    destruct (p_author post) as [n|]; [|done].
    destruct (String.eqb n ""); [done|].
    destruct (st_redditors st !! n) eqn:Hl; [done|].
    by apply insert_subseteq.
Qed.

Lemma mention_linked_mono (d d' : db) m :
  posts d ⊆ posts d' → comments d ⊆ comments d' →
  mention_linked d m → mention_linked d' m.
Proof.
  unfold mention_linked. intros Hp Hc.
  destruct (m_post_id m) as [p|], (m_comment_id m) as [c|]; try done.
  - intros H. by eapply lookup_weaken_is_Some.
  - intros H. by eapply lookup_weaken_is_Some.
Qed.

Lemma author_queued_mono (rs rs' : gmap string redditor) a :
  rs ⊆ rs' → author_queued rs a → author_queued rs' a.
Proof.
  intros Hrs. destruct a as [n|]; [|done]. cbn.
  intros [->|H]; [by left|right]. by eapply lookup_weaken_is_Some.
Qed.

Lemma queue_redditor_subseteq a (rs : gmap string redditor) :
  rs ⊆ queue_redditor a rs.
Proof.
  unfold queue_redditor. destruct a as [n|]; [|done].
  destruct (String.eqb n ""); [done|].
  destruct (rs !! n) eqn:Hl; [done|]. by apply insert_subseteq.
Qed.

Lemma queue_redditor_queued a (rs : gmap string redditor) :
  author_queued (queue_redditor a rs) a.
Proof.
  destruct a as [n|]; [|done]. cbn.
  destruct (String.eqb_spec n "") as [->|Hne]; [by left|right].
  destruct (rs !! n) eqn:Hl; [by rewrite Hl|]. by rewrite lookup_insert_eq.
Qed.

Lemma kept_queue a (st : store) :
  Forall (mention_linked (st_db st)) (mentions (st_db st)) ∧ authors_queued st →
  let st' := with_redditors (queue_redditor a) st in
  (Forall (mention_linked (st_db st')) (mentions (st_db st')) ∧ authors_queued st')
  ∧ author_queued (st_redditors st') a.
Proof.
  intros [Hl [Hp Hc]]. cbn. split; [split; [done|split]|].
  - eapply map_Forall_impl; [exact Hp|]. intros k x.
    apply author_queued_mono, queue_redditor_subseteq.
  - eapply map_Forall_impl; [exact Hc|]. intros k x.
    apply author_queued_mono, queue_redditor_subseteq.
  - apply queue_redditor_queued.
Qed.

Lemma kept_insert_post post (st : store) :
  author_queued (st_redditors st) (p_author post) →
  Forall (mention_linked (st_db st)) (mentions (st_db st)) ∧ authors_queued st →
  let st' := insert_post post st in
  (Forall (mention_linked (st_db st')) (mentions (st_db st')) ∧ authors_queued st')
  ∧ is_Some (posts (st_db st') !! p_id post).
Proof.
  intros Ha [Hl [Hp Hc]]. cbn zeta. unfold insert_post, authors_queued.
  cbn [st_db st_redditors posts comments mentions].
  destruct (posts (st_db st) !! p_id post) as [a|] eqn:Hid.
  - split; [split; [|done]|by rewrite Hid].
    eapply Forall_impl; [exact Hl|]. intros m. by apply mention_linked_mono.
  - split; [split; [|split; [|done]]|by rewrite lookup_insert_eq].
    + eapply Forall_impl; [exact Hl|]. intros m.
      apply mention_linked_mono; [|done]. by apply insert_subseteq.
    + by apply map_Forall_insert_2.
Qed.

Lemma kept_insert_comment cm (st : store) :
  author_queued (st_redditors st) (c_author cm) →
  Forall (mention_linked (st_db st)) (mentions (st_db st)) ∧ authors_queued st →
  let st' := insert_comment cm st in
  (Forall (mention_linked (st_db st')) (mentions (st_db st')) ∧ authors_queued st')
  ∧ is_Some (comments (st_db st') !! c_id cm).
Proof.
  intros Ha [Hl [Hp Hc]]. cbn zeta. unfold insert_comment, authors_queued.
  cbn [st_db st_redditors posts comments mentions].
  destruct (comments (st_db st) !! c_id cm) as [a|] eqn:Hid.
  - split; [split; [|done]|by rewrite Hid].
    eapply Forall_impl; [exact Hl|]. intros m. by apply mention_linked_mono.
  - split; [split; [|split; [done|]]|by rewrite lookup_insert_eq].
    + eapply Forall_impl; [exact Hl|]. intros m.
      apply mention_linked_mono; [done|]. by apply insert_subseteq.
    + by apply map_Forall_insert_2.
Qed.

Lemma kept_insert_mentions clock calls (st : store) :
  Forall (fun c => ∀ now, mention_linked (st_db st) (mention_row now c)) calls →
  Forall (mention_linked (st_db st)) (mentions (st_db st)) ∧ authors_queued st →
  let st' := foldl (insert_mention clock) st calls in
  Forall (mention_linked (st_db st')) (mentions (st_db st')) ∧ authors_queued st'.
Proof.
  intros Hcalls [Hl Hq]. cbn zeta. rewrite foldl_insert_mention.
  split; [|done]. cbn [st_db mentions]. apply Forall_app. split; [done|].
  apply Forall_forall. intros m (i & c & -> & Hc)%elem_of_lookup_imap_1.
  rewrite Forall_forall in Hcalls.
  apply (Hcalls c); by eapply list_elem_of_lookup_2.
Qed.

Lemma kept_crawl_comment whitelist clock cm (st : store) :
  Forall (mention_linked (st_db st)) (mentions (st_db st)) ∧ authors_queued st →
  let st' := crawl_comment whitelist clock st cm in
  Forall (mention_linked (st_db st')) (mentions (st_db st')) ∧ authors_queued st'.
Proof.
  intros H. cbn zeta. unfold crawl_comment.
  destruct (kept_queue (c_author cm) st H) as [H1 Ha].
  destruct (kept_insert_comment cm _ Ha H1) as [H2 Hid].
  apply kept_insert_mentions; [|done].
  apply Forall_forall. intros c (m & -> & _)%list_elem_of_fmap now.
  exact Hid.
Qed.

(** X26: the crawl of a post keeps the tables consistent: when every
    mention points to a stored post or to a stored comment (to one of the
    two), and every named author of a stored post or comment has a row in
    [redditors], the same holds after the crawl of a further post. *)
Theorem crawl_post_consistent whitelist comment_limit clock
    (st : store) (post : post_in) :
  Forall (mention_linked (st_db st)) (mentions (st_db st)) →
  authors_queued st →
  let st' := crawl_post whitelist comment_limit clock st post in
  Forall (mention_linked (st_db st')) (mentions (st_db st')) ∧ authors_queued st'.
Proof.
  intros Hl Hq. cbn zeta. unfold crawl_post.
  destruct (kept_queue (p_author post) st (conj Hl Hq)) as [H1 Ha].
  destruct (kept_insert_post post _ Ha H1) as [H2 Hid].
  assert (H3 : let st3 := foldl (insert_mention clock)
                            (insert_post post
                               (with_redditors (queue_redditor (p_author post)) st))
                            (post_calls whitelist post) in
               Forall (mention_linked (st_db st3)) (mentions (st_db st3))
               ∧ authors_queued st3).
  { apply kept_insert_mentions; [|done].
    apply Forall_forall. intros c (m & -> & _)%list_elem_of_fmap now.
    exact Hid. }
  cbn zeta in H3. revert H3.
  generalize (foldl (insert_mention clock)
                (insert_post post
                   (with_redditors (queue_redditor (p_author post)) st))
                (post_calls whitelist post)).
  induction (scanned_comments comment_limit post) as [|cm cms IH];
    intros st3 H3; [done|].
  cbn [foldl]. apply IH. by apply kept_crawl_comment.
Qed.

End CrawlFacts.

Section CrawlExamples.
Import Aggregator Crawler.
Local Open Scope Z_scope.

(** A store with one post by zed and one mention of it; the crawl of a
    post by alice with a comment by bob keeps it consistent. *)
Lemma crawl_post_consistent_witness :
  let t0 := {| ts_date := "2025-08-20"; ts_time := "08:00:00" |} in
  let queued := {| link_karma := None; comment_karma := None; r_created_utc := None |} in
  let st :=
    {| st_redditors := {[ "zed" := queued ]};
       st_db := {| posts := {[ "p0" := Some "zed" ]}; comments := ∅;
                   mentions := [ {| m_symbol := "AAPL"; m_post_id := Some "p0";
                                    m_comment_id := None; m_created_at := t0 |} ];
                   daily_stats := []; trend_alerts := [] |} |} in
  let post :=
    {| p_id := "p1"; p_author := Some "alice";
       p_title := "$AAPL to the moon"; p_selftext := "";
       p_comments := [ {| c_id := "c1"; c_author := Some "bob";
                          c_body := "TSLA too"; c_depth := 0;
                          c_parent_id := Some "t3_p1" |} ] |} in
  let st' := crawl_post {[ "AAPL"; "TSLA" ]} 10 (fun _ => t0) st post in
  Forall (mention_linked (st_db st')) (mentions (st_db st')) ∧ authors_queued st'.
Proof.
  intros t0 queued st post.
  apply (crawl_post_consistent {[ "AAPL"; "TSLA" ]} 10 (fun _ => t0) st post).
  - apply Forall_cons. split; [|by apply Forall_nil].
    vm_compute. eexists. reflexivity.
  - split.
    + intros k a Hk.
      change (({[ "p0" := Some "zed" ]} : gmap string (option string)) !! k
              = Some a) in Hk.
      apply lookup_singleton_Some in Hk as [<- <-]. right.
      vm_compute. eexists. reflexivity.
    + intros k a Hk.
      change ((∅ : gmap string (option string)) !! k = Some a) in Hk.
      by rewrite lookup_empty in Hk.
Defined.

End CrawlExamples.

(** ** The aggregation after the crawl *)

Section AggregateFacts.
Import Aggregator Crawler.
Local Open Scope Z_scope.

Lemma length_remove_dups_le {X} `{EqDecision X} (l : list X) :
  (length (remove_dups l) ≤ length l)%nat.
Proof.
  induction l as [|x l IH]; [done|]. cbn [remove_dups].
  destruct (decide_rel elem_of x l); cbn [length]; lia.
Qed.

Lemma length_omap_le {X Y} (f : X → option Y) (l : list X) :
  (length (omap f l) ≤ length l)%nat.
Proof.
  induction l as [|x l IH]; [done|]. cbn [omap list_omap].
  destruct (f x); cbn [length]; lia.
Qed.

Lemma count_one {K} `{EqDecision K} (k0 : K) (ks : list K) :
  NoDup ks → k0 ∈ ks →
  foldr Z.add 0 ((fun k => if decide (k0 = k) then 1 else 0) <$> ks) = 1.
Proof.
  induction 1 as [|k ks Hni Hnd IH]; [by intros ?%elem_of_nil|].
  intros Hin. rewrite fmap_cons. cbn [foldr].
  assert (Hzero : k0 ∉ ks →
            foldr Z.add 0 ((fun k => if decide (k0 = k) then 1 else 0) <$> ks) = 0).
  { clear. induction ks as [|k' ks IH]; [done|].
    intros [Hne Hni]%not_elem_of_cons. rewrite fmap_cons. cbn [foldr].
    rewrite decide_False by done. by rewrite IH. }
  destruct (decide (k0 = k)) as [->|Hne].
  - by rewrite Hzero.
  - apply elem_of_cons in Hin as [?|Hin]; [done|]. by rewrite IH.
Qed.

Lemma foldr_add_fmap {K} (f g : K → Z) (ks : list K) :
  foldr Z.add 0 ((fun k => f k + g k) <$> ks)
  = foldr Z.add 0 (f <$> ks) + foldr Z.add 0 (g <$> ks).
Proof.
  induction ks as [|k ks IH]; [done|]. rewrite !fmap_cons. cbn [foldr].
  rewrite IH. lia.
Qed.

(** The sizes of the groups add up to the number of rows. *)
Lemma group_sizes {X K} `{EqDecision K} (f : X → K) (ms : list X) (ks : list K) :
  NoDup ks → (∀ m, m ∈ ms → f m ∈ ks) →
  foldr Z.add 0
    ((fun k => Z.of_nat (length (filter (fun m => f m = k) ms))) <$> ks)
  = Z.of_nat (length ms).
Proof.
  intros Hnd. induction ms as [|m ms IH]; intros Hin.
  - clear. induction ks as [|k ks IH]; [done|].
    rewrite fmap_cons. cbn [foldr]. by rewrite IH.
  - rewrite (list_fmap_ext _
               (fun k => (if decide (f m = k) then 1 else 0)
                         + Z.of_nat (length (filter (fun m => f m = k) ms))) ks).
    + rewrite foldr_add_fmap, IH, count_one; [cbn [length]; lia|done| |].
      * apply Hin. left.
      * intros m' Hm'. apply Hin. by right.
    + intros i k _. rewrite filter_cons.
      destruct (decide (f m = k)); cbn [length]; lia.
Qed.

Lemma count_not_null_le {A} (col : mention → option A) g :
  0 ≤ count_not_null col g ≤ Z.of_nat (length g).
Proof.
  unfold count_not_null.
  pose proof (length_filter (fun m => is_Some (col m)) g). lia.
Qed.

Lemma count_linked (d : db) g :
  Forall (mention_linked d) g →
  count_not_null m_post_id g + count_not_null m_comment_id g = Z.of_nat (length g).
Proof.
  unfold count_not_null. induction 1 as [|m g Hm Hg IH]; [done|].
  rewrite !filter_cons. unfold mention_linked in Hm.
  destruct (m_post_id m) as [p|], (m_comment_id m) as [c|]; try done.
  - rewrite decide_True by done.
    rewrite (decide_False (P := is_Some None)) by (by intros [? ?]).
    cbn [length] in *. lia.
  - rewrite (decide_False (P := is_Some None)) by (by intros [? ?]).
    rewrite decide_True by done.
    cbn [length] in *. lia.
Qed.

(** X27: the counts that [update_daily_stats] computes: every row it
    offers stands for a symbol mentioned today, with at least one mention;
    the numbers of post mentions, comment mentions and authors are between
    0 and the number of mentions; over all rows the numbers of mentions add
    up to the number of today's mentions; and when every mention points to
    a stored post or to a stored comment, to one of the two, post mentions
    and comment mentions add up to the number of mentions. *)
Theorem select_daily_counts today now (d : db) :
  Forall (fun x =>
            ex_date x = today
            ∧ ex_symbol x ∈ m_symbol <$> mentions_today now d
            ∧ 1 ≤ ex_mention_count x
            ∧ 0 ≤ ex_post_mentions x ≤ ex_mention_count x
            ∧ 0 ≤ ex_comment_mentions x ≤ ex_mention_count x
            ∧ 0 ≤ ex_unique_authors x ≤ ex_mention_count x)
         (select_daily today now d)
  ∧ foldr Z.add 0 (ex_mention_count <$> select_daily today now d)
    = Z.of_nat (length (mentions_today now d))
  ∧ (Forall (mention_linked d) (mentions d) →
     Forall (fun x => ex_post_mentions x + ex_comment_mentions x
                      = ex_mention_count x)
            (select_daily today now d)).
Proof.
  unfold select_daily. set (ms := mentions_today now d). split; [|split].
  - apply Forall_forall. intros x (sym & -> & Hsym)%list_elem_of_fmap.
    rewrite elem_of_remove_dups in Hsym.
    cbn [aggregate ex_date ex_symbol ex_mention_count ex_post_mentions
         ex_comment_mentions ex_unique_authors].
    split; [done|]. split; [done|].
    set (g := filter (fun m => m_symbol m = sym) ms).
    split.
    + apply list_elem_of_fmap in Hsym as (m & -> & Hm).
      assert (m ∈ g) as Hg by (by apply list_elem_of_filter).
      destruct g; [by apply elem_of_nil in Hg|]. cbn [length]. lia.
    + split; [apply count_not_null_le|]. split; [apply count_not_null_le|].
      pose proof (length_remove_dups_le (omap (author d) g)).
      pose proof (length_omap_le (author d) g). lia.
  - rewrite <- list_fmap_compose.
    apply (group_sizes m_symbol ms); [apply NoDup_remove_dups|].
    intros m Hm. apply elem_of_remove_dups. by apply list_elem_of_fmap_2.
  - intros Hl. apply Forall_forall.
    intros x (sym & -> & Hsym)%list_elem_of_fmap.
    cbn [aggregate ex_mention_count ex_post_mentions ex_comment_mentions].
    apply (count_linked d). apply Forall_forall. intros m Hm.
    apply list_elem_of_filter in Hm as [_ Hm]. subst ms.
    apply list_elem_of_filter in Hm as [_ Hm].
    rewrite Forall_forall in Hl. by apply Hl.
Qed.

Lemma upsert_columns tbl x :
  (fun r => (ds_id r, ds_symbol r, ds_date r)) <$> tbl
  `prefix_of` (fun r => (ds_id r, ds_symbol r, ds_date r)) <$> upsert tbl x.
Proof.
  unfold upsert. case_bool_decide.
  - replace ((fun r => (ds_id r, ds_symbol r, ds_date r))
               <$> ((fun r => if bool_decide (ds_key r = ex_key x)
                              then do_update x r else r) <$> tbl))
      with ((fun r => (ds_id r, ds_symbol r, ds_date r)) <$> tbl); [done|].
    rewrite <- list_fmap_compose. apply list_fmap_ext.
    intros i r _. cbn. by case_bool_decide.
  - rewrite fmap_app. by apply prefix_app_r.
Qed.

Lemma upsert_other tbl x r :
  r ∈ tbl → ds_key r ≠ ex_key x → r ∈ upsert tbl x.
Proof.
  intros Hr Hk. unfold upsert. case_bool_decide.
  - apply list_elem_of_fmap. exists r. split; [|done].
    by rewrite bool_decide_eq_false_2.
  - apply elem_of_app. by left.
Qed.

Lemma upsert_from tbl x r :
  r ∈ upsert tbl x → r ∈ tbl ∨ ds_key r = ex_key x.
Proof.
  unfold upsert. case_bool_decide.
  - intros (r0 & -> & Hr0)%list_elem_of_fmap. case_bool_decide; [|by left].
    by right.
  - intros [Hr| ->%list_elem_of_singleton]%elem_of_app; [by left|by right].
Qed.

Lemma foldl_upsert_keeps rows : ∀ tbl,
  (fun r => (ds_id r, ds_symbol r, ds_date r)) <$> tbl
  `prefix_of` (fun r => (ds_id r, ds_symbol r, ds_date r)) <$> foldl upsert tbl rows
  ∧ (∀ r, r ∈ tbl → ds_key r ∉ ex_key <$> rows → r ∈ foldl upsert tbl rows)
  ∧ (∀ r, r ∈ foldl upsert tbl rows → r ∈ tbl ∨ ds_key r ∈ ex_key <$> rows).
Proof.
  induction rows as [|x rows IH]; intros tbl.
  - cbn [foldl]. split; [done|]. split; [done|]. intros r Hr. by left.
  - cbn [foldl]. destruct (IH (upsert tbl x)) as (Hcols & Hkeep & Hfrom).
    split; [|split].
    + etrans; [apply upsert_columns|exact Hcols].
    + intros r Hr Hk. rewrite fmap_cons in Hk.
      apply not_elem_of_cons in Hk as [Hne Hk].
      apply Hkeep; [|done]. by apply upsert_other.
    + intros r Hr. rewrite fmap_cons.
      destruct (Hfrom r Hr) as [Hu|Hin].
      * destruct (upsert_from _ _ _ Hu) as [?|Hk]; [by left|].
        right. rewrite Hk. left.
      * right. by right.
Qed.

Lemma elem_of_select_daily_keys today now (d : db) k :
  k ∈ ex_key <$> select_daily today now d
  ↔ k.2 = today ∧ k.1 ∈ m_symbol <$> mentions_today now d.
Proof.
  unfold select_daily. rewrite <- list_fmap_compose. split.
  - intros (sym & -> & Hsym)%list_elem_of_fmap.
    rewrite elem_of_remove_dups in Hsym. done.
  - destruct k as [sym day]. cbn [fst snd]. intros [-> Hsym].
    apply list_elem_of_fmap. exists sym. split; [done|].
    by rewrite elem_of_remove_dups.
Qed.

(** X28: [update_daily_stats] deletes and renumbers nothing: the rows that
    were in [daily_stats] stay in their places with their id, symbol and
    date; a row of another date, or of a symbol that is not mentioned
    today, keeps all its values; every row that is new or changed is a row
    of today for a symbol mentioned today; the other tables stay as they
    are. *)
Theorem update_daily_stats_keeps today now (d : db) :
  let d1 := update_daily_stats today now d in
  (fun r => (ds_id r, ds_symbol r, ds_date r)) <$> daily_stats d
    `prefix_of` (fun r => (ds_id r, ds_symbol r, ds_date r)) <$> daily_stats d1
  ∧ (∀ r, r ∈ daily_stats d →
          ds_date r ≠ today ∨ ds_symbol r ∉ m_symbol <$> mentions_today now d →
          r ∈ daily_stats d1)
  ∧ (∀ r, r ∈ daily_stats d1 →
          r ∈ daily_stats d
          ∨ (ds_date r = today ∧ ds_symbol r ∈ m_symbol <$> mentions_today now d))
  ∧ posts d1 = posts d ∧ comments d1 = comments d
  ∧ mentions d1 = mentions d ∧ trend_alerts d1 = trend_alerts d.
Proof.
  cbn zeta. unfold update_daily_stats.
  cbn [set_daily_stats daily_stats posts comments mentions trend_alerts].
  destruct (foldl_upsert_keeps (select_daily today now d) (daily_stats d))
    as (Hcols & Hkeep & Hfrom).
  split; [done|]. split; [|split; [|done]].
  - intros r Hr Hother. apply Hkeep; [done|].
    rewrite elem_of_select_daily_keys. cbn [ds_key fst snd]. tauto.
  - intros r Hr. destruct (Hfrom r Hr) as [?|Hk]; [by left|right].
    by apply elem_of_select_daily_keys in Hk.
Qed.

End AggregateFacts.

Section AlertFacts.
Import Aggregator Crawler.
Local Open Scope Z_scope.
Variable unique_conflict : trend_alert → trend_alert → bool.

Local Abbreviation insert_or_ignore' := (Aggregator.insert_or_ignore unique_conflict).
Local Abbreviation update_trend_alerts' := (Aggregator.update_trend_alerts unique_conflict).

Lemma foldl_insert_or_ignore_new now th (d : db) spikes : ∀ tbl,
  (∀ sc, sc ∈ spikes → sc ∈ select_spikes now th d) →
  ∃ new,
    foldl (insert_or_ignore' now th) tbl spikes = tbl ++ new
    ∧ Forall (fun r =>
                alert_type r = "mention_spike" ∧ threshold r = th
                ∧ th ≤ current_value r
                ∧ ta_created_at r = now ∧ active r = 1
                ∧ ∃ s, s ∈ daily_stats d ∧ ds_symbol s = ta_symbol r
                       ∧ ds_date s = DATE now
                       ∧ mention_count s = current_value r) new.
Proof.
  induction spikes as [|sc spikes IH]; intros tbl Hsp.
  - exists []. by rewrite app_nil_r.
  - cbn [foldl].
    destruct (IH (insert_or_ignore' now th tbl sc)) as (new & -> & Hnew).
    { intros sc' Hsc'. apply Hsp. by right. }
    unfold Aggregator.insert_or_ignore.
    destruct (existsb _ tbl); [by exists new|].
    eexists (_ :: new). rewrite <- app_assoc. split; [reflexivity|].
    apply Forall_cons. split; [|done].
    assert (sc ∈ select_spikes now th d) as Hsc by (apply Hsp; left).
    apply list_elem_of_fmap in Hsc as (s & -> & Hs).
    apply list_elem_of_filter in Hs as [[Hday Hth] Hs].
    cbn. repeat split; try done. by exists s.
Qed.

(** X29: [update_trend_alerts] only appends to [trend_alerts], whatever
    the constraints of the table are: each new alert is a [mention_spike]
    with the threshold of the run and the time of the run, and it stands
    for a row of [daily_stats] of today whose count is the value of the
    alert and reaches the threshold; the other tables stay as they are. *)
Theorem update_trend_alerts_new_rows now th (d : db) :
  let d' := update_trend_alerts' now th d in
  (∃ new,
     trend_alerts d' = trend_alerts d ++ new
     ∧ Forall (fun r =>
                 alert_type r = "mention_spike" ∧ threshold r = th
                 ∧ th ≤ current_value r
                 ∧ ta_created_at r = now ∧ active r = 1
                 ∧ ∃ s, s ∈ daily_stats d ∧ ds_symbol s = ta_symbol r
                        ∧ ds_date s = DATE now
                        ∧ mention_count s = current_value r) new)
  ∧ daily_stats d' = daily_stats d ∧ mentions d' = mentions d
  ∧ posts d' = posts d ∧ comments d' = comments d.
Proof.
  cbn zeta. unfold Aggregator.update_trend_alerts.
  cbn [set_trend_alerts daily_stats posts comments mentions trend_alerts].
  split; [|done]. by apply foldl_insert_or_ignore_new.
Qed.

Lemma foldl_insert_or_ignore_keeps now th spikes : ∀ tbl r,
  r ∈ tbl → r ∈ foldl (insert_or_ignore' now th) tbl spikes.
Proof.
  induction spikes as [|sc spikes IH]; intros tbl r Hr; [done|].
  cbn [foldl]. apply IH. unfold Aggregator.insert_or_ignore.
  destruct (existsb _ tbl); [done|]. apply elem_of_app. by left.
Qed.

Lemma foldl_insert_or_ignore_alerted now th spikes : ∀ tbl,
  (∀ r r', unique_conflict r r' = true → ta_key r = ta_key r') →
  ∀ sc, sc ∈ spikes →
    ∃ r, r ∈ foldl (insert_or_ignore' now th) tbl spikes
         ∧ ta_key r = (sc.1, DATE now).
Proof.
  induction spikes as [|sc0 spikes IH]; intros tbl Huc sc Hsc.
  - by apply elem_of_nil in Hsc.
  - cbn [foldl]. apply elem_of_cons in Hsc as [->|Hsc]; [|by apply IH].
    unfold Aggregator.insert_or_ignore at 2.
    destruct (existsb _ tbl) eqn:He.
    + apply existsb_exists in He as (r' & Hr' & Hc).
      apply Huc in Hc. exists r'. split.
      * apply foldl_insert_or_ignore_keeps. by apply list_elem_of_In.
      * by rewrite <- Hc.
    + eexists. split.
      * apply foldl_insert_or_ignore_keeps. apply elem_of_app. right. left.
      * reflexivity.
Qed.

(** X30: the end of a crawl, [update_daily_stats] followed by
    [update_trend_alerts]: when Python and SQLite read the same day from
    the clock and the constraints of [trend_alerts] reject a new alert only
    for an alert of the same symbol and day, every symbol with at least one
    mention and at least [th] mentions today has an alert of today
    afterwards. *)
Theorem crawl_alerts_spikes today now th (d : db) sym :
  (∀ r r', unique_conflict r r' = true → ta_key r = ta_key r') →
  today = DATE now →
  sym ∈ m_symbol <$> mentions_today now d →
  th ≤ Z.of_nat (length (filter (fun m => m_symbol m = sym) (mentions_today now d))) →
  ∃ r, r ∈ trend_alerts (update_trend_alerts' now th (update_daily_stats today now d))
       ∧ ta_symbol r = sym ∧ DATE (ta_created_at r) = DATE now.
Proof.
  intros Huc Htoday Hsym Hth.
  set (x := aggregate today d (mentions_today now d) sym).
  assert (Hx : x ∈ select_daily today now d).
  { unfold select_daily. apply list_elem_of_fmap. exists sym. split; [done|].
    by rewrite elem_of_remove_dups. }
  pose proof (foldl_upsert_holds (select_daily today now d) (daily_stats d)
                (select_daily_NoDup today now d) x Hx) as [Hin Hval].
  apply list_elem_of_fmap in Hin as (s & Hk & Hs).
  destruct (Hval s Hs (eq_sym Hk)) as (Hcount & _).
  injection Hk as Hsym' Hday'. cbn [x aggregate ex_symbol ex_date] in Hsym', Hday'.
  assert (Hsc : (sym, mention_count s)
                ∈ select_spikes now th (update_daily_stats today now d)).
  { unfold select_spikes. apply list_elem_of_fmap. exists s.
    split; [by rewrite <- Hsym'|].
    apply list_elem_of_filter. split; [|done]. split; [congruence|].
    rewrite Hcount. exact Hth. }
  destruct (foldl_insert_or_ignore_alerted now th _
              (trend_alerts (update_daily_stats today now d)) Huc _ Hsc)
    as (r & Hr & Hkey).
  exists r. split; [exact Hr|]. by injection Hkey.
Qed.

End AlertFacts.

Section AlertExamples.
Import Aggregator Crawler.
Local Open Scope Z_scope.

(** Two mentions of GME today reach the threshold 2. *)
Lemma crawl_alerts_spikes_witness :
  let now := {| ts_date := "2025-08-20"; ts_time := "21:15:00" |} in
  let morning := {| ts_date := "2025-08-20"; ts_time := "08:00:00" |} in
  let d :=
    {| posts := {[ "p1" := Some "alice" ]}; comments := {[ "c1" := Some "bob" ]};
       mentions := [ {| m_symbol := "GME"; m_post_id := Some "p1";
                        m_comment_id := None; m_created_at := morning |};
                     {| m_symbol := "GME"; m_post_id := None;
                        m_comment_id := Some "c1"; m_created_at := morning |} ];
       daily_stats := []; trend_alerts := [] |} in
  ∃ r, r ∈ trend_alerts (update_trend_alerts same_symbol_day now 2
                           (update_daily_stats "2025-08-20" now d))
       ∧ ta_symbol r = "GME" ∧ DATE (ta_created_at r) = DATE now.
Proof.
  intros now morning d.
  apply (crawl_alerts_spikes same_symbol_day "2025-08-20" now 2 d "GME").
  - intros r r' [Hs Hd]%bool_decide_eq_true. unfold ta_key. congruence.
  - reflexivity.
  - apply (bool_decide_unpack _). vm_compute. exact I.
  - vm_compute. discriminate.
Defined.

End AlertExamples.
